(** * Maze solver: the grid model, the wall generator and the path engine

    A shallow embedding of [maze_solver.py].  Python lists are Rocq lists
    indexed the way Python indexes them (negative indices count from the
    end, anything else out of range raises [IndexError]); the methods of
    [MazeSolverApp] that touch [self] run in a state-and-exception monad
    over the fields they use; [dijkstra], which only works on its arguments
    and on lists it creates itself, is a function into the exception monad,
    and is given a second time on a store of list objects, where the grid is
    shared with the caller, to say what the call writes to.
    The Tk canvas (colours of the rectangles, message boxes) is the
    presentation layer and is left out; the matrix [rects] of canvas ids is
    kept because indexing it can raise. *)

From Stdlib Require Import ZArith Lia List Bool Sorted Permutation.
From Stdlib Require ListDec.
From stdpp Require Import base tactics option list.

Local Open Scope Z_scope.

(** ** Outcomes of running Python code *)

Inductive exn := IndexError | TypeError.

(** [Unfinished] is not a Python outcome: it says that a bounded run of a
    [while] loop used up its bound with the loop still running. *)
Inductive result (A : Type) :=
| Done (a : A)
| Raised (e : exn)
| Unfinished.
Arguments Done {A} a.
Arguments Raised {A} e.
Arguments Unfinished {A}.

Definition rbind {A B} (r : result A) (k : A -> result B) : result B :=
  match r with
  | Done a => k a
  | Raised e => Raised e
  | Unfinished => Unfinished
  end.

Declare Scope py_scope.
Delimit Scope py_scope with py.
Notation "'let!' x ':=' r 'in' k" := (rbind r (fun x => k))
  (at level 10, x name, r at level 100, k at level 200) : py_scope.
Local Open Scope py_scope.

(** ** Python list indexing *)

Abbreviation coord := (Z * Z)%type.

Definition coord_eqb (a b : coord) : bool :=
  (fst a =? fst b) && (snd a =? snd b).

(** [l[i]] reads position [i] when [0 <= i < len(l)], position [len(l) + i]
    when [-len(l) <= i < 0]. *)
Definition norm_index (len i : Z) : option nat :=
  if (0 <=? i) && (i <? len) then Some (Z.to_nat i)
  else if (- len <=? i) && (i <? 0) then Some (Z.to_nat (len + i))
  else None.

Definition py_get {A} (l : list A) (i : Z) : result A :=
  match norm_index (Z.of_nat (length l)) i with
  | Some n => match l !! n with Some a => Done a | None => Raised IndexError end
  | None => Raised IndexError
  end.

Definition py_set {A} (l : list A) (i : Z) (v : A) : result (list A) :=
  match norm_index (Z.of_nat (length l)) i with
  | Some n => Done (<[n := v]> l)
  | None => Raised IndexError
  end.

(** [m[r][c]] and [m[r][c] = v] on a list of lists. *)
Definition get2 {A} (m : list (list A)) (c : coord) : result A :=
  let! row := py_get m (fst c) in py_get row (snd c).

Definition set2 {A} (m : list (list A)) (c : coord) (v : A)
  : result (list (list A)) :=
  let! row := py_get m (fst c) in
  let! row' := py_set row (snd c) v in
  py_set m (fst c) row'.

(** [[[v] * cols for _ in range(rows)]]: [range] and [*] of a negative
    count are empty. *)
Definition matrix {A} (rows cols : Z) (v : A) : list (list A) :=
  replicate (Z.to_nat rows) (replicate (Z.to_nat cols) v).

Definition len {A} (l : list A) : Z := Z.of_nat (length l).

(** ** The frontier: [heapq] on a list of [(d, (x, y))] tuples

    [heapq] keeps a binary heap in a Python list.  What the program can
    observe of it is its contract: [heappush] adds an item, [heappop]
    removes and returns the least item, tuples being compared
    lexicographically.  The heap is modelled by its items in ascending
    order, so that [heappop] takes the head. *)

Abbreviation entry := (Z * coord)%type.

Definition entry_leb (a b : entry) : bool :=
  let '(d1, (x1, y1)) := a in
  let '(d2, (x2, y2)) := b in
  (d1 <? d2) || ((d1 =? d2) && ((x1 <? x2) || ((x1 =? x2) && (y1 <=? y2)))).

Fixpoint heappush (pq : list entry) (e : entry) : list entry :=
  match pq with
  | [] => [e]
  | e' :: pq' => if entry_leb e e' then e :: pq else e' :: heappush pq' e
  end.

Definition heappop (pq : list entry) : option (entry * list entry) :=
  match pq with
  | [] => None
  | e :: pq' => Some (e, pq')
  end.

(** ** The path engine: [dijkstra] *)

(** [float('inf')] or an [int]. *)
Inductive dval := Inf | Fin (n : Z).

(** [n < v] for an int [n]. *)
Definition lt_dval (n : Z) (v : dval) : bool :=
  match v with
  | Inf => true
  | Fin k => n <? k
  end.

Definition is_inf (v : dval) : bool :=
  match v with Inf => true | Fin _ => false end.

Definition directions : list coord := [(-1, 0); (1, 0); (0, -1); (0, 1)].

Record search_state := {
  st_dist : list (list dval);
  st_prev : list (list (option coord));
  st_pq : list entry
}.

(** The body of [for dx, dy in directions] for one direction. *)
Definition relax (maze : list (list Z)) (rows cols : Z) (d : Z) (u : coord)
    (s : search_state) (dir : coord) : result search_state :=
  let n := (fst u + fst dir, snd u + snd dir) in
  if (0 <=? fst n) && (fst n <? rows) && (0 <=? snd n) && (snd n <? cols)
  then
    let! cell := get2 maze n in
    if cell =? 0 then
      let new_dist := d + 1 in
      let! old := get2 (st_dist s) n in
      if lt_dval new_dist old then
        let! dist' := set2 (st_dist s) n (Fin new_dist) in
        let! prev' := set2 (st_prev s) n (Some u) in
        Done {| st_dist := dist'; st_prev := prev';
                st_pq := heappush (st_pq s) (new_dist, n) |}
      else Done s
    else Done s
  else Done s.

Fixpoint relax_all (maze : list (list Z)) (rows cols : Z) (d : Z) (u : coord)
    (s : search_state) (dirs : list coord) : result search_state :=
  match dirs with
  | [] => Done s
  | dir :: dirs' =>
      let! s' := relax maze rows cols d u s dir in
      relax_all maze rows cols d u s' dirs'
  end.

(** [while pq: ...], run for at most [fuel] tests of the loop condition. *)
Fixpoint search (fuel : nat) (maze : list (list Z)) (rows cols : Z)
    (end_ : coord) (s : search_state) : result search_state :=
  match fuel with
  | O => Unfinished
  | S fuel' =>
      match heappop (st_pq s) with
      | None => Done s
      | Some ((d, u), pq') =>
          let s1 := {| st_dist := st_dist s; st_prev := st_prev s;
                       st_pq := pq' |} in
          if coord_eqb u end_ then Done s1
          else
            let! s2 := relax_all maze rows cols d u s1 directions in
            search fuel' maze rows cols end_ s2
      end
  end.

(** [while (x, y) != start: path.append((x, y)); x, y = prev[x][y]]. *)
Fixpoint walk_back (fuel : nat) (prev : list (list (option coord)))
    (start : coord) (c : coord) (path : list coord) : result (list coord) :=
  match fuel with
  | O => Unfinished
  | S fuel' =>
      if coord_eqb c start then Done path
      else
        let! p := get2 prev c in
        match p with
        | None => Raised TypeError
        | Some c' => walk_back fuel' prev start c' (path ++ [c])
        end
  end.

(** The bound given to both loops.  On a [rows] x [cols] grid the search
    loop tests its condition at most [rows * cols + 1] times and the walk
    back along [prev] at most [rows * cols] times
    ([search_spec], [walk_back_spec]), so that [dijkstra] never runs out
    of it there ([dijkstra_total]). *)
Definition loop_bound (rows cols : Z) : nat := S (Z.to_nat (rows * cols)).

(** [len(maze[0])] of a grid that has a first row. *)
Definition grid_cols (maze : list (list Z)) : Z :=
  match maze with
  | row0 :: _ => len row0
  | [] => 0
  end.

(** Lines 125-144: the tables once the search loop is over. *)
Definition dijkstra_search (maze : list (list Z)) (start end_ : coord)
  : result search_state :=
  let rows := len maze in
  let! row0 := py_get maze 0 in
  let cols := len row0 in
  let dist := matrix rows cols Inf in
  let! dist := set2 dist start (Fin 0) in
  let prev := matrix rows cols (@None coord) in
  let pq := [(0, start)] in
  search (loop_bound rows cols) maze rows cols end_
    {| st_dist := dist; st_prev := prev; st_pq := pq |}.

Definition dijkstra (maze : list (list Z)) (start end_ : coord)
  : result (option (list coord)) :=
  let! s := dijkstra_search maze start end_ in
  let path := [] in
  let! dend := get2 (st_dist s) end_ in
  if is_inf dend then Done None
  else
    let! path := walk_back (loop_bound (len maze) (grid_cols maze))
              (st_prev s) start end_ path in
    let path := path ++ [start] in
    Done (Some (rev path)).

(** ** The application state and its event handlers *)

Definition CELL_SIZE : Z := 35.
Definition ROWS : Z := 15.
Definition COLS : Z := 15.

(** The fields of [MazeSolverApp] the handlers read and write.  [None] in
    [self_start] and [self_end] is Python's [None]. *)
Record App := {
  self_maze : list (list Z);
  self_rects : list (list Z);
  self_start : option coord;
  self_end : option coord
}.

Definition set_maze (self : App) (m : list (list Z)) : App :=
  {| self_maze := m; self_rects := self_rects self;
     self_start := self_start self; self_end := self_end self |}.

Definition set_start (self : App) (c : option coord) : App :=
  {| self_maze := self_maze self; self_rects := self_rects self;
     self_start := c; self_end := self_end self |}.

Definition set_end (self : App) (c : option coord) : App :=
  {| self_maze := self_maze self; self_rects := self_rects self;
     self_start := self_start self; self_end := c |}.

(** Code that works on a state [S]: it leaves the state as it is at the
    moment it returns or raises. *)
Definition state_exn (S A : Type) : Type := S -> result A * S.

Definition ret {S A} (a : A) : state_exn S A := fun s => (Done a, s).

Definition bind {S A B} (m : state_exn S A) (k : A -> state_exn S B)
  : state_exn S B :=
  fun s =>
    match m s with
    | (Done a, s') => k a s'
    | (Raised e, s') => (Raised e, s')
    | (Unfinished, s') => (Unfinished, s')
    end.

Definition lift {S A} (r : result A) : state_exn S A := fun s => (r, s).

(** A method body: the state is the object. *)
Definition M : Type -> Type := state_exn App.

Definition get_self : M App := fun self => (Done self, self).
Definition put_self (self' : App) : M unit := fun _ => (Done tt, self').

Notation "'do!' x ':=' m 'in' k" := (bind m (fun x => k))
  (at level 10, x name, m at level 100, k at level 200) : py_scope.
Notation "'run!' m 'in' k" := (bind m (fun _ => k))
  (at level 10, m at level 100, k at level 200) : py_scope.

(** [(row, col) != t] for a field [t] that holds [None] or a tuple. *)
Definition differs (c : coord) (t : option coord) : bool :=
  match t with
  | None => true
  | Some c' => negb (coord_eqb c c')
  end.

(** A mouse event: the pixel it happened at. *)
Record Event := { ev_x : Z; ev_y : Z }.

(** [event.y // CELL_SIZE, event.x // CELL_SIZE]; [//] rounds down, as
    [Z.div] does for a positive divisor. *)
Definition event_cell (event : Event) : coord :=
  (ev_y event / CELL_SIZE, ev_x event / CELL_SIZE).

(** [self.canvas.itemconfig(self.rects[row][col], ...)]: only the indexing
    of [rects] can be seen in this model. *)
Definition itemconfig_rect (c : coord) : M unit :=
  do! self := get_self in
  run! lift (get2 (self_rects self) c) in
  ret tt.

(** [__init__]: an all-open grid, the canvas ids of [draw_grid] (Tk numbers
    the items of a canvas from 1), no start, no end. *)
Definition rect_ids : list (list Z) :=
  map (fun row => map (fun col => Z.of_nat row * COLS + Z.of_nat col + 1)
                    (seq 0 (Z.to_nat COLS)))
      (seq 0 (Z.to_nat ROWS)).

Definition init : App :=
  {| self_maze := matrix ROWS COLS 0; self_rects := rect_ids;
     self_start := None; self_end := None |}.

Definition left_click (event : Event) : M unit :=
  let '(row, col) := event_cell event in
  do! self := get_self in
  do! cell := lift (get2 (self_maze self) (row, col)) in
  if (cell =? 0) && differs (row, col) (self_start self)
     && differs (row, col) (self_end self)
  then
    do! maze' := lift (set2 (self_maze self) (row, col) 1) in
    run! put_self (set_maze self maze') in
    itemconfig_rect (row, col)
  else ret tt.

(** [generate_random_walls]: [wall_count] is [int(ROWS * COLS * density)],
    a floating-point product truncated to an [int] ([56] for the default
    density [0.25]); [draws] are the pairs [(r, c)] that the successive
    calls of [random.randint] return.  The loop stops by itself or is
    still running when the draws are used up. *)
Fixpoint place_walls (draws : list coord) (wall_count placed : Z) : M unit :=
  if placed <? wall_count then
    match draws with
    | [] => lift Unfinished
    | (r, c) :: draws' =>
        do! self := get_self in
        if differs (r, c) (self_start self) && differs (r, c) (self_end self)
        then
          do! cell := lift (get2 (self_maze self) (r, c)) in
          if cell =? 0 then
            do! maze' := lift (set2 (self_maze self) (r, c) 1) in
            run! put_self (set_maze self maze') in
            run! itemconfig_rect (r, c) in
            place_walls draws' wall_count (placed + 1)
          else place_walls draws' wall_count placed
        else place_walls draws' wall_count placed
    end
  else ret tt.

Definition generate_random_walls (wall_count : Z) (draws : list coord)
  : M unit :=
  let placed := 0 in
  place_walls draws wall_count placed.

(** [int(ROWS * COLS * 0.25)]. *)
Definition default_wall_count : Z := 56.

Definition right_click (event : Event) (draws : list coord) : M unit :=
  let '(row, col) := event_cell event in
  do! self := get_self in
  match self_start self with
  | None =>
      run! put_self (set_start self (Some (row, col))) in
      run! itemconfig_rect (row, col) in
      generate_random_walls default_wall_count draws
  | Some start =>
      match self_end self with
      | None =>
          if coord_eqb (row, col) start then ret tt
          else
            run! put_self (set_end self (Some (row, col))) in
            itemconfig_rect (row, col)
      | Some _ => ret tt
      end
  end.

(** [reset_maze]; its loop over [rects] stays inside the matrix. *)
Definition reset_maze : M unit :=
  do! self := get_self in
  put_self {| self_maze := matrix ROWS COLS 0; self_rects := self_rects self;
              self_start := None; self_end := None |}.

(** What [solve_maze] hands to the display. *)
Inductive shown :=
| MissingPoints
| ShownPath (path : list coord)
| NoPath.

(** [path[1:-1]]. *)
Definition inner {A} (path : list A) : list A := removelast (tl path).

Fixpoint colour_cells (cells : list coord) : M unit :=
  match cells with
  | [] => ret tt
  | c :: cells' => run! itemconfig_rect c in colour_cells cells'
  end.

Definition solve_maze : M shown :=
  do! self := get_self in
  match self_start self, self_end self with
  | Some start, Some end_ =>
      do! path := lift (dijkstra (self_maze self) start end_) in
      match path with
      | Some (c :: p) =>
          run! colour_cells (inner (c :: p)) in ret (ShownPath (c :: p))
      | _ => ret NoPath
      end
  | _, _ => ret MissingPoints
  end.

(** ** [dijkstra] on a store of list objects

    The functional [dijkstra] above gives every list its own value.  In
    Python [maze] is a reference to a list of references to lists, shared
    with the caller, and [dist], [prev], [pq] and [path] are lists the call
    creates.  Here the same statements run on a store of list objects, so
    that what the call writes to, and what it leaves alone, can be said. *)

Abbreviation loc := nat.

(** What an item of a list can be in this program. *)
Inductive val :=
| VInt (n : Z)
| VInf
| VNone
| VTuple (c : coord)
| VItem (e : entry)
| VRef (l : loc).

(** The store: the list objects, by address. *)
Abbreviation heap := (list (list val)).

Definition HM : Type -> Type := state_exn heap.

(** The object at an address.  A dangling address cannot arise in Python;
    the model answers [TypeError]. *)
Definition load (l : loc) : HM (list val) :=
  fun h => match h !! l with
           | Some o => (Done o, h)
           | None => (Raised TypeError, h)
           end.

Definition store (l : loc) (o : list val) : HM unit :=
  fun h => (Done tt, <[l := o]> h).

(** A new list object. *)
Definition alloc (o : list val) : HM loc :=
  fun h => (Done (length h), h ++ [o]).

Definition as_ref (v : val) : result loc :=
  match v with VRef l => Done l | _ => Raised TypeError end.

Definition as_item (v : val) : result entry :=
  match v with VItem e => Done e | _ => Raised TypeError end.

Fixpoint as_items (o : list val) : result (list entry) :=
  match o with
  | [] => Done []
  | v :: o' =>
      let! e := as_item v in
      let! es := as_items o' in
      Done (e :: es)
  end.

(** [len(l)], [l[i]], [l[i] = v], [m[r][c]], [m[r][c] = v]. *)
Definition len_at (l : loc) : HM Z :=
  do! o := load l in ret (len o).

Definition getitem (l : loc) (i : Z) : HM val :=
  do! o := load l in lift (py_get o i).

Definition setitem (l : loc) (i : Z) (v : val) : HM unit :=
  do! o := load l in
  do! o' := lift (py_set o i v) in
  store l o'.

Definition getitem2 (m : loc) (c : coord) : HM val :=
  do! r := getitem m (fst c) in
  do! row := lift (as_ref r) in
  getitem row (snd c).

Definition setitem2 (m : loc) (c : coord) (v : val) : HM unit :=
  do! r := getitem m (fst c) in
  do! row := lift (as_ref r) in
  setitem row (snd c) v.

(** [[[v] * cols for _ in range(rows)]]: a new object for every row, then
    the list of them. *)
Fixpoint alloc_rows (n : nat) (cols : Z) (v : val) : HM (list val) :=
  match n with
  | O => ret []
  | S n' =>
      do! r := alloc (replicate (Z.to_nat cols) v) in
      do! rs := alloc_rows n' cols v in
      ret (VRef r :: rs)
  end.

Definition new_matrix (rows cols : Z) (v : val) : HM loc :=
  do! rs := alloc_rows (Z.to_nat rows) cols v in
  alloc rs.

(** [v == 0], [n < v] and [v == float('inf')] on items. *)
Definition val_is_zero (v : val) : bool :=
  match v with VInt n => n =? 0 | _ => false end.

Definition val_lt (n : Z) (v : val) : result bool :=
  match v with
  | VInf => Done true
  | VInt k => Done (n <? k)
  | _ => Raised TypeError
  end.

Definition val_is_inf (v : val) : bool :=
  match v with VInf => true | _ => false end.

Definition heappush_at (pq : loc) (e : entry) : HM unit :=
  do! o := load pq in
  do! es := lift (as_items o) in
  store pq (map VItem (heappush es e)).

Definition relax_at (maze dist prev pq : loc) (rows cols : Z) (d : Z)
    (u : coord) (dir : coord) : HM unit :=
  let n := (fst u + fst dir, snd u + snd dir) in
  if (0 <=? fst n) && (fst n <? rows) && (0 <=? snd n) && (snd n <? cols)
  then
    do! cell := getitem2 maze n in
    if val_is_zero cell then
      let new_dist := d + 1 in
      do! old := getitem2 dist n in
      do! less := lift (val_lt new_dist old) in
      if less then
        run! setitem2 dist n (VInt new_dist) in
        run! setitem2 prev n (VTuple u) in
        heappush_at pq (new_dist, n)
      else ret tt
    else ret tt
  else ret tt.

Fixpoint relax_all_at (maze dist prev pq : loc) (rows cols : Z) (d : Z)
    (u : coord) (dirs : list coord) : HM unit :=
  match dirs with
  | [] => ret tt
  | dir :: dirs' =>
      run! relax_at maze dist prev pq rows cols d u dir in
      relax_all_at maze dist prev pq rows cols d u dirs'
  end.

Fixpoint search_at (fuel : nat) (maze dist prev pq : loc) (rows cols : Z)
    (end_ : coord) : HM unit :=
  match fuel with
  | O => lift Unfinished
  | S fuel' =>
      do! o := load pq in
      do! es := lift (as_items o) in
      match heappop es with
      | None => ret tt
      | Some ((d, u), es') =>
          run! store pq (map VItem es') in
          if coord_eqb u end_ then ret tt
          else
            run! relax_all_at maze dist prev pq rows cols d u directions in
            search_at fuel' maze dist prev pq rows cols end_
      end
  end.

(** [path.append(v)] and [path.reverse()]. *)
Definition append_at (l : loc) (v : val) : HM unit :=
  do! o := load l in store l (o ++ [v]).

Definition reverse_at (l : loc) : HM unit :=
  do! o := load l in store l (rev o).

Fixpoint walk_back_at (fuel : nat) (prev path : loc) (start : coord)
    (c : coord) : HM unit :=
  match fuel with
  | O => lift Unfinished
  | S fuel' =>
      if coord_eqb c start then ret tt
      else
        run! append_at path (VTuple c) in
        do! p := getitem2 prev c in
        match p with
        | VTuple c' => walk_back_at fuel' prev path start c'
        | _ => lift (Raised TypeError)
        end
  end.

(** The method on the store: [maze] is the address of the grid; the answer
    is [None] or the address of the path. *)
Definition dijkstra_at (maze : loc) (start end_ : coord) : HM (option loc) :=
  do! rows := len_at maze in
  do! r0 := getitem maze 0 in
  do! row0 := lift (as_ref r0) in
  do! cols := len_at row0 in
  do! dist := new_matrix rows cols VInf in
  run! setitem2 dist start (VInt 0) in
  do! prev := new_matrix rows cols VNone in
  do! pq := alloc [VItem (0, start)] in
  run! search_at (loop_bound rows cols) maze dist prev pq rows cols end_ in
  do! path := alloc [] in
  do! dend := getitem2 dist end_ in
  if val_is_inf dend then ret None
  else
    run! walk_back_at (loop_bound rows cols) prev path start end_ in
    run! append_at path (VTuple start) in
    run! reverse_at path in
    ret (Some path).

(** A list of lists in the store: the object at [m] lists the addresses
    of the rows, whose items are the cells, written as items by [enc]. *)
Definition matrix_at {A} (enc : A -> val) (h : heap) (m : loc)
    (rows : list (list A)) : Prop :=
  exists refs, h !! m = Some (map VRef refs) /\
    Forall2 (fun r row => h !! r = Some (map enc row)) refs rows.

Definition grid_at (h : heap) (m : loc) (maze : list (list Z)) : Prop :=
  matrix_at VInt h m maze.

(** The store of [detour_maze], the grid at address 0. *)
Definition detour_heap : heap :=
  [[VRef 1%nat; VRef 2%nat; VRef 3%nat];
   [VInt 0; VInt 0; VInt 0]; [VInt 1; VInt 1; VInt 0]; [VInt 0; VInt 0; VInt 0]].

(** * Properties *)

(** ** Grids of a given shape and cells inside them *)

Definition inb (rows cols : Z) (c : coord) : Prop :=
  0 <= fst c < rows /\ 0 <= snd c < cols.

Definition shape {A} (rows cols : Z) (m : list (list A)) : Prop :=
  len m = rows /\ Forall (fun row => len row = cols) m.

Lemma coord_eqb_eq (a b : coord) : coord_eqb a b = true <-> a = b.
Proof.
  destruct a, b; unfold coord_eqb; simpl.
  rewrite andb_true_iff, !Z.eqb_eq. split; [intros []|intros [=]]; subst; auto.
Qed.

Lemma coord_eqb_neq (a b : coord) : coord_eqb a b = false <-> a <> b.
Proof.
  rewrite <- coord_eqb_eq. destruct (coord_eqb a b); split; congruence.
Qed.

Lemma coord_eq_dec (a b : coord) : {a = b} + {a <> b}.
Proof.
  destruct (coord_eqb a b) eqn:E; [left; now apply coord_eqb_eq|right; now apply coord_eqb_neq].
Qed.

Section Indexing.
Context {A : Type}.
Implicit Types (l : list A).

Lemma norm_index_inb n i : 0 <= i < n -> norm_index n i = Some (Z.to_nat i).
Proof.
  intros H. unfold norm_index.
  destruct (0 <=? i) eqn:E1, (i <? n) eqn:E2; simpl; auto; lia.
Qed.

Lemma norm_index_wrap n i :
  - n <= i < 0 -> norm_index n i = Some (Z.to_nat (n + i)).
Proof.
  intros H. unfold norm_index.
  destruct (0 <=? i) eqn:E1; [lia|]. simpl.
  destruct (- n <=? i) eqn:E3, (i <? 0) eqn:E4; simpl; auto; lia.
Qed.

Lemma norm_index_out n i : i < - n \/ n <= i -> 0 <= n -> norm_index n i = None.
Proof.
  intros H Hn. unfold norm_index.
  destruct (0 <=? i) eqn:E1, (i <? n) eqn:E2, (- n <=? i) eqn:E3,
    (i <? 0) eqn:E4; simpl; auto; lia.
Qed.

Lemma py_get_inb l i a :
  0 <= i -> l !! Z.to_nat i = Some a -> py_get l i = Done a.
Proof.
  intros Hi Hl. unfold py_get.
  apply lookup_lt_Some in Hl as Hlt.
  rewrite norm_index_inb by lia. now rewrite Hl.
Qed.

Lemma py_get_out l i : i < - len l \/ len l <= i -> py_get l i = Raised IndexError.
Proof.
  intros H. unfold py_get. unfold len in H. rewrite norm_index_out; auto; lia.
Qed.

Lemma py_get_wrap l i : - len l <= i < 0 -> py_get l i = py_get l (len l + i).
Proof.
  intros H. unfold py_get, len in *.
  rewrite norm_index_wrap by lia. now rewrite norm_index_inb by lia.
Qed.

Lemma py_set_inb l i v :
  0 <= i < len l -> py_set l i v = Done (<[Z.to_nat i := v]> l).
Proof.
  intros H. unfold py_set, len in *. now rewrite norm_index_inb by lia.
Qed.

Lemma py_set_out l i v :
  i < - len l \/ len l <= i -> py_set l i v = Raised IndexError.
Proof.
  intros H. unfold py_set. unfold len in H. rewrite norm_index_out; auto; lia.
Qed.

Lemma py_set_wrap l i v :
  - len l <= i < 0 -> py_set l i v = py_set l (len l + i) v.
Proof.
  intros H. unfold py_set, len in *.
  rewrite norm_index_wrap by lia. now rewrite norm_index_inb by lia.
Qed.

End Indexing.

Section Indexing2.
Context {A : Type}.
Implicit Types (m : list (list A)).

Lemma shape_row rows cols m c :
  shape rows cols m -> inb rows cols c ->
  exists row, m !! Z.to_nat (fst c) = Some row /\ len row = cols.
Proof.
  intros [Hlen Hall] [Hr _]. unfold len in *.
  destruct (lookup_lt_is_Some_2 m (Z.to_nat (fst c))) as [row Hrow]; [lia|].
  exists row. split; auto.
  rewrite Forall_lookup in Hall. exact (Hall _ _ Hrow).
Qed.

Lemma get2_inb rows cols m c :
  shape rows cols m -> inb rows cols c -> exists v, get2 m c = Done v.
Proof.
  intros Hs Hc. destruct (shape_row _ _ _ _ Hs Hc) as (row & Hrow & Hlen).
  destruct Hc as [Hr Hc]. unfold len in Hlen.
  destruct (lookup_lt_is_Some_2 row (Z.to_nat (snd c))) as [v Hv]; [lia|].
  exists v. unfold get2. rewrite (py_get_inb _ _ _ (proj1 Hr) Hrow). simpl.
  now apply py_get_inb.
Qed.

Lemma set2_inb rows cols m c v :
  shape rows cols m -> inb rows cols c ->
  exists m', set2 m c v = Done m' /\ shape rows cols m' /\
             get2 m' c = Done v /\
             forall c', inb rows cols c' -> c' <> c -> get2 m' c' = get2 m c'.
Proof.
  intros Hs Hc. destruct (shape_row _ _ _ _ Hs Hc) as (row & Hrow & Hlen).
  pose proof Hs as [Hrows Hall]. pose proof Hc as [Hr Hk].
  exists (<[Z.to_nat (fst c) := <[Z.to_nat (snd c) := v]> row]> m).
  assert (Hlt : (Z.to_nat (fst c) < length m)%nat) by (unfold len in *; lia).
  assert (Hlt' : (Z.to_nat (snd c) < length row)%nat) by (unfold len in *; lia).
  split; [|split; [|split]].
  - unfold set2. rewrite (py_get_inb _ _ _ (proj1 Hr) Hrow). simpl.
    rewrite py_set_inb by lia. simpl. now rewrite py_set_inb by lia.
  - split.
    + unfold len. now rewrite length_insert.
    + apply Forall_insert; auto. unfold len. now rewrite length_insert.
  - unfold get2. erewrite py_get_inb; [|lia|now apply list_lookup_insert_eq].
    simpl. apply py_get_inb; [lia|]. now apply list_lookup_insert_eq.
  - intros c' [Hr' Hk'] Hne. unfold get2.
    destruct (decide (fst c' = fst c)) as [E|E].
    + rewrite E. erewrite py_get_inb; [|lia|now apply list_lookup_insert_eq].
      rewrite (py_get_inb m _ _ (proj1 Hr) Hrow). simpl.
      unfold py_get. rewrite length_insert.
      unfold len in *. rewrite norm_index_inb by lia.
      rewrite list_lookup_insert_ne; auto.
      intros E2. apply Hne. destruct c, c'; simpl in *. f_equal; lia.
    + unfold py_get at 1 3. rewrite length_insert.
      unfold len in *. rewrite norm_index_inb by lia.
      rewrite list_lookup_insert_ne; auto. lia.
Qed.

Lemma shape_matrix rows cols (v : A) :
  0 <= rows -> 0 <= cols -> shape rows cols (matrix rows cols v).
Proof.
  intros Hr Hc. unfold shape, matrix, len. rewrite length_replicate. split; [lia|].
  apply Forall_replicate. rewrite length_replicate. lia.
Qed.

Lemma get2_matrix rows cols (v : A) c :
  inb rows cols c -> get2 (matrix rows cols v) c = Done v.
Proof.
  intros [Hr Hc]. unfold get2, matrix.
  erewrite py_get_inb; [|lia|apply lookup_replicate_2; lia]. simpl.
  apply py_get_inb; [lia|]. apply lookup_replicate_2; lia.
Qed.
End Indexing2.

(** ** Counting the cells still at infinity *)

Definition ninf_row (row : list dval) : nat := length (List.filter is_inf row).

Definition ninf (m : list (list dval)) : nat := ninf_row (concat m).

Lemma ninf_row_app (a b : list dval) :
  ninf_row (a ++ b) = (ninf_row a + ninf_row b)%nat.
Proof. unfold ninf_row. now rewrite List.filter_app, length_app. Qed.

Lemma ninf_row_insert (row : list dval) (i : nat) (k : Z) :
  row !! i = Some Inf -> ninf_row row = S (ninf_row (<[i := Fin k]> row)).
Proof.
  intros H. rewrite insert_take_drop by (eapply lookup_lt_Some; eauto).
  rewrite <- (take_drop_middle _ _ _ H) at 1.
  rewrite !ninf_row_app. change (Inf :: ?l) with ([Inf] ++ l).
  change (Fin k :: ?l) with ([Fin k] ++ l). rewrite !ninf_row_app.
  unfold ninf_row at 2 5. simpl. lia.
Qed.

Lemma ninf_insert (m : list (list dval)) (i : nat) (row row' : list dval) :
  m !! i = Some row -> ninf_row row = S (ninf_row row') ->
  ninf m = S (ninf (<[i := row']> m)).
Proof.
  intros H Hrow. unfold ninf.
  rewrite insert_take_drop by (eapply lookup_lt_Some; eauto).
  rewrite <- (take_drop_middle _ _ _ H) at 1.
  rewrite !concat_app. simpl. rewrite !ninf_row_app. lia.
Qed.

Lemma ninf_set2 rows cols (m m' : list (list dval)) c k :
  shape rows cols m -> inb rows cols c ->
  get2 m c = Done Inf -> set2 m c (Fin k) = Done m' ->
  ninf m = S (ninf m').
Proof.
  intros Hs Hc Hget Hset.
  destruct (shape_row _ _ _ _ Hs Hc) as (row & Hrow & Hlen).
  destruct Hc as [Hr Hk]. unfold get2, set2 in *.
  rewrite (py_get_inb _ _ _ (proj1 Hr) Hrow) in Hget, Hset. simpl in *.
  rewrite py_set_inb in Hset by lia. simpl in Hset.
  rewrite py_set_inb in Hset by (destruct Hs as [Hs _]; lia).
  injection Hset as <-.
  apply ninf_insert with row; auto. apply ninf_row_insert.
  unfold py_get in Hget. unfold len in Hlen. rewrite norm_index_inb in Hget by lia.
  destruct (row !! Z.to_nat (snd c)) as [v|] eqn:E; [|discriminate].
  now injection Hget as ->.
Qed.

Lemma ninf_matrix rows cols :
  0 <= rows -> 0 <= cols -> Z.of_nat (ninf (matrix rows cols Inf)) = rows * cols.
Proof.
  intros Hr Hc. unfold ninf, matrix.
  assert (Hrow : forall n, ninf_row (replicate n Inf) = n).
  { induction n as [|n IH]; simpl; auto. unfold ninf_row in *. simpl. now rewrite IH. }
  assert (H : forall n k, ninf_row (concat (replicate n (replicate k Inf))) = (n * k)%nat).
  { induction n as [|n IH]; intros k; simpl; auto.
    rewrite ninf_row_app, Hrow, IH. lia. }
  rewrite H. lia.
Qed.

(** ** The frontier *)

Lemma entry_leb_fst (a b : entry) : entry_leb a b = true -> fst a <= fst b.
Proof.
  destruct a as [d1 [x1 y1]], b as [d2 [x2 y2]]. simpl. lia.
Qed.

Lemma entry_leb_fst_false (a b : entry) : entry_leb a b = false -> fst b <= fst a.
Proof.
  destruct a as [d1 [x1 y1]], b as [d2 [x2 y2]]. simpl. lia.
Qed.

Lemma heappush_perm (pq : list entry) (e : entry) : heappush pq e ≡ₚ e :: pq.
Proof.
  induction pq as [|e' pq IH]; simpl; auto.
  destruct (entry_leb e e'); auto. rewrite IH. apply Permutation_swap.
Qed.

Definition by_dist (a b : entry) : Prop := fst a <= fst b.

Lemma heappush_sorted (pq : list entry) (e : entry) :
  StronglySorted by_dist pq -> StronglySorted by_dist (heappush pq e).
Proof.
  induction 1 as [|e' pq Hs IH Hall]; simpl.
  - repeat constructor.
  - destruct (entry_leb e e') eqn:E.
    + apply entry_leb_fst in E. constructor; [now constructor|].
      constructor; auto. eapply Forall_impl; [exact Hall|].
      unfold by_dist. intros; simpl in *; lia.
    + apply entry_leb_fst_false in E. constructor; auto.
      rewrite heappush_perm. constructor; auto.
  Qed.

(** ** 4-adjacency *)

(** Two cells differ by exactly one unit in exactly one axis. *)
Definition adjacent (a b : coord) : Prop :=
  Z.abs (fst a - fst b) + Z.abs (snd a - snd b) = 1.

Definition step (u dir : coord) : coord := (fst u + fst dir, snd u + snd dir).

Lemma adjacent_step (u n : coord) :
  adjacent u n <-> exists dir, In dir directions /\ n = step u dir.
Proof.
  unfold adjacent, step, directions. destruct u as [x y], n as [x' y']; simpl.
  split.
  - intros H.
    assert ((x' = x - 1 /\ y' = y) \/ (x' = x + 1 /\ y' = y) \/
            (x' = x /\ y' = y - 1) \/ (x' = x /\ y' = y + 1)) as Hc by lia.
    destruct Hc as [[-> ->]|[[-> ->]|[[-> ->]|[-> ->]]]].
    + exists (-1, 0). simpl. split; [tauto|f_equal; lia].
    + exists (1, 0). simpl. split; [tauto|f_equal; lia].
    + exists (0, -1). simpl. split; [tauto|f_equal; lia].
    + exists (0, 1). simpl. split; [tauto|f_equal; lia].
  - intros (dir & Hin & E). simpl in Hin.
    destruct Hin as [<-|[<-|[<-|[<-|[]]]]]; simpl in E; injection E as -> ->; lia.
Qed.

Lemma adjacent_sym (a b : coord) : adjacent a b -> adjacent b a.
Proof. unfold adjacent. lia. Qed.

Lemma inb_test rows cols (n : coord) :
  (0 <=? fst n) && (fst n <? rows) && (0 <=? snd n) && (snd n <? cols) = true
  <-> inb rows cols n.
Proof. unfold inb. rewrite !andb_true_iff. lia. Qed.

(** ** The search loop on a well-formed grid *)

Section Search.
Variables (maze : list (list Z)) (rows cols : Z) (start : coord).
Hypothesis Hmaze : shape rows cols maze.
Hypothesis Hstart : inb rows cols start.

Local Abbreviation inb' := (inb rows cols).

(** [maze[r][c] == 0]. *)
Definition open_cell (c : coord) : Prop := get2 maze c = Done 0.

Definition dist_at (s : search_state) (c : coord) (k : Z) : Prop :=
  get2 (st_dist s) c = Done (Fin k).

Lemma dist_at_fun s c k k' : dist_at s c k -> dist_at s c k' -> k = k'.
Proof. unfold dist_at. congruence. Qed.

(** What holds of the tables whenever the loop condition is tested and
    between two directions of the [for] loop. *)
Record Core (s : search_state) : Prop := {
  c_dist_shape : shape rows cols (st_dist s);
  c_prev_shape : shape rows cols (st_prev s);
  c_start : dist_at s start 0;
  c_sorted : StronglySorted by_dist (st_pq s);
  c_pq : forall d c, In (d, c) (st_pq s) -> inb' c /\ dist_at s c d;
  c_nodup : List.NoDup (map snd (st_pq s));
  c_prev : forall c k, inb' c -> c <> start -> dist_at s c k ->
    1 <= k /\ exists p, get2 (st_prev s) c = Done (Some p) /\ inb' p /\
                        dist_at s p (k - 1) /\ adjacent p c /\ open_cell c;
  c_count : forall c k, inb' c -> dist_at s c k ->
    0 <= k /\ k + Z.of_nat (ninf (st_dist s)) + 1 <= rows * cols
}.

(** Every open neighbour of [c] has a distance at most one more. *)
Definition expanded (s : search_state) (c : coord) : Prop :=
  forall k, dist_at s c k ->
  forall n, inb' n -> adjacent c n -> open_cell n ->
  exists k', dist_at s n k' /\ k' <= k + 1.

(** At the loop head: the frontier spans at most two levels, and a cell
    with no frontier entry has been expanded. *)
Record Inv (s : search_state) : Prop := {
  i_core : Core s;
  i_level : forall c k e, inb' c -> dist_at s c k -> In e (st_pq s) ->
    k <= fst e + 1;
  i_done : forall c, inb' c -> ~ In c (map snd (st_pq s)) -> expanded s c
}.

(** Inside the [for] loop, expanding [u] popped at distance [d]. *)
Record Mid (d : Z) (u : coord) (s : search_state) : Prop := {
  m_core : Core s;
  m_inb : inb' u;
  m_dist : dist_at s u d;
  m_out : ~ In u (map snd (st_pq s));
  m_level : forall c k, inb' c -> dist_at s c k -> k <= d + 1;
  m_low : forall e, In e (st_pq s) -> d <= fst e;
  m_done : forall c, inb' c -> c <> u -> ~ In c (map snd (st_pq s)) ->
    expanded s c
}.

Definition relaxed (d : Z) (s : search_state) (n : coord) : Prop :=
  inb' n -> open_cell n -> exists k', dist_at s n k' /\ k' <= d + 1.

Definition measure (s : search_state) : nat :=
  (ninf (st_dist s) + length (st_pq s))%nat.

Definition grows (s s' : search_state) : Prop :=
  forall c k, inb' c -> dist_at s c k -> dist_at s' c k.

Lemma maze_cell n : inb' n -> exists v, get2 maze n = Done v.
Proof. intros. eapply get2_inb; eauto. Qed.

(** The two ways one direction can go. *)
Lemma relax_cases d u s dir :
  shape rows cols (st_dist s) -> shape rows cols (st_prev s) ->
  let n := step u dir in
  (relax maze rows cols d u s dir = Done s /\
   (~ inb' n \/ ~ open_cell n \/ exists k, dist_at s n k /\ k <= d + 1))
  \/
  (inb' n /\ open_cell n /\
   (get2 (st_dist s) n = Done Inf \/ exists k, dist_at s n k /\ d + 1 < k) /\
   exists dist' prev',
     set2 (st_dist s) n (Fin (d + 1)) = Done dist' /\
     set2 (st_prev s) n (Some u) = Done prev' /\
     relax maze rows cols d u s dir =
       Done {| st_dist := dist'; st_prev := prev';
               st_pq := heappush (st_pq s) (d + 1, n) |}).
Proof.
  intros Hd Hp n. unfold relax. fold (step u dir). fold n.
  destruct ((0 <=? fst n) && (fst n <? rows) && (0 <=? snd n) && (snd n <? cols))
    eqn:Hb.
  2:{ left. split; auto. left. rewrite <- inb_test. congruence. }
  apply inb_test in Hb.
  destruct (maze_cell n Hb) as [v Hv]. rewrite Hv. simpl.
  destruct (v =? 0) eqn:Hz.
  2:{ left. split; auto. right; left. unfold open_cell. rewrite Hv.
      intros [=]. subst. discriminate. }
  apply Z.eqb_eq in Hz. subst v.
  destruct (get2_inb _ _ _ _ Hd Hb) as [old Hold]. rewrite Hold. simpl.
  destruct (lt_dval (d + 1) old) eqn:Hlt.
  - right. split; auto. split; auto. split.
    { destruct old as [|k]; [now left|right]. exists k. split; auto.
      simpl in Hlt. lia. }
    destruct (set2_inb _ _ _ _ (Fin (d + 1)) Hd Hb) as (dist' & Hs1 & _).
    destruct (set2_inb _ _ _ _ (Some u) Hp Hb) as (prev' & Hs2 & _).
    exists dist', prev'. rewrite Hs1, Hs2. simpl. auto.
  - left. split; auto. right; right. destruct old as [|k]; [discriminate|].
    exists k. split; auto. simpl in Hlt. lia.
Qed.

Lemma heappush_In (pq : list entry) (e x : entry) :
  In x (heappush pq e) <-> x = e \/ In x pq.
Proof.
  split; intros H.
  - apply (Permutation_in _ (heappush_perm pq e)) in H. simpl in H.
    destruct H; auto.
  - apply (Permutation_in _ (Permutation_sym (heappush_perm pq e))).
    simpl. destruct H; auto.
Qed.

Lemma heappush_cells (pq : list entry) (e : entry) (c : coord) :
  In c (map snd (heappush pq e)) <-> c = snd e \/ In c (map snd pq).
Proof.
  rewrite !in_map_iff. split.
  - intros (x & <- & Hx). apply heappush_In in Hx as [->|Hx]; eauto.
  - intros [->|(x & <- & Hx)].
    + exists e. split; auto. apply heappush_In; auto.
    + exists x. split; auto. apply heappush_In; auto.
Qed.

Lemma heappush_length (pq : list entry) (e : entry) :
  length (heappush pq e) = S (length pq).
Proof. now rewrite (Permutation_length (heappush_perm pq e)). Qed.

(** One direction keeps the tables consistent and settles its cell. *)
Lemma relax_spec d u s dir :
  In dir directions -> Mid d u s ->
  exists s', relax maze rows cols d u s dir = Done s' /\ Mid d u s' /\
             measure s' = measure s /\ grows s s' /\
             relaxed d s' (step u dir).
Proof.
  intros Hdir HM. pose proof HM as [HC Hu Hdu Hout Hlevel Hlow Hdone].
  pose proof HC as [Hds Hps Hst Hsorted Hpq Hnd Hprev Hcount].
  destruct (relax_cases d u s dir Hds Hps)
    as [[E Hno]|(Hn & Hopen & Hold & dist' & prev' & Hs1 & Hs2 & E)].
  - exists s. split; auto. split; auto. split; auto. split.
    + intros c k; auto.
    + intros Hi Ho. destruct Hno as [?|[?|?]]; [tauto|tauto|auto].
  - set (n := step u dir) in *.
    assert (HInf : get2 (st_dist s) n = Done Inf).
    { destruct Hold as [?|(k & Hk & Hlt)]; auto.
      pose proof (Hlevel n k Hn Hk). lia. }
    destruct (set2_inb _ _ _ _ (Fin (d + 1)) Hds Hn)
      as (dist'' & Hs1' & Hshape1 & Hget1 & Hoth1).
    rewrite Hs1 in Hs1'. injection Hs1' as <-.
    destruct (set2_inb _ _ _ _ (Some u) Hps Hn)
      as (prev'' & Hs2' & Hshape2 & Hget2 & Hoth2).
    rewrite Hs2 in Hs2'. injection Hs2' as <-.
    set (s' := {| st_dist := dist'; st_prev := prev';
                  st_pq := heappush (st_pq s) (d + 1, n) |}) in *.
    assert (Hfresh : forall c k, dist_at s c k -> c <> n).
    { intros c k H ->. unfold dist_at in H. congruence. }
    assert (Hgrow : grows s s').
    { intros c k Hc H. unfold dist_at. simpl. rewrite Hoth1; auto.
      eapply Hfresh; eauto. }
    assert (Hback : forall c k, inb' c -> dist_at s' c k ->
              (c = n /\ k = d + 1) \/ (c <> n /\ dist_at s c k)).
    { intros c k Hc H. destruct (coord_eq_dec c n) as [->|Hne].
      - left. split; auto. unfold dist_at in H. simpl in H.
        rewrite Hget1 in H. congruence.
      - right. split; auto. unfold dist_at in *. simpl in H.
        rewrite Hoth1 in H; auto. }
    assert (Hnin : ~ In n (map snd (st_pq s))).
    { intros Hin. apply in_map_iff in Hin as ([d0 c0] & E0 & Hin).
      simpl in E0; subst c0. destruct (Hpq _ _ Hin) as [_ Hd0].
      eapply Hfresh; eauto. }
    assert (Hninf : ninf (st_dist s) = S (ninf dist')).
    { eapply ninf_set2; eauto. }
    destruct (Hcount u d Hu Hdu) as [Hd0 Hdc].
    exists s'. split; [exact E|]. split; [|split; [|split]].
    + constructor.
      * constructor; simpl; auto.
        -- now apply heappush_sorted.
        -- intros d0 c0 Hin. apply heappush_In in Hin as [[= -> ->]|Hin].
           ++ split; auto.
           ++ destruct (Hpq _ _ Hin). split; auto.
        -- eapply Permutation_NoDup.
           ++ apply Permutation_sym, Permutation_map, heappush_perm.
           ++ simpl. constructor; auto.
        -- intros c k Hc Hne Hk.
           destruct (Hback _ _ Hc Hk) as [[-> ->]|[Hcn Hk']].
           ++ split; [lia|]. exists u. split; auto. split; auto. split.
              { replace (d + 1 - 1) with d by lia. now apply Hgrow. }
              split; auto. apply adjacent_step. exists dir; auto.
           ++ destruct (Hprev c k Hc Hne Hk')
                as (H1 & p & Hp & Hpi & Hpd & Hadj & Ho).
              split; auto. exists p. rewrite Hoth2; auto.
        -- intros c k Hc Hk.
           destruct (Hback _ _ Hc Hk) as [[-> ->]|[Hcn Hk']].
           ++ lia.
           ++ destruct (Hcount c k Hc Hk'). lia.
      * auto.
      * now apply Hgrow.
      * simpl. intros Hin. apply heappush_cells in Hin as [Hun|Hin]; auto.
        simpl in Hun. exact (Hfresh u d Hdu Hun).
      * intros c k Hc Hk.
        destruct (Hback _ _ Hc Hk) as [[-> ->]|[Hcn Hk']]; [lia|eauto].
      * simpl. intros e Hin. apply heappush_In in Hin as [->|Hin].
        -- simpl. lia.
        -- auto.
      * simpl. intros c Hc Hcu Hnotin k Hk n' Hn' Hadj Ho.
        assert (Hcn : c <> n).
        { intros ->. apply Hnotin. apply heappush_cells. now left. }
        destruct (Hback _ _ Hc Hk) as [[? _]|[_ Hk']]; [contradiction|].
        destruct (Hdone c Hc Hcu) with (k := k) (n := n')
          as (k' & Hk1 & Hk2); auto.
        { intros Hin. apply Hnotin. apply heappush_cells. now right. }
        exists k'. split; auto.
    + unfold measure. simpl. rewrite heappush_length. lia.
    + exact Hgrow.
    + intros _ _. exists (d + 1). split; [exact Hget1|lia].
Qed.

Lemma relaxed_grows d s s' n : relaxed d s n -> grows s s' -> relaxed d s' n.
Proof.
  intros H Hg Hn Ho. destruct (H Hn Ho) as (k & Hk & Hle). exists k. split; auto.
Qed.

Lemma relax_all_spec d u dirs : forall s,
  (forall dir, In dir dirs -> In dir directions) -> Mid d u s ->
  exists s', relax_all maze rows cols d u s dirs = Done s' /\ Mid d u s' /\
             measure s' = measure s /\ grows s s' /\
             forall dir, In dir dirs -> relaxed d s' (step u dir).
Proof.
  induction dirs as [|dir dirs IH]; intros s Hsub HM; simpl.
  - exists s. split; auto. split; auto. split; auto. split.
    + intros c k; auto.
    + intros dir [].
  - destruct (relax_spec d u s dir) as (s1 & E1 & HM1 & Hm1 & Hg1 & Hr1); auto.
    { apply Hsub. now left. }
    rewrite E1. simpl.
    destruct (IH s1) as (s2 & E2 & HM2 & Hm2 & Hg2 & Hr2); auto.
    { intros dir' Hin. apply Hsub. now right. }
    exists s2. split; auto. split; auto. split; [congruence|]. split.
    + intros c k Hc Hk. apply Hg2; auto.
    + intros dir' [<-|Hin]; auto. eapply relaxed_grows; eauto.
Qed.

Definition popped (s : search_state) (pq' : list entry) : search_state :=
  {| st_dist := st_dist s; st_prev := st_prev s; st_pq := pq' |}.

Lemma Core_popped s e pq' :
  Core s -> st_pq s = e :: pq' -> Core (popped s pq').
Proof.
  intros [Hds Hps Hst Hsorted Hpq Hnd Hprev Hcount] E. rewrite E in *.
  constructor; simpl; auto.
  - now inversion Hsorted.
  - intros d c Hin. apply Hpq. now right.
  - simpl in Hnd. now inversion Hnd.
Qed.

Lemma pop_Mid s d u pq' :
  Inv s -> st_pq s = (d, u) :: pq' -> Mid d u (popped s pq').
Proof.
  intros [HC Hlevel Hdone] E. pose proof (Core_popped _ _ _ HC E) as HC'.
  destruct HC as [Hds Hps Hst Hsorted Hpq Hnd Hprev Hcount]. rewrite E in *.
  destruct (Hpq d u) as [Hu Hdu]; [now left|].
  constructor; simpl; auto.
  - simpl in Hnd. now inversion Hnd.
  - intros c k Hc Hk. apply (Hlevel c k (d, u)); auto. now left.
  - inversion Hsorted as [|? ? _ Hall]; subst. intros e Hin.
    rewrite List.Forall_forall in Hall. exact (Hall e Hin).
  - intros c Hc Hcu Hnotin. apply Hdone; auto. simpl. intros [?|?]; auto.
Qed.

Lemma Mid_Inv d u s :
  Mid d u s -> (forall dir, In dir directions -> relaxed d s (step u dir)) ->
  Inv s.
Proof.
  intros [HC Hu Hdu Hout Hlevel Hlow Hdone] Hrel. constructor; auto.
  - intros c k e Hc Hk Hin. pose proof (Hlevel c k Hc Hk).
    pose proof (Hlow e Hin). lia.
  - intros c Hc Hnotin. destruct (coord_eq_dec c u) as [->|Hcu]; auto.
    intros k Hk n Hn Hadj Ho. rewrite (dist_at_fun _ _ _ _ Hk Hdu).
    apply adjacent_step in Hadj as (dir & Hdir & ->). now apply Hrel.
Qed.

(** A trail: the start cell, then open cells of the grid, each adjacent
    to the one before. *)
Inductive trail : list coord -> coord -> Prop :=
| trail_start : trail [start] start
| trail_step p c c' :
    trail p c -> adjacent c c' -> inb' c' -> open_cell c' ->
    trail (p ++ [c']) c'.

Lemma trail_inb p c : trail p c -> inb' c.
Proof. destruct 1; auto. Qed.

Lemma trail_length p c : trail p c -> (1 <= length p)%nat.
Proof. destruct 1; simpl; [lia|]. rewrite length_app. simpl. lia. Qed.

(** The end of a trail is at a distance below the trail's length, or
    something in the frontier is. *)
Lemma trail_bound s p c :
  Inv s -> trail p c ->
  (exists k, dist_at s c k /\ k < Z.of_nat (length p)) \/
  (exists e, In e (st_pq s) /\ fst e < Z.of_nat (length p)).
Proof.
  intros [HC Hlevel Hdone] Ht. induction Ht as [|p c c' Ht IH Hadj Hc' Ho].
  - left. exists 0. split; [exact (c_start _ HC)|simpl; lia].
  - rewrite length_app. simpl.
    destruct IH as [(k & Hk & Hlt)|(e & Hin & Hlt)].
    + destruct (in_dec coord_eq_dec c (map snd (st_pq s))) as [Hin|Hnotin].
      * right. apply in_map_iff in Hin as ([d0 c0] & E0 & Hin).
        simpl in E0; subst c0. destruct (c_pq _ HC _ _ Hin) as [_ Hd0].
        rewrite (dist_at_fun _ _ _ _ Hd0 Hk) in Hin.
        exists (k, c). split; auto. simpl. lia.
      * left. destruct (Hdone c (trail_inb _ _ Ht) Hnotin k Hk c')
          as (k' & Hk' & Hle); auto.
        exists k'. split; auto. lia.
    + right. exists e. split; auto. lia.
Qed.

Lemma search_unfold fuel end_ s :
  search (S fuel) maze rows cols end_ s =
  match st_pq s with
  | [] => Done s
  | (d, u) :: pq' =>
      if coord_eqb u end_ then Done (popped s pq')
      else
        let! s2 := relax_all maze rows cols d u (popped s pq') directions in
        search fuel maze rows cols end_ s2
  end.
Proof. simpl. destruct (st_pq s) as [|[d u] pq']; reflexivity. Qed.

(** The loop ends within its bound, with consistent tables in which the
    distance of [end_] is at most the length of any trail to it. *)
Lemma search_spec end_ fuel : forall s,
  Inv s -> (measure s < fuel)%nat ->
  exists s', search fuel maze rows cols end_ s = Done s' /\ Core s' /\
    forall p, trail p end_ ->
      exists k, dist_at s' end_ k /\ k < Z.of_nat (length p).
Proof.
  induction fuel as [|fuel IH]; intros s HI Hm; [lia|].
  rewrite search_unfold. destruct (st_pq s) as [|[d u] pq'] eqn:E.
  - exists s. split; auto. split; [exact (i_core _ HI)|].
    intros p Ht. destruct (trail_bound s p end_ HI Ht) as [?|(e & Hin & _)]; auto.
    rewrite E in Hin. destruct Hin.
  - pose proof (pop_Mid s d u pq' HI E) as HM.
    destruct (coord_eqb u end_) eqn:Hend.
    + apply coord_eqb_eq in Hend. subst u.
      exists (popped s pq'). split; auto. split; [exact (m_core _ _ _ HM)|].
      intros p Ht.
      destruct (trail_bound s p end_ HI Ht) as [?|(e & Hin & Hlt)]; auto.
      exists d. split; [exact (m_dist _ _ _ HM)|].
      rewrite E in Hin. destruct Hin as [<-|Hin]; [simpl in Hlt; lia|].
      pose proof (m_low _ _ _ HM e Hin). lia.
    + destruct (relax_all_spec d u directions (popped s pq'))
        as (s2 & E2 & HM2 & Hm2 & Hg2 & Hr2); auto.
      rewrite E2. unfold rbind. apply IH.
      * eapply Mid_Inv; eauto.
      * rewrite Hm2. unfold measure in *. rewrite E in Hm. simpl in *. lia.
Qed.

(** The tables the loop starts from. *)
Lemma init_Inv dist1 :
  set2 (matrix rows cols Inf) start (Fin 0) = Done dist1 ->
  let s := {| st_dist := dist1; st_prev := matrix rows cols None;
              st_pq := [(0, start)] |} in
  Inv s /\ measure s = Z.to_nat (rows * cols).
Proof.
  intros Hset s. pose proof Hstart as [Hr Hc].
  assert (Hm : shape rows cols (matrix rows cols Inf)) by (apply shape_matrix; lia).
  destruct (set2_inb _ _ _ _ (Fin 0) Hm Hstart)
    as (dist' & Hs' & Hshape & Hget & Hoth).
  rewrite Hset in Hs'. injection Hs' as <-.
  assert (Hfar : forall c k, inb' c -> dist_at s c k -> c = start /\ k = 0).
  { intros c k Hin Hk. unfold dist_at in Hk. simpl in Hk.
    destruct (coord_eq_dec c start) as [->|Hne].
    - split; auto. congruence.
    - rewrite Hoth, get2_matrix in Hk; auto. discriminate. }
  assert (Hn : Z.of_nat (ninf dist1) + 1 = rows * cols).
  { pose proof (ninf_set2 _ _ _ _ _ 0 Hm Hstart (get2_matrix _ _ _ _ Hstart) Hset).
    pose proof (ninf_matrix rows cols). lia. }
  split.
  - constructor.
    + constructor; simpl; auto.
      * apply shape_matrix; lia.
      * repeat constructor.
      * intros d c [[= <- <-]|[]]. split; auto.
      * repeat constructor. intros [].
      * intros c k Hin Hne Hk. destruct (Hfar c k Hin Hk). contradiction.
      * intros c k Hin Hk. destruct (Hfar c k Hin Hk) as [-> ->]. lia.
    + simpl. intros c k e Hin Hk [<-|[]]. destruct (Hfar c k Hin Hk). simpl. lia.
    + simpl. intros c Hin Hnot k Hk. destruct (Hfar c k Hin Hk) as [-> _].
      tauto.
  - unfold measure. simpl. lia.
Qed.

(** The walk back along [prev] from a cell at distance [k] takes [k]
    steps and lists a trail backwards. *)
Lemma walk_back_spec s :
  Core s -> forall fuel c k path,
  inb' c -> dist_at s c k -> (Z.to_nat k < fuel)%nat ->
  exists q, walk_back fuel (st_prev s) start c path = Done (path ++ q) /\
            trail (rev (q ++ [start])) c /\ Z.of_nat (length q) = k.
Proof.
  intros HC. induction fuel as [|fuel IH]; intros c k path Hc Hk Hf; [lia|].
  simpl. destruct (coord_eqb c start) eqn:E.
  - apply coord_eqb_eq in E. subst c.
    rewrite (dist_at_fun _ _ _ _ Hk (c_start _ HC)).
    exists []. rewrite app_nil_r. split; auto. split; auto. constructor.
  - apply coord_eqb_neq in E.
    destruct (c_prev _ HC c k Hc E Hk) as (H1 & p & Hp & Hpi & Hpd & Hadj & Ho).
    rewrite Hp. simpl.
    destruct (IH p (k - 1) (path ++ [c]) Hpi Hpd) as (q & Eq & Ht & Hlen); [lia|].
    exists (c :: q). rewrite Eq, <- app_assoc. split; auto. split.
    + simpl. now apply trail_step with p.
    + simpl length. lia.
Qed.

Lemma first_row : exists row0, maze !! 0%nat = Some row0 /\ len row0 = cols.
Proof.
  destruct Hstart as [Hr Hc].
  apply (shape_row rows cols maze (0, snd start)); auto. split; simpl; lia.
Qed.

(** The search part of [dijkstra] returns consistent tables. *)
Lemma dijkstra_search_spec end_ :
  exists s, dijkstra_search maze start end_ = Done s /\ Core s /\
    forall p, trail p end_ ->
      exists k, dist_at s end_ k /\ k < Z.of_nat (length p).
Proof.
  destruct first_row as (row0 & Hrow0 & Hlen0).
  pose proof Hmaze as [Hrows _]. pose proof Hstart as [Hr Hc].
  assert (Hm : shape rows cols (matrix rows cols Inf)) by (apply shape_matrix; lia).
  destruct (set2_inb _ _ _ _ (Fin 0) Hm Hstart) as (dist1 & Hs1 & _).
  destruct (init_Inv dist1 Hs1) as [HI Hmeasure].
  unfold dijkstra_search. rewrite (py_get_inb maze 0 row0) by (auto; lia).
  cbn [rbind]. rewrite Hrows, Hlen0, Hs1. cbn [rbind].
  apply search_spec; auto. unfold loop_bound. rewrite Hmeasure. lia.
Qed.

(** [dijkstra] returns [None] when no trail leads to [end_], and
    otherwise a trail to it that no other trail to it is shorter than. *)
Theorem dijkstra_spec end_ :
  inb' end_ ->
  (dijkstra maze start end_ = Done None /\ forall p, ~ trail p end_) \/
  (exists p, dijkstra maze start end_ = Done (Some p) /\ trail p end_ /\
             forall q, trail q end_ -> (length p <= length q)%nat).
Proof.
  intros Hend. destruct (dijkstra_search_spec end_) as (s & Es & HC & Hopt).
  unfold dijkstra. rewrite Es. cbn [rbind].
  destruct (get2_inb _ _ _ _ (c_dist_shape _ HC) Hend) as [v Hv]. rewrite Hv.
  cbn [rbind]. destruct v as [|k]; cbn [is_inf].
  - left. split; auto. intros p Ht. destruct (Hopt p Ht) as (k & Hk & _).
    unfold dist_at in Hk. congruence.
  - right. destruct first_row as (row0 & Hrow0 & Hlen0).
    assert (Hgc : grid_cols maze = cols).
    { destruct maze; [discriminate|]. simpl in *. congruence. }
    pose proof Hmaze as [Hrows _]. rewrite Hrows, Hgc.
    destruct (c_count _ HC end_ k Hend Hv) as [Hk0 Hkc].
    destruct (walk_back_spec s HC (loop_bound rows cols) end_ k [] Hend Hv)
      as (q & Eq & Ht & Hlen); [unfold loop_bound; lia|].
    rewrite Eq. cbn [rbind app]. exists (rev (q ++ [start])).
    split; auto. split; auto.
    intros q0 Hq0. destruct (Hopt q0 Hq0) as (k' & Hk' & Hlt).
    rewrite (dist_at_fun _ _ _ _ Hk' Hv) in Hlt.
    rewrite length_rev, length_app. simpl. lia.
Qed.
End Search.

(** ** Paths as lists *)

(** [p] runs from [s] to [e]. *)
Definition joins (p : list coord) (s e : coord) : Prop :=
  head p = Some s /\ last p = Some e.

(** Consecutive cells are 4-adjacent. *)
Fixpoint chain (p : list coord) : Prop :=
  match p with
  | a :: ((b :: _) as rest) => adjacent a b /\ chain rest
  | _ => True
  end.

(** A cell of the grid that is [Open]. *)
Definition open_in (maze : list (list Z)) (rows cols : Z) (c : coord) : Prop :=
  inb rows cols c /\ open_cell maze c.

(** A walkable path: every cell is open, consecutive cells are adjacent. *)
Definition walkable (maze : list (list Z)) (rows cols : Z)
    (p : list coord) (s e : coord) : Prop :=
  joins p s e /\ chain p /\ Forall (open_in maze rows cols) p.

(** The same with nothing asked of the first cell. *)
Definition passable (maze : list (list Z)) (rows cols : Z)
    (p : list coord) (s e : coord) : Prop :=
  joins p s e /\ chain p /\ Forall (open_in maze rows cols) (tail p).

Lemma chain_snoc (p : list coord) (c x : coord) :
  last p = Some c -> chain (p ++ [x]) <-> chain p /\ adjacent c x.
Proof.
  induction p as [|a p IH]; intros Hl; [discriminate|].
  destruct p as [|b p].
  - injection Hl as ->. simpl. tauto.
  - change (last (a :: b :: p)) with (last (b :: p)) in Hl.
    change (chain ((a :: b :: p) ++ [x]))
      with (adjacent a b /\ chain ((b :: p) ++ [x])).
    change (chain (a :: b :: p)) with (adjacent a b /\ chain (b :: p)).
    rewrite (IH Hl). tauto.
Qed.

Lemma trail_passable maze rows cols start p e :
  trail maze rows cols start p e -> passable maze rows cols p start e.
Proof.
  induction 1 as [|p c c' Ht IH Hadj Hc' Ho].
  - split; [split|split]; simpl; auto.
  - destruct IH as ([Hh Hl] & Hch & Hall). destruct p as [|a p]; [discriminate|].
    split; [split|split].
    + exact Hh.
    + apply last_snoc.
    + apply (chain_snoc (a :: p) c c' Hl). auto.
    + simpl in *. apply Forall_app. split; auto.
      constructor; [split; auto|constructor].
Qed.

Lemma passable_trail maze rows cols start p : forall e,
  passable maze rows cols p start e -> trail maze rows cols start p e.
Proof.
  induction p as [|x p IH] using rev_ind; intros e ([Hh Hl] & Hch & Hall).
  - discriminate.
  - rewrite last_snoc in Hl. injection Hl as ->.
    destruct p as [|a p].
    + simpl in Hh. injection Hh as ->. constructor.
    + destruct (last (a :: p)) as [c|] eqn:Hlast.
      2:{ apply last_None in Hlast. discriminate. }
      destruct (proj1 (chain_snoc (a :: p) c e Hlast) Hch) as [Hch' Hadj].
      simpl in Hall. apply Forall_app in Hall as [Hall He].
      inversion He as [|? ? [Hin Ho] _]; subst.
      apply trail_step with c; auto. apply IH. split; [split|split]; auto.
Qed.

Lemma walkable_passable maze rows cols p s e :
  walkable maze rows cols p s e -> passable maze rows cols p s e.
Proof.
  intros (Hj & Hch & Hall). split; [|split]; auto.
  destruct p; simpl; auto. now inversion Hall.
Qed.

Lemma walkable_start maze rows cols p s e :
  walkable maze rows cols p s e -> open_cell maze s.
Proof.
  intros ([Hh _] & _ & Hall). destruct p as [|a p]; [discriminate|].
  injection Hh as ->. inversion Hall as [|? ? [_ Ho] _]; auto.
Qed.

Lemma passable_walkable maze rows cols p s e :
  inb rows cols s -> open_cell maze s ->
  passable maze rows cols p s e -> walkable maze rows cols p s e.
Proof.
  intros Hs Ho ([Hh Hl] & Hch & Hall). split; [split|split]; auto.
  destruct p as [|a p]; [discriminate|]. injection Hh as ->.
  constructor; auto. split; auto.
Qed.

(** The same cells, with the path taken from the code's own result. *)
Lemma dijkstra_passable maze rows cols start end_ :
  shape rows cols maze -> inb rows cols start -> inb rows cols end_ ->
  (dijkstra maze start end_ = Done None /\
   forall p, ~ passable maze rows cols p start end_) \/
  (exists p, dijkstra maze start end_ = Done (Some p) /\
             passable maze rows cols p start end_ /\
             forall q, passable maze rows cols q start end_ ->
                       (length p <= length q)%nat).
Proof.
  intros Hm Hs He.
  destruct (dijkstra_spec maze rows cols start Hm Hs end_ He)
    as [[E Hno]|(p & E & Ht & Hmin)].
  - left. split; auto. intros p Hp. apply (Hno p). now apply passable_trail.
  - right. exists p. split; auto. split; [now apply trail_passable|].
    intros q Hq. apply Hmin. now apply passable_trail.
Qed.

(** On a well-formed grid and in-bounds cells the two loops end within
    their bound and nothing raises: [dijkstra] returns. *)
Lemma dijkstra_total maze rows cols start end_ :
  shape rows cols maze -> inb rows cols start -> inb rows cols end_ ->
  exists r, dijkstra maze start end_ = Done r.
Proof.
  intros Hm Hs He.
  destruct (dijkstra_passable maze rows cols start end_ Hm Hs He)
    as [[E _]|(p & E & _)]; eauto.
Qed.

(** ** Grids used as concrete inputs *)

(** A wall across the middle row with a gap on the right. *)
Definition detour_maze : list (list Z) := [[0; 0; 0]; [1; 1; 0]; [0; 0; 0]].

Definition detour_path : list coord :=
  [(0, 0); (0, 1); (0, 2); (1, 2); (2, 2); (2, 1); (2, 0)].

(** One row, the left cell [Blocked]. *)
Definition wall_then_open : list (list Z) := [[1; 0]].

Ltac solve_shape :=
  split; [vm_compute; reflexivity | vm_compute; repeat constructor].
Ltac solve_inb := unfold inb, ROWS, COLS; simpl; lia.
Ltac solve_cells :=
  repeat (constructor; [split; [solve_inb | vm_compute; reflexivity]|]);
  constructor.
Ltac solve_chain := simpl; unfold adjacent; simpl; repeat split; lia.

Lemma trail_open maze rows cols start p c :
  trail maze rows cols start p c -> c = start \/ open_cell maze c.
Proof. destruct 1; auto. Qed.

Lemma trail_single maze rows cols start p c :
  trail maze rows cols start p c -> (length p <= 1)%nat -> p = [start] /\ c = start.
Proof.
  destruct 1 as [|p c c' Ht]; auto. intros Hlen.
  apply trail_length in Ht. rewrite length_app in Hlen. simpl in Hlen. lia.
Qed.

(** ** The path engine: claims *)

(** C1. On a grid of any shape and for in-bounds [start] and [end_]: if a
    walkable path from [start] to [end_] exists (open cells, consecutive
    ones 4-adjacent), [dijkstra] returns a walkable path from [start] to
    [end_] that no walkable path between them is shorter than. *)
Theorem dijkstra_returns_shortest_walkable maze rows cols start end_ q :
  shape rows cols maze -> inb rows cols start -> inb rows cols end_ ->
  walkable maze rows cols q start end_ ->
  exists p, dijkstra maze start end_ = Done (Some p) /\
            walkable maze rows cols p start end_ /\
            forall q', walkable maze rows cols q' start end_ ->
                       (length p <= length q')%nat.
Proof.
  intros Hm Hs He Hq.
  destruct (dijkstra_passable maze rows cols start end_ Hm Hs He)
    as [[_ Hno]|(p & E & Hp & Hmin)].
  - destruct (Hno q). now apply walkable_passable.
  - exists p. split; auto. split.
    + apply passable_walkable; auto. eapply walkable_start; eauto.
    + intros q' Hq'. apply Hmin. now apply walkable_passable.
Qed.

Lemma dijkstra_returns_shortest_walkable_witness :
  walkable detour_maze 3 3 detour_path (0, 0) (2, 0) /\
  exists p, dijkstra detour_maze (0, 0) (2, 0) = Done (Some p) /\
            walkable detour_maze 3 3 p (0, 0) (2, 0) /\
            forall q', walkable detour_maze 3 3 q' (0, 0) (2, 0) ->
                       (length p <= length q')%nat.
Proof.
  assert (H : walkable detour_maze 3 3 detour_path (0, 0) (2, 0)).
  { split; [split; reflexivity|]. split; [solve_chain|solve_cells]. }
  split; [exact H|].
  apply (dijkstra_returns_shortest_walkable detour_maze 3 3 (0, 0) (2, 0)
           detour_path); [solve_shape|solve_inb|solve_inb|exact H].
Defined.

(** [dijkstra] answers [None] exactly when the distance of [end_] is still
    infinite after the search. *)
Lemma dijkstra_None_iff_inf maze start end_ s :
  dijkstra_search maze start end_ = Done s ->
  dijkstra maze start end_ = Done None <-> get2 (st_dist s) end_ = Done Inf.
Proof.
  intros Es. unfold dijkstra. rewrite Es. cbn [rbind].
  destruct (get2 (st_dist s) end_) as [[|k]|e|]; cbn [rbind is_inf].
  - tauto.
  - destruct (walk_back _ _ _ _ _); cbn [rbind]; split; discriminate.
  - split; discriminate.
  - split; discriminate.
Qed.

(** C2, as stated, fails: with a [Blocked] start cell there is no walkable
    path, yet a path is returned. *)
Lemma absent_iff_unwalkable_fails :
  dijkstra wall_then_open (0, 0) (0, 1) = Done (Some [(0, 0); (0, 1)]) /\
  ~ exists p, walkable wall_then_open 1 2 p (0, 0) (0, 1).
Proof.
  split; [reflexivity|]. intros [p Hp]. apply walkable_start in Hp.
  vm_compute in Hp. discriminate.
Qed.

(** C2, amended. For in-bounds [start] and [end_], [dijkstra] returns
    [None] exactly when no 4-adjacent sequence of cells leads from [start]
    to [end_] through cells that are open after the first one (the state of
    the start cell is never read); when the start cell is open, exactly
    when no walkable path exists.  An [end_] other than [start] none of
    whose neighbours is open or is [start] gives [None], and [None] is
    answered exactly when the distance of [end_] is still infinite once the
    search loop is over. *)
Theorem dijkstra_absent_iff maze rows cols start end_ :
  shape rows cols maze -> inb rows cols start -> inb rows cols end_ ->
  (dijkstra maze start end_ = Done None <->
   ~ exists p, passable maze rows cols p start end_) /\
  (open_cell maze start ->
   (dijkstra maze start end_ = Done None <->
    ~ exists p, walkable maze rows cols p start end_)) /\
  (start <> end_ ->
   (forall n, inb rows cols n -> adjacent n end_ ->
              n <> start /\ ~ open_cell maze n) ->
   dijkstra maze start end_ = Done None) /\
  (exists s, dijkstra_search maze start end_ = Done s /\
             (dijkstra maze start end_ = Done None <->
              get2 (st_dist s) end_ = Done Inf)).
Proof.
  intros Hm Hs He.
  assert (H1 : dijkstra maze start end_ = Done None <->
               ~ exists p, passable maze rows cols p start end_).
  { destruct (dijkstra_passable maze rows cols start end_ Hm Hs He)
      as [[E Hno]|(p & E & Hp & _)].
    - split; auto. intros _ [p Hp]. exact (Hno p Hp).
    - split; [congruence|]. intros Hno. destruct Hno. eauto. }
  split; [exact H1|]. split; [|split].
  - intros Ho. rewrite H1. split; intros Hno [p Hp]; apply Hno; exists p.
    + now apply walkable_passable.
    + now apply passable_walkable.
  - intros Hne Hclosed. apply H1. intros [p Hp].
    apply passable_trail in Hp. inversion Hp as [|p' c c' Ht Hadj Hc' Ho]; subst.
    + congruence.
    + pose proof (trail_inb maze rows cols start Hs p' c Ht) as Hc.
      destruct (Hclosed c Hc Hadj) as [Hcs Hco].
      destruct (trail_open _ _ _ _ _ _ Ht); auto.
  - destruct (dijkstra_search_spec maze rows cols start Hm Hs end_)
      as (s & Es & _). exists s. split; auto.
    now apply dijkstra_None_iff_inf.
Qed.

Lemma dijkstra_absent_iff_witness :
  (dijkstra detour_maze (1, 0) (0, 0) = Done None <->
   ~ exists p, passable detour_maze 3 3 p (1, 0) (0, 0)) /\
  (open_cell detour_maze (1, 0) ->
   (dijkstra detour_maze (1, 0) (0, 0) = Done None <->
    ~ exists p, walkable detour_maze 3 3 p (1, 0) (0, 0))) /\
  ((1, 0) <> (0, 0) ->
   (forall n, inb 3 3 n -> adjacent n (0, 0) ->
              n <> (1, 0) /\ ~ open_cell detour_maze n) ->
   dijkstra detour_maze (1, 0) (0, 0) = Done None) /\
  (exists s, dijkstra_search detour_maze (1, 0) (0, 0) = Done s /\
             (dijkstra detour_maze (1, 0) (0, 0) = Done None <->
              get2 (st_dist s) (0, 0) = Done Inf)).
Proof.
  apply (dijkstra_absent_iff detour_maze 3 3 (1, 0) (0, 0));
    [solve_shape|solve_inb|solve_inb].
Defined.

(** C3, as stated, fails: the start cell of a returned path may be
    [Blocked]. *)
Lemma returned_cells_open_fails :
  dijkstra wall_then_open (0, 0) (0, 1) = Done (Some [(0, 0); (0, 1)]) /\
  ~ Forall (open_in wall_then_open 1 2) [(0, 0); (0, 1)].
Proof.
  split; [reflexivity|]. intros H. inversion H as [|? ? [_ Ho] _]; subst.
  vm_compute in Ho. discriminate.
Qed.

(** C3, amended. A path returned for in-bounds [start] and [end_] runs
    from [start] to [end_], its consecutive cells are 4-adjacent, and every
    cell after the first is an open cell of the grid; the first cell,
    [start], is whatever the grid holds there, so the whole path is open
    when the start cell is. *)
Theorem dijkstra_path_adjacent_open maze rows cols start end_ p :
  shape rows cols maze -> inb rows cols start -> inb rows cols end_ ->
  dijkstra maze start end_ = Done (Some p) ->
  joins p start end_ /\ chain p /\
  Forall (open_in maze rows cols) (tail p) /\
  (open_cell maze start -> Forall (open_in maze rows cols) p).
Proof.
  intros Hm Hs He E.
  destruct (dijkstra_passable maze rows cols start end_ Hm Hs He)
    as [[E' _]|(p' & E' & Hp & _)]; [congruence|].
  assert (p' = p) as -> by congruence.
  pose proof Hp as (Hj & Hch & Hall). split; auto. split; auto. split; auto.
  intros Ho. now apply (passable_walkable maze rows cols p start end_ Hs Ho).
Qed.

Lemma dijkstra_path_adjacent_open_witness :
  joins detour_path (0, 0) (2, 0) /\ chain detour_path /\
  Forall (open_in detour_maze 3 3) (tail detour_path) /\
  (open_cell detour_maze (0, 0) -> Forall (open_in detour_maze 3 3) detour_path).
Proof.
  apply (dijkstra_path_adjacent_open detour_maze 3 3 (0, 0) (2, 0) detour_path);
    [solve_shape|solve_inb|solve_inb|reflexivity].
Defined.

(** C6. For every grid and every in-bounds cell [c], [dijkstra] from [c]
    to [c] returns the one-cell path [[c]], and the distance of [c] in the
    tables the search leaves is 0: the loop stops at its first extraction,
    before any expansion, and the walk back stops at once. *)
Theorem dijkstra_same_cell maze rows cols c :
  shape rows cols maze -> inb rows cols c ->
  dijkstra maze c c = Done (Some [c]) /\
  exists s, dijkstra_search maze c c = Done s /\
            get2 (st_dist s) c = Done (Fin 0) /\ st_pq s = [].
Proof.
  intros Hm Hc. split.
  - destruct (dijkstra_spec maze rows cols c Hm Hc c Hc)
      as [[_ Hno]|(p & E & Ht & Hmin)].
    + destruct (Hno [c]). constructor.
    + destruct (trail_single _ _ _ _ _ _ Ht) as [-> _]; auto.
      apply (Hmin [c]). constructor.
  - pose proof Hc as [Hr Hk].
    destruct (first_row maze rows cols c Hm Hc) as (row0 & Hrow0 & Hlen0).
    assert (Hmx : shape rows cols (matrix rows cols Inf))
      by (apply shape_matrix; lia).
    destruct (set2_inb _ _ _ _ (Fin 0) Hmx Hc) as (dist1 & Hs1 & _ & Hget & _).
    exists {| st_dist := dist1; st_prev := matrix rows cols None; st_pq := [] |}.
    split; [|split; auto].
    unfold dijkstra_search. rewrite (py_get_inb maze 0 row0) by (auto; lia).
    cbn [rbind]. destruct Hm as [Hrows _]. rewrite Hrows, Hlen0, Hs1. cbn [rbind].
    unfold loop_bound. rewrite search_unfold. cbn [st_pq].
    now rewrite (proj2 (coord_eqb_eq c c) eq_refl).
Qed.

Lemma dijkstra_same_cell_witness :
  dijkstra detour_maze (1, 1) (1, 1) = Done (Some [(1, 1)]) /\
  exists s, dijkstra_search detour_maze (1, 1) (1, 1) = Done s /\
            get2 (st_dist s) (1, 1) = Done (Fin 0) /\ st_pq s = [].
Proof.
  apply (dijkstra_same_cell detour_maze 3 3 (1, 1)); [solve_shape|solve_inb].
Defined.

(** C10. With [start] and [end_] in bounds and different, a [Blocked] end
    cell makes [dijkstra] return [None], although the state of the end cell
    is never read.  The case can arise: on the application state with that
    grid, [start] set and no end yet, a right click on the cell sets End
    there whatever the cell holds. *)
Theorem blocked_end_absent maze rows cols start end_ :
  shape rows cols maze -> inb rows cols start -> inb rows cols end_ ->
  start <> end_ -> ~ open_cell maze end_ ->
  dijkstra maze start end_ = Done None /\
  forall rects event draws,
    shape rows cols rects -> event_cell event = end_ ->
    right_click event draws
      {| self_maze := maze; self_rects := rects;
         self_start := Some start; self_end := None |} =
    (Done tt, {| self_maze := maze; self_rects := rects;
                 self_start := Some start; self_end := Some end_ |}).
Proof.
  intros Hm Hs He Hne Hblocked. split.
  - destruct (dijkstra_spec maze rows cols start Hm Hs end_ He)
      as [[E _]|(p & _ & Ht & _)]; auto.
    destruct (trail_open _ _ _ _ _ _ Ht); [congruence|contradiction].
  - intros rects event draws Hr Hev. unfold right_click. rewrite Hev.
    destruct end_ as [row col]. unfold bind, get_self. cbn [self_start self_end].
    assert (coord_eqb (row, col) start = false) as ->
      by (apply coord_eqb_neq; congruence).
    unfold put_self, itemconfig_rect, bind, get_self, lift, set_end.
    cbn [self_rects]. destruct (get2_inb _ _ _ _ Hr He) as [v ->]. reflexivity.
Qed.

Lemma blocked_end_absent_witness :
  dijkstra detour_maze (0, 0) (1, 1) = Done None /\
  forall rects event draws,
    shape 3 3 rects -> event_cell event = (1, 1) ->
    right_click event draws
      {| self_maze := detour_maze; self_rects := rects;
         self_start := Some (0, 0); self_end := None |} =
    (Done tt, {| self_maze := detour_maze; self_rects := rects;
                 self_start := Some (0, 0); self_end := Some (1, 1) |}).
Proof.
  apply (blocked_end_absent detour_maze 3 3 (0, 0) (1, 1));
    [solve_shape|solve_inb|solve_inb|discriminate|].
  vm_compute. discriminate.
Defined.

(** ** Grids without obstacles *)

Definition all_open (maze : list (list Z)) : Prop :=
  Forall (Forall (fun v => v = 0)) maze.

Definition manhattan (a b : coord) : Z :=
  Z.abs (fst a - fst b) + Z.abs (snd a - snd b).

Lemma all_open_cell maze rows cols c :
  shape rows cols maze -> all_open maze -> inb rows cols c -> open_cell maze c.
Proof.
  intros Hm Ha Hc. destruct (shape_row _ _ _ _ Hm Hc) as (row & Hrow & Hlen).
  destruct Hc as [Hr Hk]. unfold len in Hlen.
  destruct (lookup_lt_is_Some_2 row (Z.to_nat (snd c))) as [v Hv]; [lia|].
  unfold all_open in Ha. rewrite List.Forall_forall in Ha.
  assert (Hrow0 : Forall (fun v => v = 0) row).
  { apply Ha. apply list_elem_of_In. eapply list_elem_of_lookup_2; eauto. }
  rewrite List.Forall_forall in Hrow0.
  assert (v = 0) as ->.
  { apply Hrow0. apply list_elem_of_In. eapply list_elem_of_lookup_2; eauto. }
  unfold open_cell, get2. rewrite (py_get_inb _ _ _ (proj1 Hr) Hrow).
  cbn [rbind]. now apply py_get_inb.
Qed.

(** A trail is at least as long as the Manhattan distance it covers. *)
Lemma trail_manhattan maze rows cols start p c :
  trail maze rows cols start p c ->
  manhattan start c + 1 <= Z.of_nat (length p).
Proof.
  induction 1 as [|p c c' Ht IH Hadj Hc' Ho].
  - unfold manhattan. simpl. lia.
  - rewrite length_app. simpl. unfold manhattan, adjacent in *. lia.
Qed.

(** Without obstacles a trail of exactly that length exists. *)
Lemma straight_trail maze rows cols start :
  shape rows cols maze -> all_open maze -> inb rows cols start ->
  forall n e, inb rows cols e -> manhattan start e = Z.of_nat n ->
  exists p, trail maze rows cols start p e /\ length p = S n.
Proof.
  intros Hm Ha Hs. induction n as [|n IH]; intros e He Hd.
  - assert (e = start) as ->.
    { unfold manhattan in Hd. destruct e, start; simpl in *. f_equal; lia. }
    exists [start]. split; [constructor|reflexivity].
  - set (c := if fst e =? fst start
              then (fst e, if snd start <? snd e then snd e - 1 else snd e + 1)
              else (if fst start <? fst e then fst e - 1 else fst e + 1, snd e)).
    assert (Hc : inb rows cols c /\ manhattan start c = Z.of_nat n /\ adjacent c e).
    { unfold c, manhattan, adjacent, inb in *.
      destruct (fst e =? fst start) eqn:E1;
        [destruct (snd start <? snd e) eqn:E2|destruct (fst start <? fst e) eqn:E2];
        simpl; lia. }
    destruct Hc as (Hc & Hdc & Hadj).
    destruct (IH c Hc Hdc) as (p & Ht & Hlen).
    exists (p ++ [e]). split.
    + apply trail_step with c; auto. eapply all_open_cell; eauto.
    + rewrite length_app. simpl. lia.
Qed.

(** C5. On a grid in which every cell is open, for in-bounds [start] and
    [end_], [dijkstra] returns a path of exactly
    [|start.row - end.row| + |start.col - end.col| + 1] cells. *)
Theorem dijkstra_open_grid_manhattan maze rows cols start end_ :
  shape rows cols maze -> all_open maze ->
  inb rows cols start -> inb rows cols end_ ->
  exists p, dijkstra maze start end_ = Done (Some p) /\
            Z.of_nat (length p) =
            Z.abs (fst start - fst end_) + Z.abs (snd start - snd end_) + 1.
Proof.
  intros Hm Ha Hs He.
  destruct (straight_trail maze rows cols start Hm Ha Hs
              (Z.to_nat (manhattan start end_)) end_ He) as (q & Hq & Hlen).
  { unfold manhattan. lia. }
  destruct (dijkstra_spec maze rows cols start Hm Hs end_ He)
    as [[_ Hno]|(p & E & Ht & Hmin)].
  - destruct (Hno q Hq).
  - exists p. split; auto. pose proof (Hmin q Hq).
    pose proof (trail_manhattan _ _ _ _ _ _ Ht). unfold manhattan in *. lia.
Qed.

Lemma dijkstra_open_grid_manhattan_witness :
  exists p, dijkstra (matrix 3 3 0) (0, 0) (2, 2) = Done (Some p) /\
            Z.of_nat (length p) = Z.abs (0 - 2) + Z.abs (0 - 2) + 1.
Proof.
  apply (dijkstra_open_grid_manhattan (matrix 3 3 0) 3 3 (0, 0) (2, 2));
    [solve_shape|repeat constructor|solve_inb|solve_inb].
Defined.

(** The scenario of the specification: 3 x 3, no obstacle, corner to
    corner. *)
Example dijkstra_3x3_corner :
  dijkstra (matrix 3 3 0) (0, 0) (2, 2)
  = Done (Some [(0, 0); (0, 1); (0, 2); (1, 2); (2, 2)]).
Proof. reflexivity. Qed.

(** ** Indices outside the grid *)

(** Outside Python's index range in one of the two axes. *)
Definition out_of_range (rows cols : Z) (c : coord) : Prop :=
  fst c < - rows \/ rows <= fst c \/ snd c < - cols \/ cols <= snd c.

(** Inside the index range, but with a negative row or column. *)
Definition wraps (rows cols : Z) (c : coord) : Prop :=
  (- rows <= fst c < rows /\ - cols <= snd c < cols) /\ ~ inb rows cols c.

(** The position a negative index stands for. *)
Definition wrap (n i : Z) : Z := if i <? 0 then n + i else i.

Definition wrapped (rows cols : Z) (c : coord) : coord :=
  (wrap rows (fst c), wrap cols (snd c)).

Lemma wrapped_inb rows cols c :
  - rows <= fst c < rows -> - cols <= snd c < cols ->
  inb rows cols (wrapped rows cols c).
Proof.
  unfold inb, wrapped, wrap. simpl.
  destruct (fst c <? 0) eqn:E1, (snd c <? 0) eqn:E2; lia.
Qed.

Lemma py_get_wrapped {A} (l : list A) i :
  - len l <= i < len l -> py_get l i = py_get l (wrap (len l) i).
Proof.
  intros H. unfold wrap. destruct (i <? 0) eqn:E; auto.
  apply py_get_wrap. lia.
Qed.

Lemma py_set_wrapped {A} (l : list A) i v :
  - len l <= i < len l -> py_set l i v = py_set l (wrap (len l) i) v.
Proof.
  intros H. unfold wrap. destruct (i <? 0) eqn:E; auto.
  apply py_set_wrap. lia.
Qed.

Lemma get2_wrapped {A} rows cols (m : list (list A)) c :
  shape rows cols m -> - rows <= fst c < rows -> - cols <= snd c < cols ->
  get2 m c = get2 m (wrapped rows cols c).
Proof.
  intros Hm Hr Hc. pose proof (wrapped_inb rows cols c Hr Hc) as Hw.
  destruct (shape_row _ _ _ _ Hm Hw) as (row & Hrow & Hlen).
  destruct Hm as [Hrows _]. destruct Hw as [Hwr Hwc]. simpl in *.
  unfold get2. cbn [fst snd wrapped].
  rewrite (py_get_wrapped m (fst c)) by lia. rewrite Hrows.
  rewrite (py_get_inb _ _ _ (proj1 Hwr) Hrow). cbn [rbind].
  rewrite (py_get_wrapped row (snd c)) by lia. now rewrite Hlen.
Qed.

Lemma set2_wrapped {A} rows cols (m : list (list A)) c v :
  shape rows cols m -> - rows <= fst c < rows -> - cols <= snd c < cols ->
  set2 m c v = set2 m (wrapped rows cols c) v.
Proof.
  intros Hm Hr Hc. pose proof (wrapped_inb rows cols c Hr Hc) as Hw.
  destruct (shape_row _ _ _ _ Hm Hw) as (row & Hrow & Hlen).
  destruct Hm as [Hrows _]. destruct Hw as [Hwr Hwc]. simpl in *.
  unfold set2. cbn [fst snd wrapped].
  rewrite (py_get_wrapped m (fst c)) by lia. rewrite Hrows.
  rewrite (py_get_inb _ _ _ (proj1 Hwr) Hrow). cbn [rbind].
  rewrite (py_set_wrapped row (snd c)) by lia. rewrite Hlen.
  destruct (py_set row (wrap cols (snd c)) v); cbn [rbind]; auto.
  rewrite (py_set_wrapped m (fst c)) by lia. now rewrite Hrows.
Qed.

Lemma get2_out {A} rows cols (m : list (list A)) c :
  shape rows cols m -> out_of_range rows cols c ->
  get2 m c = Raised IndexError.
Proof.
  intros Hm Hout. pose proof Hm as [Hrows Hall]. unfold get2.
  destruct (Z_lt_dec (fst c) (- rows)) as [H1|H1];
    [rewrite py_get_out by lia; reflexivity|].
  destruct (Z_le_dec rows (fst c)) as [H2|H2];
    [rewrite py_get_out by lia; reflexivity|].
  rewrite (py_get_wrapped m (fst c)) by lia. rewrite Hrows.
  assert (Hw : 0 <= wrap rows (fst c) < rows).
  { unfold wrap. destruct (fst c <? 0) eqn:E; lia. }
  destruct (lookup_lt_is_Some_2 m (Z.to_nat (wrap rows (fst c)))) as [row Hrow].
  { unfold len in *. lia. }
  assert (Hlen : len row = cols).
  { rewrite List.Forall_forall in Hall. apply Hall.
    apply list_elem_of_In. eapply list_elem_of_lookup_2; eauto. }
  rewrite (py_get_inb m _ row) by (auto; apply Hw). cbn [rbind].
  apply py_get_out. unfold out_of_range in Hout. lia.
Qed.

Lemma set2_out {A} rows cols (m : list (list A)) c v :
  shape rows cols m -> out_of_range rows cols c ->
  set2 m c v = Raised IndexError.
Proof.
  intros Hm Hout. pose proof Hm as [Hrows Hall]. unfold set2.
  destruct (Z_lt_dec (fst c) (- rows)) as [H1|H1];
    [rewrite py_get_out by lia; reflexivity|].
  destruct (Z_le_dec rows (fst c)) as [H2|H2];
    [rewrite py_get_out by lia; reflexivity|].
  rewrite (py_get_wrapped m (fst c)) by lia. rewrite Hrows.
  assert (Hw : 0 <= wrap rows (fst c) < rows).
  { unfold wrap. destruct (fst c <? 0) eqn:E; lia. }
  destruct (lookup_lt_is_Some_2 m (Z.to_nat (wrap rows (fst c)))) as [row Hrow].
  { unfold len in *. lia. }
  assert (Hlen : len row = cols).
  { rewrite List.Forall_forall in Hall. apply Hall.
    apply list_elem_of_In. eapply list_elem_of_lookup_2; eauto. }
  rewrite (py_get_inb m _ row) by (auto; apply Hw). cbn [rbind].
  rewrite py_set_out; auto. unfold out_of_range in Hout. lia.
Qed.

(** ** The grid model: [left_click] *)

Lemma differs_true (c : coord) (t : option coord) :
  differs c t = true <-> t <> Some c.
Proof.
  destruct t as [c'|]; simpl.
  - rewrite negb_true_iff, coord_eqb_neq. split; congruence.
  - split; [discriminate|reflexivity].
Qed.

Lemma wrapped_id rows cols c : inb rows cols c -> wrapped rows cols c = c.
Proof.
  intros [Hr Hc]. unfold wrapped, wrap. destruct c as [r k]; simpl in *.
  destruct (r <? 0) eqn:E1, (k <? 0) eqn:E2; f_equal; lia.
Qed.

(** What a click does when its row and column are inside the index range:
    the cell read and written is the one the indices stand for, the cell
    compared with Start and End is the one the event gives. *)
Lemma left_click_in_range self event rows cols :
  shape rows cols (self_maze self) -> shape rows cols (self_rects self) ->
  - rows <= fst (event_cell event) < rows ->
  - cols <= snd (event_cell event) < cols ->
  let c := event_cell event in
  let w := wrapped rows cols c in
  (open_cell (self_maze self) w /\
   self_start self <> Some c /\ self_end self <> Some c ->
   exists maze',
     left_click event self = (Done tt, set_maze self maze') /\
     shape rows cols maze' /\ get2 maze' w = Done 1 /\
     forall c', inb rows cols c' -> c' <> w ->
                get2 maze' c' = get2 (self_maze self) c') /\
  (~ (open_cell (self_maze self) w /\
      self_start self <> Some c /\ self_end self <> Some c) ->
   left_click event self = (Done tt, self)).
Proof.
  intros Hm Hrects Hr Hc. cbv zeta. unfold left_click.
  set (c := event_cell event) in *. clearbody c.
  set (w := wrapped rows cols c).
  pose proof (wrapped_inb rows cols c Hr Hc) as Hw. fold w in Hw.
  assert (Eg : forall A (m : list (list A)),
             shape rows cols m -> get2 m c = get2 m w).
  { intros A m Hs. now apply get2_wrapped. }
  assert (Es : set2 (self_maze self) c 1 = set2 (self_maze self) w 1).
  { now apply set2_wrapped. }
  clearbody w. destruct c as [row col].
  unfold bind, get_self, lift. rewrite (Eg _ _ Hm).
  destruct (get2_inb _ _ _ _ Hm Hw) as [v Hv]. rewrite Hv.
  destruct (set2_inb _ _ _ _ 1 Hm Hw) as (maze' & Hset & Hshape & Hget & Hoth).
  destruct (get2_inb _ _ _ _ Hrects Hw) as [id Hid].
  split.
  - intros (Ho & Hs & He). unfold open_cell in Ho.
    assert (v = 0) as -> by congruence.
    apply differs_true in Hs, He. rewrite Hs, He. simpl andb. cbv iota.
    rewrite Es, Hset. exists maze'. split; auto.
    unfold put_self, itemconfig_rect, bind, get_self, lift, set_maze.
    cbn [self_rects]. now rewrite (Eg _ _ Hrects), Hid.
  - intros Hno.
    destruct ((v =? 0) && differs (row, col) (self_start self)
              && differs (row, col) (self_end self)) eqn:Hb; [|reflexivity].
    destruct Hno. rewrite !andb_true_iff, Z.eqb_eq, !differs_true in Hb.
    destruct Hb as [[-> Hs] He]. repeat split; auto.
Qed.

Lemma marker_dec (t : option coord) (c : coord) : t = Some c \/ t <> Some c.
Proof.
  destruct t as [c'|]; [|right; discriminate].
  destruct (coord_eq_dec c' c) as [->|Hne]; [now left|right; congruence].
Qed.

Lemma click_takes_dec maze w (start end_ : option coord) c :
  (open_cell maze w /\ start <> Some c /\ end_ <> Some c) \/
  ~ (open_cell maze w /\ start <> Some c /\ end_ <> Some c).
Proof.
  unfold open_cell.
  destruct (get2 maze w) as [v| |]; try (right; intros [? _]; discriminate).
  destruct (Z.eq_dec v 0) as [->|Hv]; [|right; intros [[=] _]; contradiction].
  destruct (marker_dec start c); [right; tauto|].
  destruct (marker_dec end_ c); [right; tauto|]. now left.
Qed.

(** The state that [left_click] leaves, field by field, for a click in the
    index range: [w] is the cell the indices stand for. *)
Lemma left_click_fields self event rows cols :
  shape rows cols (self_maze self) -> shape rows cols (self_rects self) ->
  - rows <= fst (event_cell event) < rows ->
  - cols <= snd (event_cell event) < cols ->
  let c := event_cell event in
  let w := wrapped rows cols c in
  let self' := snd (left_click event self) in
  fst (left_click event self) = Done tt /\
  self_rects self' = self_rects self /\
  self_start self' = self_start self /\ self_end self' = self_end self /\
  shape rows cols (self_maze self') /\
  (forall c', inb rows cols c' -> c' <> w ->
     get2 (self_maze self') c' = get2 (self_maze self) c') /\
  (open_cell (self_maze self) w /\
   self_start self <> Some c /\ self_end self <> Some c ->
   get2 (self_maze self') w = Done 1) /\
  (~ (open_cell (self_maze self) w /\
      self_start self <> Some c /\ self_end self <> Some c) ->
   self' = self).
Proof.
  intros Hm Hr Hrow Hcol. cbv zeta.
  destruct (left_click_in_range self event rows cols Hm Hr Hrow Hcol)
    as [Hyes Hno]. cbv zeta in Hyes, Hno.
  destruct (click_takes_dec (self_maze self)
              (wrapped rows cols (event_cell event))
              (self_start self) (self_end self) (event_cell event)) as [Hd|Hd].
  - destruct (Hyes Hd) as (maze' & E & Hshape & Hget & Hoth). rewrite E.
    cbn [fst snd set_maze self_maze self_rects self_start self_end].
    split; auto. split; auto. split; auto. split; auto. split; auto.
    split; auto. split; auto. intros Hnot. contradiction.
  - rewrite (Hno Hd). cbn [fst snd].
    split; auto. split; auto. split; auto. split; auto. split; auto.
    split; auto. split; auto. intros Hyes'. contradiction.
Qed.

(** C7. On a click at an in-bounds cell [left_click] never raises, and in
    the state it leaves the clicked cell has gone from 0 to 1 exactly when
    it was open and is neither Start nor End; no other cell, nor the shape
    of the grid, nor [rects], Start or End change; and in every other case
    the state it leaves is the state it found. *)
Theorem left_click_blocks_iff self event rows cols :
  shape rows cols (self_maze self) -> shape rows cols (self_rects self) ->
  inb rows cols (event_cell event) ->
  let c := event_cell event in
  let self' := snd (left_click event self) in
  fst (left_click event self) = Done tt /\
  (get2 (self_maze self) c = Done 0 /\ get2 (self_maze self') c = Done 1 <->
   open_cell (self_maze self) c /\
   self_start self <> Some c /\ self_end self <> Some c) /\
  (forall c', inb rows cols c' -> c' <> c ->
     get2 (self_maze self') c' = get2 (self_maze self) c') /\
  shape rows cols (self_maze self') /\
  self_rects self' = self_rects self /\
  self_start self' = self_start self /\ self_end self' = self_end self /\
  (~ (open_cell (self_maze self) c /\
      self_start self <> Some c /\ self_end self <> Some c) ->
   self' = self).
Proof.
  intros Hm Hrects Hc. cbv zeta. pose proof Hc as [Hr Hk].
  destruct (left_click_fields self event rows cols Hm Hrects)
    as (H1 & H2 & H3 & H4 & H5 & H6 & H7 & H8); [lia|lia|].
  cbv zeta in *. rewrite (wrapped_id rows cols _ Hc) in *.
  split; auto. split; [|auto 10].
  split.
  - intros [Hold Hnew].
    destruct (click_takes_dec (self_maze self) (event_cell event)
                (self_start self) (self_end self) (event_cell event))
      as [Hd|Hd]; auto.
    rewrite (H8 Hd) in Hnew. congruence.
  - intros Hd. split; [apply Hd|now apply H7].
Qed.

Lemma left_click_blocks_iff_witness :
  let ev := {| ev_x := 40; ev_y := 75 |} in
  let self' := snd (left_click ev init) in
  fst (left_click ev init) = Done tt /\
  get2 (self_maze init) (2, 1) = Done 0 /\
  get2 (self_maze self') (2, 1) = Done 1 /\
  get2 (self_maze self') (2, 2) = get2 (self_maze init) (2, 2) /\
  self_start self' = None /\ self_end self' = None.
Proof.
  cbv zeta.
  destruct (left_click_blocks_iff init {| ev_x := 40; ev_y := 75 |} ROWS COLS)
    as (H1 & H2 & H3 & _ & _ & H6 & H7 & _).
  - solve_shape.
  - solve_shape.
  - change (inb ROWS COLS (2, 1)). solve_inb.
  - change (event_cell {| ev_x := 40; ev_y := 75 |}) with (2, 1) in *.
    destruct H2 as [_ H2].
    assert (Hfree : open_cell (self_maze init) (2, 1) /\
                    self_start init <> Some (2, 1) /\
                    self_end init <> Some (2, 1)).
    { split; [reflexivity|]. split; discriminate. }
    destruct (H2 Hfree) as [Hold Hnew].
    assert (Hin : inb ROWS COLS (2, 2)) by solve_inb.
    assert (Hne : (2, 2) <> (2, 1) :> coord) by discriminate.
    exact (conj H1 (conj Hold (conj Hnew (conj (H3 _ Hin Hne) (conj H6 H7))))).
Defined.

(** C8, as stated, fails: a click one pixel above the canvas has row [-1];
    it is not rejected, the index wraps around and the cell in the last
    row is blocked. *)
Lemma out_of_bounds_click_accepted :
  let ev := {| ev_x := 0; ev_y := -1 |} in
  event_cell ev = (-1, 0) /\
  fst (left_click ev init) = Done tt /\
  get2 (self_maze init) (14, 0) = Done 0 /\
  get2 (self_maze (snd (left_click ev init))) (14, 0) = Done 1.
Proof. repeat split. Qed.

(** Rows past the grid, as start or as end. *)
Example dijkstra_row_past_grid :
  dijkstra (self_maze init) (15, 0) (0, 0) = Raised IndexError /\
  dijkstra (self_maze init) (0, 0) (15, 0) = Raised IndexError.
Proof. split; vm_compute; reflexivity. Qed.

(** A negative start row is accepted by [dijkstra] too: it stands for the
    last row when the distance is seeded, and is a cell of its own, next
    to row 0, when its neighbours are computed. *)
Example dijkstra_negative_start :
  dijkstra detour_maze (-1, 0) (0, 0) = Done (Some [(-1, 0); (0, 0)]) /\
  dijkstra detour_maze (-1, 0) (2, 0) = Raised TypeError.
Proof. split; reflexivity. Qed.

(** ** The obstacle generator *)

(** [0, 1, ..., n - 1]. *)
Definition zrange (n : Z) : list Z := map Z.of_nat (seq 0 (Z.to_nat n)).

Definition all_cells (rows cols : Z) : list coord :=
  list_prod (zrange rows) (zrange cols).

(** The test of [generate_random_walls] on a drawn cell. *)
Definition eligibleb (self : App) (c : coord) : bool :=
  differs c (self_start self) && differs c (self_end self) &&
  match get2 (self_maze self) c with
  | Done cell => cell =? 0
  | _ => false
  end.

(** How many cells of the grid are open and neither Start nor End. *)
Definition eligible_count (rows cols : Z) (self : App) : nat :=
  length (List.filter (eligibleb self) (all_cells rows cols)).

Lemma zrange_In n i : In i (zrange n) <-> 0 <= i < n.
Proof.
  unfold zrange. rewrite in_map_iff. split.
  - intros (k & <- & Hk). apply in_seq in Hk. lia.
  - intros H. exists (Z.to_nat i). split; [lia|]. apply in_seq. lia.
Qed.

Lemma zrange_NoDup n : List.NoDup (zrange n).
Proof.
  unfold zrange. apply List.NoDup_map_NoDup_ForallPairs; [|apply seq_NoDup].
  intros a b _ _ H. lia.
Qed.

Lemma all_cells_In rows cols c : In c (all_cells rows cols) <-> inb rows cols c.
Proof.
  destruct c as [r k]. unfold all_cells, inb. simpl. split.
  - intros H. apply in_prod_iff in H as [H1 H2].
    apply zrange_In in H1, H2. lia.
  - intros [H1 H2]. apply in_prod_iff. split; now apply zrange_In.
Qed.

Lemma list_prod_NoDup {A B} (l : list A) (l' : list B) :
  List.NoDup l -> List.NoDup l' -> List.NoDup (list_prod l l').
Proof.
  intros Hl Hl'. induction Hl as [|a l Ha Hl IH]; simpl; [constructor|].
  apply List.NoDup_app; auto.
  - apply List.NoDup_map_NoDup_ForallPairs; auto. intros x y _ _ [=]. auto.
  - intros [x y] H1 H2. apply in_map_iff in H1 as (y' & [= <- <-] & _).
    apply in_prod_iff in H2 as [H2 _]. contradiction.
Qed.

Lemma all_cells_NoDup rows cols : List.NoDup (all_cells rows cols).
Proof. apply list_prod_NoDup; apply zrange_NoDup. Qed.

(** Turning one cell of a duplicate-free list from accepted to rejected
    takes one off the count. *)
Lemma filter_one_less (f g : coord -> bool) (c : coord) (l : list coord) :
  List.NoDup l -> In c l -> f c = true -> g c = false ->
  (forall x, In x l -> x <> c -> g x = f x) ->
  length (List.filter f l) = S (length (List.filter g l)).
Proof.
  intros Hnd Hin Hf Hg Hext. induction Hnd as [|x l Hx Hnd IH]; [destruct Hin|].
  simpl. destruct (coord_eq_dec x c) as [->|Hne].
  - rewrite Hf, Hg. simpl. f_equal. f_equal. apply filter_ext_in.
    intros y Hy. symmetry. apply Hext; [now right|]. intros ->. contradiction.
  - rewrite (Hext x (or_introl eq_refl) Hne).
    destruct Hin as [?|Hin]; [contradiction|].
    assert (Hext' : forall y, In y l -> y <> c -> g y = f y)
      by (intros y Hy; apply Hext; now right).
    destruct (f x); simpl; rewrite (IH Hin Hext'); reflexivity.
Qed.

(** Blocking an eligible cell leaves one eligible cell less. *)
Lemma eligible_count_blocked rows cols self maze' c :
  shape rows cols (self_maze self) -> inb rows cols c ->
  eligibleb self c = true ->
  set2 (self_maze self) c 1 = Done maze' ->
  eligible_count rows cols self = S (eligible_count rows cols (set_maze self maze')).
Proof.
  intros Hm Hc He Hset.
  destruct (set2_inb _ _ _ _ 1 Hm Hc) as (m & Hset' & _ & Hget & Hoth).
  rewrite Hset in Hset'. injection Hset' as <-.
  unfold eligible_count. apply filter_one_less with c; auto.
  - apply all_cells_NoDup.
  - now apply all_cells_In.
  - unfold eligibleb. cbn [set_maze self_maze self_start self_end].
    rewrite Hget. apply andb_false_r.
  - intros x Hx Hne. apply all_cells_In in Hx. unfold eligibleb.
    cbn [set_maze self_maze self_start self_end]. now rewrite Hoth.
Qed.

Lemma itemconfig_rect_inb rows cols self c :
  shape rows cols (self_rects self) -> inb rows cols c ->
  itemconfig_rect c self = (Done tt, self).
Proof.
  intros Hr Hc. unfold itemconfig_rect, bind, get_self, lift.
  destruct (get2_inb _ _ _ _ Hr Hc) as [v ->]. reflexivity.
Qed.

(** One draw: a wall on the drawn cell when it is eligible, nothing
    otherwise. *)
Lemma place_walls_step rows cols wall_count r c draws self placed :
  shape rows cols (self_maze self) -> shape rows cols (self_rects self) ->
  inb rows cols (r, c) -> (placed <? wall_count) = true ->
  exists maze', set2 (self_maze self) (r, c) 1 = Done maze' /\
    shape rows cols maze' /\
    place_walls ((r, c) :: draws) wall_count placed self =
    if eligibleb self (r, c)
    then place_walls draws wall_count (placed + 1) (set_maze self maze')
    else place_walls draws wall_count placed self.
Proof.
  intros Hm Hr Hc E.
  destruct (set2_inb _ _ _ _ 1 Hm Hc) as (maze' & Hset & Hshape & _).
  exists maze'. split; auto. split; auto.
  cbn [place_walls]. rewrite E. unfold eligibleb.
  unfold bind at 1. unfold get_self at 1.
  destruct (get2_inb _ _ _ _ Hm Hc) as [v Hv]. rewrite Hv.
  destruct (differs (r, c) (self_start self) && differs (r, c) (self_end self));
    [|reflexivity].
  unfold bind at 1. unfold lift at 1.
  cbn [andb]. destruct (v =? 0); [|reflexivity].
  unfold bind at 1. unfold lift at 1. rewrite Hset.
  unfold bind at 1. unfold put_self at 1. unfold bind at 1.
  now rewrite (itemconfig_rect_inb rows cols (set_maze self maze') (r, c)).
Qed.

(** With fewer eligible cells than walls still to place, the loop is still
    running after any number of draws. *)
Lemma place_walls_stuck rows cols wall_count draws : forall self placed,
  shape rows cols (self_maze self) -> shape rows cols (self_rects self) ->
  Forall (inb rows cols) draws ->
  Z.of_nat (eligible_count rows cols self) < wall_count - placed ->
  fst (place_walls draws wall_count placed self) = Unfinished.
Proof.
  induction draws as [|[r c] draws IH]; intros self placed Hm Hr Hd Hlt.
  - simpl. assert ((placed <? wall_count) = true) as -> by lia. reflexivity.
  - inversion Hd as [|? ? Hc Hd']; subst.
    assert (E : (placed <? wall_count) = true) by lia.
    destruct (place_walls_step rows cols wall_count r c draws self placed
                Hm Hr Hc E) as (maze' & Hset & Hshape & Estep).
    rewrite Estep. destruct (eligibleb self (r, c)) eqn:He; [|now apply IH].
    apply IH; auto.
    rewrite (eligible_count_blocked rows cols self maze' (r, c) Hm Hc He Hset)
      in Hlt.
    lia.
Qed.

(** When the loop does stop, it has blocked exactly the walls that were
    still to place, all of them on cells that were eligible, and has left
    Start and End alone. *)
Lemma place_walls_done rows cols wall_count draws : forall self placed,
  shape rows cols (self_maze self) -> shape rows cols (self_rects self) ->
  Forall (inb rows cols) draws -> placed <= wall_count ->
  fst (place_walls draws wall_count placed self) = Done tt ->
  let self' := snd (place_walls draws wall_count placed self) in
  Z.of_nat (eligible_count rows cols self)
  = Z.of_nat (eligible_count rows cols self') + (wall_count - placed) /\
  shape rows cols (self_maze self') /\
  self_start self' = self_start self /\ self_end self' = self_end self.
Proof.
  induction draws as [|[r c] draws IH]; intros self placed Hm Hr Hd Hle;
    cbv zeta.
  - simpl. destruct (placed <? wall_count) eqn:E; simpl; [discriminate|].
    intros _. split; [lia|]. split; auto.
  - inversion Hd as [|? ? Hc Hd']; subst.
    destruct (placed <? wall_count) eqn:E.
    2:{ cbn [place_walls]. rewrite E. simpl. intros _.
        split; [lia|]. split; auto. }
    destruct (place_walls_step rows cols wall_count r c draws self placed
                Hm Hr Hc E) as (maze' & Hset & Hshape & Estep).
    rewrite Estep.
    destruct (eligibleb self (r, c)) eqn:He; [|now apply IH].
    intros Hdone.
    destruct (IH (set_maze self maze') (placed + 1)) as (H1 & H2 & H3 & H4);
      auto; [lia|].
    rewrite (eligible_count_blocked rows cols self maze' (r, c) Hm Hc He Hset).
    split; [lia|]. split; auto.
Qed.

(** A state the handlers reach: every cell of the 15 x 15 grid has been
    left-clicked before any right click. *)
Definition click (c : coord) : Event :=
  {| ev_x := snd c * CELL_SIZE; ev_y := fst c * CELL_SIZE |}.

Definition click_every_cell (self : App) : App :=
  fold_left (fun s c => snd (left_click (click c) s)) (all_cells ROWS COLS) self.

Definition walled_in : App := click_every_cell init.

Lemma walled_in_state :
  walled_in = {| self_maze := matrix ROWS COLS 1; self_rects := rect_ids;
                 self_start := None; self_end := None |}.
Proof. vm_compute. reflexivity. Qed.

(** C4, on the code: when fewer cells are eligible (open, neither Start
    nor End) than [wall_count], [generate_random_walls] does not terminate:
    whatever cells the random draws give and however many of them, the loop
    is still running after the last one.  The claim asks it to block the
    eligible cells and stop. *)
Theorem generate_random_walls_never_returns rows cols self wall_count draws :
  shape rows cols (self_maze self) -> shape rows cols (self_rects self) ->
  Forall (inb rows cols) draws ->
  Z.of_nat (eligible_count rows cols self) < wall_count ->
  fst (generate_random_walls wall_count draws self) = Unfinished.
Proof.
  intros Hm Hr Hd Hlt. unfold generate_random_walls.
  apply (place_walls_stuck rows cols); auto. lia.
Qed.

Lemma generate_random_walls_never_returns_witness :
  let self := set_start walled_in (Some (0, 0)) in
  Z.of_nat (eligible_count ROWS COLS self) < default_wall_count /\
  fst (generate_random_walls default_wall_count [(3, 4); (0, 0); (14, 14)] self)
  = Unfinished.
Proof.
  split; [vm_compute; reflexivity|].
  apply (generate_random_walls_never_returns ROWS COLS
           (set_start walled_in (Some (0, 0))) default_wall_count
           [(3, 4); (0, 0); (14, 14)]).
  - rewrite walled_in_state. solve_shape.
  - rewrite walled_in_state. solve_shape.
  - repeat (constructor; [solve_inb|]). constructor.
  - vm_compute. reflexivity.
Defined.

Lemma get2_matrix_val {A} rows cols (v x : A) c :
  get2 (matrix rows cols v) c = Done x -> x = v.
Proof.
  unfold get2, matrix, py_get.
  destruct (norm_index _ (fst c)) as [n|]; [|discriminate].
  destruct (replicate (Z.to_nat rows) _ !! n) as [row|] eqn:El; [|discriminate].
  apply lookup_replicate in El as [-> _]. cbn [rbind].
  destruct (norm_index _ (snd c)) as [k|]; [|discriminate].
  destruct (replicate (Z.to_nat cols) v !! k) as [y|] eqn:El'; [|discriminate].
  apply lookup_replicate in El' as [-> _]. congruence.
Qed.

Lemma eligible_count_walled rows cols rects start end_ :
  eligible_count rows cols
    {| self_maze := matrix rows cols 1; self_rects := rects;
       self_start := start; self_end := end_ |} = 0%nat.
Proof.
  unfold eligible_count.
  rewrite (filter_ext_in _ (fun _ => false)).
  - induction (all_cells rows cols); auto.
  - intros c _. unfold eligibleb. cbn [self_maze].
    destruct (get2 (matrix rows cols 1) c) as [v| |] eqn:E;
      try apply andb_false_r.
    apply get2_matrix_val in E. subst v. apply andb_false_r.
Qed.

(** The same from the handlers: after a left click on every cell, the
    first right click never returns. *)
Lemma right_click_walled_in event draws :
  inb ROWS COLS (event_cell event) -> Forall (inb ROWS COLS) draws ->
  fst (right_click event draws walled_in) = Unfinished.
Proof.
  intros Hc Hd. rewrite walled_in_state. unfold right_click.
  destruct (event_cell event) as [row col].
  unfold bind at 1. unfold get_self at 1. cbn [self_start].
  unfold bind at 1. unfold put_self at 1. unfold bind at 1.
  erewrite (itemconfig_rect_inb ROWS COLS); [|solve_shape|exact Hc].
  apply (place_walls_stuck ROWS COLS); auto; try solve_shape.
  unfold set_start. cbn [self_maze self_rects self_end].
  rewrite eligible_count_walled. unfold default_wall_count. lia.
Qed.

(** ** The store: what the call reads and writes *)

Definition rmap {A B} (f : A -> B) (r : result A) : result B :=
  match r with
  | Done a => Done (f a)
  | Raised e => Raised e
  | Unfinished => Unfinished
  end.

(** How [dist] and [prev] hold their values as items. *)
Definition enc_d (v : dval) : val :=
  match v with Inf => VInf | Fin n => VInt n end.

Definition enc_p (p : option coord) : val :=
  match p with None => VNone | Some c => VTuple c end.

(** Every object of [h0] is still there, unchanged. *)
Definition kept (h0 h : heap) : Prop :=
  forall l o, h0 !! l = Some o -> h !! l = Some o.

Lemma kept_refl h : kept h h.
Proof. intros l o H. exact H. Qed.

Lemma kept_trans h0 h1 h2 : kept h0 h1 -> kept h1 h2 -> kept h0 h2.
Proof. intros H1 H2 l o H. apply H2, H1, H. Qed.

Lemma kept_app h o : kept h (h ++ o).
Proof. intros l x H. now apply lookup_app_l_Some. Qed.

Lemma map_lookup {A B} (f : A -> B) (l : list A) (i : nat) :
  map f l !! i = option_map f (l !! i).
Proof.
  revert i. induction l as [|a l IH]; intros [|i]; simpl; auto.
Qed.

Lemma map_insert {A B} (f : A -> B) (l : list A) (i : nat) (x : A) :
  <[i := f x]> (map f l) = map f (<[i := x]> l).
Proof.
  revert i. induction l as [|a l IH]; intros [|i]; simpl; auto.
  f_equal. apply IH.
Qed.

Lemma py_get_map {A B} (f : A -> B) (l : list A) (i : Z) :
  py_get (map f l) i = rmap f (py_get l i).
Proof.
  unfold py_get. rewrite length_map.
  destruct (norm_index _ i) as [k|]; auto.
  rewrite map_lookup. destruct (l !! k); reflexivity.
Qed.

Lemma py_set_map {A B} (f : A -> B) (l : list A) (i : Z) (x : A) :
  py_set (map f l) i (f x) = rmap (map f) (py_set l i x).
Proof.
  unfold py_set. rewrite length_map.
  destruct (norm_index _ i) as [k|]; auto. simpl. now rewrite map_insert.
Qed.

Lemma as_items_map (pq : list entry) : as_items (map VItem pq) = Done pq.
Proof. induction pq as [|e pq IH]; simpl; auto. now rewrite IH. Qed.

Lemma val_lt_enc n v : val_lt n (enc_d v) = Done (lt_dval n v).
Proof. destruct v; reflexivity. Qed.

Lemma val_is_inf_enc v : val_is_inf (enc_d v) = is_inf v.
Proof. destruct v; reflexivity. Qed.

(** Reading a cell of a list of lists in the store. *)
Lemma getitem2_matrix_at {A} (enc : A -> val) h m (M : list (list A)) c :
  matrix_at enc h m M -> getitem2 m c h = (rmap enc (get2 M c), h).
Proof.
  intros (refs & Hm & HF). unfold getitem2, getitem, bind, load, lift, get2.
  rewrite Hm, py_get_map. unfold py_get at 1 3.
  rewrite (Forall2_length _ _ _ HF).
  destruct (norm_index _ (fst c)) as [k|]; [|reflexivity].
  destruct (refs !! k) as [r|] eqn:Er.
  - destruct (Forall2_lookup_l _ _ _ _ _ HF Er) as (row & Erow & Hr).
    rewrite Erow. simpl. rewrite Hr. now rewrite py_get_map.
  - destruct (M !! k) as [row|] eqn:Erow; [|reflexivity].
    destruct (Forall2_lookup_r _ _ _ _ _ HF Erow) as (r & Er' & _). congruence.
Qed.

Lemma matrix_at_kept {A} (enc : A -> val) h h' m (M : list (list A)) :
  matrix_at enc h m M -> kept h h' -> matrix_at enc h' m M.
Proof.
  intros (refs & Hm & HF) Hk. exists refs. split; [now apply Hk|].
  eapply Forall2_impl; [exact HF|]. intros r row Hr. now apply Hk.
Qed.

(** A matrix the call has created: [R] row objects from address [base]
    on, then the list of their addresses. *)
Definition mat {A} (enc : A -> val) (h : heap) (base R : nat)
    (M : list (list A)) : Prop :=
  length M = R /\
  h !! (base + R)%nat = Some (map VRef (seq base R)) /\
  forall i row, M !! i = Some row -> h !! (base + i)%nat = Some (map enc row).

Lemma mat_matrix_at {A} (enc : A -> val) h base R (M : list (list A)) :
  mat enc h base R M -> matrix_at enc h (base + R)%nat M.
Proof.
  intros (Hlen & Hout & Hrows). exists (seq base R). split; auto.
  apply Forall2_same_length_lookup_2.
  - now rewrite length_seq.
  - intros i r row Hr Hrow. apply lookup_seq in Hr as [-> _]. now apply Hrows.
Qed.

Lemma mat_kept {A} (enc : A -> val) h h' base R (M : list (list A)) :
  mat enc h base R M ->
  (forall l, (base <= l <= base + R)%nat -> h' !! l = h !! l) ->
  mat enc h' base R M.
Proof.
  intros (Hlen & Hout & Hrows) Hsame. split; auto. split.
  - rewrite Hsame by lia. exact Hout.
  - intros i row Hrow. pose proof (lookup_lt_Some _ _ _ Hrow).
    rewrite Hsame by lia. now apply Hrows.
Qed.

(** Writing a cell of such a matrix touches one of its row objects. *)
Lemma setitem2_mat_run {A} (enc : A -> val) h base R (M : list (list A)) c x :
  mat enc h base R M ->
  setitem2 (base + R)%nat c (enc x) h =
  match set2 M c x, norm_index (len M) (fst c) with
  | Done M', Some k =>
      (Done tt, <[(base + k)%nat := map enc (default [] (M' !! k))]> h)
  | Done M', None => (Done tt, h)
  | Raised e, _ => (Raised e, h)
  | Unfinished, _ => (Unfinished, h)
  end.
Proof.
  intros (Hlen & Hout & Hrows).
  unfold setitem2, getitem, bind, load, lift, set2. rewrite Hout.
  rewrite py_get_map. unfold py_get at 1 2. rewrite length_seq.
  unfold len. rewrite Hlen.
  destruct (norm_index _ (fst c)) as [k|] eqn:Ek; [|reflexivity].
  destruct (M !! k) as [row|] eqn:Erow.
  2:{ apply lookup_ge_None in Erow.
      rewrite (proj2 (lookup_ge_None (seq base R) k))
        by (rewrite length_seq; lia).
      reflexivity. }
  pose proof (lookup_lt_Some _ _ _ Erow) as Hk.
  rewrite (proj2 (lookup_seq base R k (base + k)%nat)) by (split; auto; lia).
  cbn [rmap rbind as_ref]. unfold setitem, bind, load, lift.
  rewrite (Hrows k row Erow). rewrite py_set_map.
  destruct (py_set row (snd c) x) as [row'| |] eqn:Eset; cbn [rmap rbind];
    try reflexivity.
  unfold store, py_set. rewrite Hlen, Ek.
  rewrite list_lookup_insert_eq by lia. reflexivity.
Qed.

Lemma setitem2_mat {A} (enc : A -> val) h base R (M : list (list A)) c x :
  mat enc h base R M ->
  exists h', setitem2 (base + R)%nat c (enc x) h
             = (rmap (fun _ => tt) (set2 M c x), h') /\
    length h' = length h /\
    (forall l, ~ (base <= l < base + R)%nat -> h' !! l = h !! l) /\
    (forall M', set2 M c x = Done M' -> mat enc h' base R M').
Proof.
  intros HM. rewrite (setitem2_mat_run enc h base R M c x HM).
  destruct HM as (Hlen & Hout & Hrows).
  destruct (set2 M c x) as [M'| |] eqn:Eset.
  2,3: exists h; split; auto; split; auto; split; auto; discriminate.
  unfold set2 in Eset. unfold py_get at 1 in Eset. unfold py_set at 2 in Eset.
  unfold len in *.
  destruct (norm_index _ (fst c)) as [k|] eqn:Ek; [|discriminate].
  destruct (M !! k) as [row|] eqn:Erow; [|discriminate].
  cbn [rbind] in Eset.
  destruct (py_set row (snd c) x) as [row'| |]; try discriminate.
  cbn [rbind] in Eset. injection Eset as <-.
  pose proof (lookup_lt_Some _ _ _ Erow) as Hk.
  rewrite list_lookup_insert_eq by lia. cbn [default].
  exists (<[(base + k)%nat := map enc row']> h).
  split; auto. split; [apply length_insert|]. split.
  - intros l Hl. apply list_lookup_insert_ne. lia.
  - intros M' [= <-]. split; [now rewrite length_insert|]. split.
    + rewrite list_lookup_insert_ne by lia. exact Hout.
    + intros i r Hi. destruct (decide (i = k)) as [->|Hne].
      * rewrite list_lookup_insert_eq in Hi by lia. injection Hi as <-.
        apply list_lookup_insert_eq.
        apply lookup_lt_Some in Hout. lia.
      * rewrite list_lookup_insert_ne in Hi by auto.
        rewrite list_lookup_insert_ne by lia. now apply Hrows.
Qed.

(** Creating a matrix appends its objects to the store. *)
Lemma alloc_rows_spec n cols v : forall h,
  alloc_rows n cols v h
  = (Done (map VRef (seq (length h) n)),
     h ++ replicate n (replicate (Z.to_nat cols) v)).
Proof.
  induction n as [|n IH]; intros h; simpl.
  - unfold ret. now rewrite app_nil_r.
  - unfold bind, alloc. rewrite IH. unfold ret. rewrite length_app. simpl.
    rewrite <- app_assoc. simpl. repeat f_equal. lia.
Qed.

Lemma new_matrix_spec rows cols v h :
  new_matrix rows cols v h
  = (Done (length h + Z.to_nat rows)%nat,
     h ++ replicate (Z.to_nat rows) (replicate (Z.to_nat cols) v)
       ++ [map VRef (seq (length h) (Z.to_nat rows))]).
Proof.
  unfold new_matrix, bind. rewrite alloc_rows_spec. unfold alloc.
  rewrite length_app, length_replicate, <- app_assoc. reflexivity.
Qed.

Lemma mat_new {A} (enc : A -> val) h rows cols (x : A) :
  mat enc
    (h ++ replicate (Z.to_nat rows) (replicate (Z.to_nat cols) (enc x))
       ++ [map VRef (seq (length h) (Z.to_nat rows))])
    (length h) (Z.to_nat rows) (matrix rows cols x).
Proof.
  unfold mat, matrix. rewrite length_replicate. split; auto. split.
  - rewrite lookup_app_r by lia. rewrite lookup_app_r
      by (rewrite length_replicate; lia).
    rewrite length_replicate.
    replace (length h + Z.to_nat rows - length h - Z.to_nat rows)%nat
      with 0%nat by lia. reflexivity.
  - intros i row Hi. apply lookup_replicate in Hi as [-> Hi].
    rewrite lookup_app_r by lia. rewrite lookup_app_l
      by (rewrite length_replicate; lia).
    replace (length h + i - length h)%nat with i by lia.
    rewrite lookup_replicate_2 by lia. f_equal.
    induction (Z.to_nat cols); simpl; congruence.
Qed.

(** ** The store run follows the functional run *)

(** [out], the outcome of a run on the store, follows the functional
    outcome [pure]: the same exception or exhaustion, or values related by
    [rel]; and whatever the outcome, the objects of [h0] are kept. *)
Definition refines {A B} (h0 : heap) (pure : result A)
    (rel : A -> B -> heap -> Prop) (out : result B * heap) : Prop :=
  kept h0 (snd out) /\
  match pure with
  | Done a => exists b, fst out = Done b /\ rel a b (snd out)
  | Raised e => fst out = Raised e
  | Unfinished => fst out = Unfinished
  end.

Lemma refines_bind {A B A' B'} h0 (pure : result A) (k : A -> result A')
    (rel : A -> B -> heap -> Prop) (rel' : A' -> B' -> heap -> Prop)
    (m : HM B) (k' : B -> HM B') h :
  refines h0 pure rel (m h) ->
  (forall a b h1, rel a b h1 -> refines h0 (k a) rel' (k' b h1)) ->
  refines h0 (rbind pure k) rel' (bind m k' h).
Proof.
  unfold refines, bind. destruct (m h) as [r h1]. simpl.
  intros [Hk Hr] Hcont. destruct pure as [a|e|]; simpl.
  - destruct Hr as (b & -> & Hrel). exact (Hcont a b h1 Hrel).
  - subst r. auto.
  - subst r. auto.
Qed.

Lemma refines_read {A} h0 (pure : result A) (f : A -> val) (m : HM val) h :
  kept h0 h -> m h = (rmap f pure, h) ->
  refines h0 pure (fun a b h1 => b = f a /\ h1 = h) (m h).
Proof.
  intros Hk ->. split; auto. destruct pure; simpl; eauto.
Qed.

Lemma refines_weaken {A B} h0 (pure : result A)
    (rel rel' : A -> B -> heap -> Prop) out :
  refines h0 pure rel out -> (forall a b h, rel a b h -> rel' a b h) ->
  refines h0 pure rel' out.
Proof.
  intros [Hk Hr] Himp. split; auto. destruct pure; auto.
  destruct Hr as (b & E & Hrel). eauto.
Qed.

Lemma bind_lift_Done {S A B} (a : A) (k : A -> state_exn S B) (s : S) :
  bind (lift (Done a)) k s = k a s.
Proof. reflexivity. Qed.

Lemma refines_Done {A B} h0 (a : A) (b : B) (rel : A -> B -> heap -> Prop) h :
  kept h0 h -> rel a b h -> refines h0 (Done a) rel (Done b, h).
Proof. intros Hk Hr. split; auto. exists b. auto. Qed.

Section Simulation.
Variables (h0 : heap) (m : loc) (maze : list (list Z)) (R : nat).
Hypothesis Hgrid : grid_at h0 m maze.

Local Abbreviation n0 := (length h0).
Local Abbreviation dloc := (n0 + R)%nat.
Local Abbreviation pbase := (n0 + R + 1)%nat.
Local Abbreviation ploc := (n0 + R + 1 + R)%nat.
Local Abbreviation qloc := (n0 + R + 1 + R + 1)%nat.

(** The store holds the tables of the functional run in the objects the
    call has created, after the objects of [h0]. *)
Definition Sim3 (dist : list (list dval)) (prev : list (list (option coord)))
    (pq : list entry) (h : heap) : Prop :=
  kept h0 h /\ (qloc < length h)%nat /\
  mat enc_d h n0 R dist /\ mat enc_p h pbase R prev /\
  h !! qloc = Some (map VItem pq).

Definition Sim (s : search_state) (h : heap) : Prop :=
  Sim3 (st_dist s) (st_prev s) (st_pq s) h.

Lemma kept_below h h' :
  kept h0 h -> (forall l, (l < n0)%nat -> h' !! l = h !! l) -> kept h0 h'.
Proof.
  intros Hk Hsame l o Hl. rewrite Hsame by (eapply lookup_lt_Some; eauto).
  now apply Hk.
Qed.

Lemma sim_get_maze dist prev pq h c :
  Sim3 dist prev pq h ->
  refines h0 (get2 maze c) (fun a b h1 => b = VInt a /\ h1 = h)
    (getitem2 m c h).
Proof.
  intros (Hk & _). apply refines_read; auto.
  apply getitem2_matrix_at. eapply matrix_at_kept; eauto.
Qed.

Lemma sim_get_dist dist prev pq h c :
  Sim3 dist prev pq h ->
  refines h0 (get2 dist c) (fun a b h1 => b = enc_d a /\ h1 = h)
    (getitem2 dloc c h).
Proof.
  intros (Hk & _ & Hd & _). apply refines_read; auto.
  apply getitem2_matrix_at. now apply mat_matrix_at.
Qed.

Lemma sim_get_prev dist prev pq h c :
  Sim3 dist prev pq h ->
  refines h0 (get2 prev c) (fun a b h1 => b = enc_p a /\ h1 = h)
    (getitem2 ploc c h).
Proof.
  intros (Hk & _ & _ & Hp & _). apply refines_read; auto.
  apply getitem2_matrix_at. now apply mat_matrix_at.
Qed.

Lemma sim_set_dist dist prev pq h c x :
  Sim3 dist prev pq h ->
  refines h0 (set2 dist c x) (fun dist' (_ : unit) h1 => Sim3 dist' prev pq h1)
    (setitem2 dloc c (enc_d x) h).
Proof.
  intros (Hk & Hlen & Hd & Hp & Hq).
  destruct (setitem2_mat enc_d h n0 R dist c x Hd)
    as (h' & -> & Hlen' & Hsame & Hmat).
  assert (Hk' : kept h0 h') by (apply (kept_below h); auto; intros; apply Hsame; lia).
  split; auto. simpl. destruct (set2 dist c x) as [dist'| |]; simpl; auto.
  exists tt. split; auto. split; auto. split; [lia|]. split; auto. split.
  - eapply mat_kept; eauto. intros; apply Hsame; lia.
  - rewrite Hsame by lia. exact Hq.
Qed.

Lemma sim_set_prev dist prev pq h c x :
  Sim3 dist prev pq h ->
  refines h0 (set2 prev c x) (fun prev' (_ : unit) h1 => Sim3 dist prev' pq h1)
    (setitem2 ploc c (enc_p x) h).
Proof.
  intros (Hk & Hlen & Hd & Hp & Hq).
  destruct (setitem2_mat enc_p h pbase R prev c x Hp)
    as (h' & -> & Hlen' & Hsame & Hmat).
  assert (Hk' : kept h0 h') by (apply (kept_below h); auto; intros; apply Hsame; lia).
  split; auto. simpl. destruct (set2 prev c x) as [prev'| |]; simpl; auto.
  exists tt. split; auto. split; auto. split; [lia|]. split; [|split; auto].
  - eapply mat_kept; eauto. intros; apply Hsame; lia.
  - rewrite Hsame by lia. exact Hq.
Qed.

Lemma sim_store dist prev pq pq' h :
  Sim3 dist prev pq h -> Sim3 dist prev pq' (<[qloc := map VItem pq']> h).
Proof.
  intros (Hk & Hlen & Hd & Hp & Hq). split; [|split; [|split; [|split]]].
  - apply (kept_below h); auto. intros. apply list_lookup_insert_ne; lia.
  - now rewrite length_insert.
  - eapply mat_kept; eauto. intros. apply list_lookup_insert_ne; lia.
  - eapply mat_kept; eauto. intros. apply list_lookup_insert_ne; lia.
  - now apply list_lookup_insert_eq.
Qed.

Lemma sim_push dist prev pq h e :
  Sim3 dist prev pq h ->
  refines h0
    (Done {| st_dist := dist; st_prev := prev; st_pq := heappush pq e |})
    (fun s' (_ : unit) h1 => Sim s' h1) (heappush_at qloc e h).
Proof.
  intros HS. pose proof HS as (Hk & Hlen & Hd & Hp & Hq).
  unfold heappush_at, bind, load, lift. rewrite Hq, as_items_map.
  unfold store. pose proof (sim_store dist prev pq (heappush pq e) h HS) as HS'.
  apply refines_Done; [apply HS'|exact HS'].
Qed.

(** One direction of the [for] loop. *)
Lemma relax_sim rows cols d u dir s h :
  Sim s h ->
  refines h0 (relax maze rows cols d u s dir) (fun s' (_ : unit) h1 => Sim s' h1)
    (relax_at m dloc ploc qloc rows cols d u dir h).
Proof.
  intros HS. pose proof HS as (Hk & _). unfold relax, relax_at.
  destruct ((0 <=? fst u + fst dir) && (fst u + fst dir <? rows)
            && (0 <=? snd u + snd dir) && (snd u + snd dir <? cols)) eqn:Hb;
    cbn [fst snd]; rewrite Hb; [|now apply refines_Done].
  eapply refines_bind; [eapply sim_get_maze; exact HS|].
  intros cell b h1 [-> ->]. cbn [val_is_zero].
  destruct (cell =? 0); [|now apply refines_Done].
  eapply refines_bind; [eapply sim_get_dist; exact HS|].
  intros old b h1 [-> ->]. rewrite val_lt_enc, bind_lift_Done.
  destruct (lt_dval (d + 1) old); [|now apply refines_Done].
  eapply refines_bind;
    [exact (sim_set_dist (st_dist s) (st_prev s) (st_pq s) h _ (Fin (d + 1)) HS)|].
  intros dist' [] h1 HS1.
  eapply refines_bind;
    [exact (sim_set_prev dist' (st_prev s) (st_pq s) h1 _ (Some u) HS1)|].
  intros prev' [] h2 HS2. now apply sim_push.
Qed.

Lemma relax_all_sim rows cols d u dirs : forall s h,
  Sim s h ->
  refines h0 (relax_all maze rows cols d u s dirs)
    (fun s' (_ : unit) h1 => Sim s' h1)
    (relax_all_at m dloc ploc qloc rows cols d u dirs h).
Proof.
  induction dirs as [|dir dirs IH]; intros s h HS; simpl.
  - apply refines_Done; auto. apply HS.
  - eapply refines_bind; [now apply relax_sim|].
    intros s' [] h1 HS1. now apply IH.
Qed.

(** The search loop. *)
Lemma search_sim rows cols end_ fuel : forall s h,
  Sim s h ->
  refines h0 (search fuel maze rows cols end_ s)
    (fun s' (_ : unit) h1 => Sim s' h1)
    (search_at fuel m dloc ploc qloc rows cols end_ h).
Proof.
  induction fuel as [|fuel IH]; intros s h HS.
  - split; [apply HS|reflexivity].
  - pose proof HS as (Hk & Hlen & Hd & Hp & Hq).
    cbn [search search_at]. unfold bind at 1. unfold load at 1. rewrite Hq.
    unfold bind at 1. unfold lift at 1. rewrite as_items_map.
    destruct (st_pq s) as [|[d u] pq'] eqn:E; cbn [heappop].
    + apply refines_Done; auto.
    + unfold bind at 1. unfold store at 1.
      pose proof (sim_store _ _ _ pq' h HS) as HS1.
      destruct (coord_eqb u end_).
      * apply refines_Done; [apply HS1|exact HS1].
      * eapply refines_bind; [apply relax_all_sim; exact HS1|].
        intros s2 [] h2 HS2. now apply IH.
Qed.

(** The tables, and the list [path] at an address after them. *)
Definition PSim (s : search_state) (pl : loc) (path : list coord) (h : heap)
  : Prop :=
  Sim s h /\ (qloc < pl)%nat /\ h !! pl = Some (map VTuple path).

Lemma sim_other dist prev pq h l o :
  Sim3 dist prev pq h -> (qloc < l)%nat -> Sim3 dist prev pq (<[l := o]> h).
Proof.
  intros (Hk & Hlen & Hd & Hp & Hq) Hl. split; [|split; [|split; [|split]]].
  - apply (kept_below h); auto. intros. apply list_lookup_insert_ne; lia.
  - now rewrite length_insert.
  - eapply mat_kept; eauto. intros. apply list_lookup_insert_ne; lia.
  - eapply mat_kept; eauto. intros. apply list_lookup_insert_ne; lia.
  - rewrite list_lookup_insert_ne by lia. exact Hq.
Qed.

Lemma sim_app dist prev pq h o :
  Sim3 dist prev pq h -> Sim3 dist prev pq (h ++ o).
Proof.
  intros (Hk & Hlen & Hd & Hp & Hq). split; [|split; [|split; [|split]]].
  - eapply kept_trans; [exact Hk|apply kept_app].
  - rewrite length_app. lia.
  - eapply mat_kept; eauto. intros. apply lookup_app_l. lia.
  - eapply mat_kept; eauto. intros. apply lookup_app_l. lia.
  - rewrite lookup_app_l by lia. exact Hq.
Qed.

Lemma psim_store s pl path path' h :
  PSim s pl path h -> PSim s pl path' (<[pl := map VTuple path']> h).
Proof.
  intros (HS & Hpl & Hpath). split; [now apply sim_other|]. split; auto.
  apply list_lookup_insert_eq. eapply lookup_lt_Some; eauto.
Qed.

(** The walk back along [prev]. *)
Lemma walk_back_sim s pl start fuel : forall c path h,
  PSim s pl path h ->
  refines h0 (walk_back fuel (st_prev s) start c path)
    (fun path' (_ : unit) h1 => PSim s pl path' h1)
    (walk_back_at fuel ploc pl start c h).
Proof.
  induction fuel as [|fuel IH]; intros c path h HP.
  - split; [apply HP|reflexivity].
  - cbn [walk_back walk_back_at]. destruct (coord_eqb c start).
    + apply refines_Done; [apply HP|exact HP].
    + pose proof HP as (HS & Hpl & Hpath).
      unfold bind at 1. unfold append_at, bind, load, store. rewrite Hpath.
      pose proof (psim_store s pl path (path ++ [c]) h HP) as HP1.
      rewrite map_app in HP1. cbn [map] in HP1.
      set (h1 := <[pl := map VTuple path ++ [VTuple c]]> h) in *.
      fold (bind (getitem2 ploc c)
              (fun p => match p with
                        | VTuple c' => walk_back_at fuel ploc pl start c'
                        | _ => lift (Raised TypeError)
                        end) h1).
      eapply refines_bind; [eapply sim_get_prev; apply HP1|].
      intros p b h2 [-> ->]. destruct p as [c'|]; cbn [enc_p].
      * apply IH. exact HP1.
      * split; [apply HP1|reflexivity].
Qed.
End Simulation.

Lemma rbind_assoc {A B C} (r : result A) (f : A -> result B) (g : B -> result C) :
  rbind (rbind r f) g = rbind r (fun a => rbind (f a) g).
Proof. destruct r; reflexivity. Qed.

Lemma bind_Done {S A B} (m : state_exn S A) (k : A -> state_exn S B) s a s' :
  m s = (Done a, s') -> bind m k s = k a s'.
Proof. unfold bind. now intros ->. Qed.

Lemma len_at_eq h l o : h !! l = Some o -> len_at l h = (Done (len o), h).
Proof. intros H. unfold len_at, bind, load, ret. now rewrite H. Qed.

Lemma getitem_eq h l o i : h !! l = Some o -> getitem l i h = (py_get o i, h).
Proof. intros H. unfold getitem, bind, load, lift. rewrite H. now destruct (py_get o i). Qed.

Lemma append_at_eq h l o v :
  h !! l = Some o -> append_at l v h = (Done tt, <[l := o ++ [v]]> h).
Proof. intros H. unfold append_at, bind, load, store. now rewrite H. Qed.

Lemma reverse_at_eq h l o :
  h !! l = Some o -> reverse_at l h = (Done tt, <[l := rev o]> h).
Proof. intros H. unfold reverse_at, bind, load, store. now rewrite H. Qed.

(** What the call answers: nothing, or the address of a new list that
    holds the path. *)
Definition answers (h0 : heap) (r : option (list coord)) (r' : option loc)
    (h : heap) : Prop :=
  match r, r' with
  | None, None => True
  | Some p, Some pl => (length h0 <= pl)%nat /\ h !! pl = Some (map VTuple p)
  | _, _ => False
  end.

(** From the creation of [dist] on. *)
Lemma dijkstra_at_body h0 m maze rows cols start end_ :
  grid_at h0 m maze ->
  refines h0
    (let! dist := set2 (matrix rows cols Inf) start (Fin 0) in
     let! s := search (loop_bound rows cols) maze rows cols end_
                 {| st_dist := dist; st_prev := matrix rows cols None;
                    st_pq := [(0, start)] |} in
     let! dend := get2 (st_dist s) end_ in
     if is_inf dend then Done None
     else
       let! path := walk_back (loop_bound rows cols) (st_prev s) start end_ [] in
       Done (Some (rev (path ++ [start]))))
    (answers h0)
    ((do! dist := new_matrix rows cols VInf in
      run! setitem2 dist start (VInt 0) in
      do! prev := new_matrix rows cols VNone in
      do! pq := alloc [VItem (0, start)] in
      run! search_at (loop_bound rows cols) m dist prev pq rows cols end_ in
      do! path := alloc [] in
      do! dend := getitem2 dist end_ in
      if val_is_inf dend then ret None
      else
        run! walk_back_at (loop_bound rows cols) prev path start end_ in
        run! append_at path (VTuple start) in
        run! reverse_at path in
        ret (Some path)) h0).
Proof.
  intros Hgrid. set (R := Z.to_nat rows).
  rewrite (bind_Done _ _ _ _ _ (new_matrix_spec rows cols VInf h0)). fold R.
  set (h1 := h0 ++ replicate R (replicate (Z.to_nat cols) VInf)
                ++ [map VRef (seq (length h0) R)]).
  assert (Hk1 : kept h0 h1) by apply kept_app.
  assert (Hlen1 : length h1 = (length h0 + R + 1)%nat).
  { unfold h1. rewrite !length_app, length_replicate. simpl. lia. }
  pose proof (mat_new enc_d h0 rows cols Inf) as Hmat1.
  change (enc_d Inf) with VInf in Hmat1. fold R in Hmat1. fold h1 in Hmat1.
  destruct (setitem2_mat enc_d h1 (length h0) R _ start (Fin 0) Hmat1)
    as (h2 & E2 & Hlen2 & Hsame2 & Hmat2).
  change (enc_d (Fin 0)) with (VInt 0) in E2.
  assert (Hk2 : kept h0 h2).
  { intros l o Hl. rewrite Hsame2 by (apply lookup_lt_Some in Hl; lia).
    now apply Hk1. }
  destruct (set2 (matrix rows cols Inf) start (Fin 0)) as [dist1|e|] eqn:Eset;
    cbn [rmap] in E2.
  2:{ unfold bind at 1. rewrite E2. split; auto. reflexivity. }
  2:{ unfold bind at 1. rewrite E2. split; auto. reflexivity. }
  rewrite (bind_Done _ _ _ _ _ E2). specialize (Hmat2 dist1 eq_refl).
  rewrite (bind_Done _ _ _ _ _ (new_matrix_spec rows cols VNone h2)). fold R.
  set (h3 := h2 ++ replicate R (replicate (Z.to_nat cols) VNone)
                ++ [map VRef (seq (length h2) R)]).
  assert (Hlen3 : length h3 = (length h2 + R + 1)%nat).
  { unfold h3. rewrite !length_app, length_replicate. simpl. lia. }
  pose proof (mat_new enc_p h2 rows cols None) as Hmat3.
  change (enc_p None) with VNone in Hmat3. fold R in Hmat3. fold h3 in Hmat3.
  rewrite Hlen2, Hlen1 in Hmat3. rewrite Hlen2, Hlen1 in Hlen3.
  rewrite Hlen2, Hlen1. cbn [rbind].
  unfold bind at 1. unfold alloc at 1. rewrite Hlen3.
  set (h4 := h3 ++ [[VItem (0, start)]]).
  assert (HS : Sim3 h0 R dist1 (matrix rows cols None) [(0, start)] h4).
  { split; [|split; [|split; [|split]]].
    - unfold h4, h3. eapply kept_trans; [exact Hk2|].
      eapply kept_trans; apply kept_app.
    - unfold h4. rewrite length_app, Hlen3. simpl. lia.
    - eapply mat_kept; [exact Hmat2|]. intros l Hl. unfold h4, h3.
      rewrite !lookup_app_l; auto; rewrite ?length_app; lia.
    - eapply mat_kept; [exact Hmat3|]. intros l Hl. unfold h4.
      rewrite lookup_app_l; auto. lia.
    - unfold h4. rewrite lookup_app_r by lia. rewrite Hlen3.
      now rewrite Nat.sub_diag. }
  eapply refines_bind.
  { apply (search_sim h0 m maze R Hgrid rows cols end_ _
             {| st_dist := dist1; st_prev := matrix rows cols None;
                st_pq := [(0, start)] |} h4 HS). }
  intros s [] h5 HS5. unfold bind at 1. unfold alloc at 1.
  assert (HP : PSim h0 R s (length h5) [] (h5 ++ [[]])).
  { split; [now apply sim_app|]. split; [apply HS5|].
    rewrite lookup_app_r by lia. now rewrite Nat.sub_diag. }
  eapply refines_bind.
  { apply (sim_get_dist h0 R (st_dist s) (st_prev s) (st_pq s)). apply HP. }
  intros dend b h6 [-> ->]. rewrite val_is_inf_enc.
  destruct (is_inf dend).
  { apply refines_Done; [apply HP|exact I]. }
  eapply refines_bind.
  { apply (walk_back_sim h0 R s (length h5) start _ end_ [] _ HP). }
  intros path [] h7 HP7. pose proof HP7 as (HS7 & Hpl & Hpath).
  pose proof (lookup_lt_Some _ _ _ Hpath) as Hlt.
  rewrite (bind_Done _ _ _ _ _ (append_at_eq _ _ _ (VTuple start) Hpath)).
  rewrite (bind_Done _ _ _ _ _
             (reverse_at_eq _ _ _ (list_lookup_insert_eq _ _ _ Hlt))).
  rewrite list_insert_insert_eq. unfold ret.
  apply refines_Done.
  - apply (psim_store h0 R s (length h5) path (rev (path ++ [start])) h7) in HP7.
    rewrite map_rev, map_app in HP7. apply HP7.
  - split; [lia|]. rewrite list_lookup_insert_eq by (eapply lookup_lt_Some; eauto).
    now rewrite map_rev, map_app.
Qed.

Lemma len_map {A B} (f : A -> B) (l : list A) : len (map f l) = len l.
Proof. unfold len. now rewrite length_map. Qed.

(** The run on the store follows the functional [dijkstra], and keeps
    every object that was in the store. *)
Lemma dijkstra_at_refines h0 m maze start end_ :
  grid_at h0 m maze ->
  refines h0 (dijkstra maze start end_) (answers h0)
    (dijkstra_at m start end_ h0).
Proof.
  intros Hgrid. pose proof Hgrid as (refs & Hm & HF).
  unfold dijkstra_at. rewrite (bind_Done _ _ _ _ _ (len_at_eq _ _ _ Hm)).
  destruct maze as [|row0 rest].
  - apply Forall2_nil_inv_r in HF. subst refs.
    unfold bind at 1. rewrite (getitem_eq _ _ _ 0 Hm).
    split; [apply kept_refl|reflexivity].
  - apply Forall2_cons_inv_r in HF as (r0 & refs' & Hr0 & HF' & ->).
    assert (Eg : getitem m 0 h0 = (Done (VRef r0), h0)).
    { rewrite (getitem_eq _ _ _ 0 Hm).
      now rewrite (py_get_inb (map VRef (r0 :: refs')) 0 (VRef r0)). }
    rewrite (bind_Done _ _ _ _ _ Eg). cbn [as_ref]. rewrite bind_lift_Done.
    rewrite (bind_Done _ _ _ _ _ (len_at_eq _ _ _ Hr0)).
    rewrite !len_map.
    assert (El : len (r0 :: refs') = len (row0 :: rest)).
    { unfold len. simpl. now rewrite (Forall2_length _ _ _ HF'). }
    rewrite El. unfold dijkstra, dijkstra_search.
    rewrite (py_get_inb (row0 :: rest) 0 row0) by (auto; lia).
    cbn [rbind grid_cols]. rewrite !rbind_assoc.
    now apply dijkstra_at_body.
Qed.

Lemma colour_cells_state cells : forall self,
  snd (colour_cells cells self) = self.
Proof.
  induction cells as [|c cells IH]; intros self; simpl; auto.
  unfold bind at 1. unfold itemconfig_rect, bind, get_self, lift.
  destruct (get2 (self_rects self) c); simpl; auto.
Qed.

Lemma solve_maze_state self : snd (solve_maze self) = self.
Proof.
  unfold solve_maze, bind, get_self, lift.
  destruct (self_start self) as [start|]; [|reflexivity].
  destruct (self_end self) as [end_|]; [|reflexivity].
  destruct (dijkstra (self_maze self) start end_) as [[[|c p]|]| |]; simpl; auto.
  pose proof (colour_cells_state (inner (c :: p)) self) as H.
  destruct (colour_cells (inner (c :: p)) self) as [[| |] self']; simpl in *;
    auto.
Qed.

(** C9. A call of [dijkstra] changes no object that existed before it: the
    grid it is given, a list of row lists shared with the caller, holds the
    same cells afterwards, as does everything else in the store.  The
    distance and predecessor tables, the frontier and the path are lists
    the call creates, at addresses that were free; the answer is the one of
    the functional [dijkstra], the path being handed back in a new list of
    coordinate pairs that refers to none of the tables.  [solve_maze], which
    makes the call, leaves the grid, Start and End of the application as
    they were. *)
Theorem dijkstra_frame h m maze start end_ self :
  grid_at h m maze ->
  let out := dijkstra_at m start end_ h in
  (forall l o, h !! l = Some o -> snd out !! l = Some o) /\
  grid_at (snd out) m maze /\
  match dijkstra maze start end_ with
  | Done None => fst out = Done None
  | Done (Some p) =>
      exists pl, fst out = Done (Some pl) /\ (length h <= pl)%nat /\
                 snd out !! pl = Some (map VTuple p)
  | Raised e => fst out = Raised e
  | Unfinished => fst out = Unfinished
  end /\
  snd (solve_maze self) = self.
Proof.
  intros Hgrid out.
  destruct (dijkstra_at_refines h m maze start end_ Hgrid) as [Hk Hr].
  fold out in Hk, Hr. split; [exact Hk|]. split.
  - eapply matrix_at_kept; eauto.
  - split; [|apply solve_maze_state].
    destruct (dijkstra maze start end_) as [[p|]| |]; auto.
    + destruct Hr as ([pl|] & E & Ha); simpl in Ha; [|contradiction].
      exists pl. tauto.
    + destruct Hr as ([pl|] & E & Ha); simpl in Ha; [contradiction|exact E].
Qed.

Lemma dijkstra_frame_witness :
  let out := dijkstra_at 0%nat (0, 0) (2, 0) detour_heap in
  grid_at detour_heap 0%nat detour_maze /\
  (forall l o, detour_heap !! l = Some o -> snd out !! l = Some o) /\
  grid_at (snd out) 0%nat detour_maze /\
  match dijkstra detour_maze (0, 0) (2, 0) with
  | Done None => fst out = Done None
  | Done (Some p) =>
      exists pl, fst out = Done (Some pl) /\ (length detour_heap <= pl)%nat /\
                 snd out !! pl = Some (map VTuple p)
  | Raised e => fst out = Raised e
  | Unfinished => fst out = Unfinished
  end /\
  snd (solve_maze init) = init.
Proof.
  assert (H : grid_at detour_heap 0%nat detour_maze).
  { exists [1; 2; 3]%nat. split; [reflexivity|repeat constructor]. }
  split; [exact H|].
  exact (dijkstra_frame detour_heap 0%nat detour_maze (0, 0) (2, 0) init H).
Defined.

(** * Further properties of the handlers and of the path engine *)

(** ** Pixels and cells *)

(** The canvas is [COLS * CELL_SIZE] pixels wide and [ROWS * CELL_SIZE]
    high ([__init__]). *)
Definition canvas_width : Z := COLS * CELL_SIZE.
Definition canvas_height : Z := ROWS * CELL_SIZE.

Definition on_canvas (event : Event) : Prop :=
  0 <= ev_x event < canvas_width /\ 0 <= ev_y event < canvas_height.

Lemma on_canvas_cell event :
  on_canvas event <-> inb ROWS COLS (event_cell event).
Proof.
  unfold on_canvas, inb, event_cell, canvas_width, canvas_height,
    ROWS, COLS, CELL_SIZE. cbn [fst snd].
  Z.div_mod_to_equations. lia.
Qed.

(** X1. The pixels of the canvas are exactly the pixels that the handlers
    map to a cell of the grid. *)
Theorem event_cell_on_canvas event :
  on_canvas event <-> inb ROWS COLS (event_cell event).
Proof.
  unfold on_canvas, inb, event_cell, canvas_width, canvas_height,
    ROWS, COLS, CELL_SIZE. cbn [fst snd].
  Z.div_mod_to_equations. lia.
Qed.

(** ** Clicking a cell again *)

Lemma in_or_out rows cols c :
  out_of_range rows cols c \/
  (- rows <= fst c < rows /\ - cols <= snd c < cols).
Proof. unfold out_of_range. lia. Qed.

Lemma left_click_out self event rows cols :
  shape rows cols (self_maze self) ->
  out_of_range rows cols (event_cell event) ->
  left_click event self = (Raised IndexError, self).
Proof.
  intros Hm Hout. unfold left_click. destruct (event_cell event) as [row col].
  unfold bind, get_self, lift. now rewrite (get2_out rows cols _ _ Hm Hout).
Qed.

(** X2. A second left click on the same pixel changes nothing, wherever
    the pixel is: the state after two clicks is the state after one. *)
Theorem left_click_twice self event rows cols :
  shape rows cols (self_maze self) -> shape rows cols (self_rects self) ->
  snd (left_click event (snd (left_click event self)))
  = snd (left_click event self).
Proof.
  intros Hm Hr.
  destruct (in_or_out rows cols (event_cell event)) as [Hout|[Hrow Hcol]].
  - rewrite (left_click_out self event rows cols Hm Hout). simpl.
    now rewrite (left_click_out self event rows cols Hm Hout).
  - destruct (left_click_in_range self event rows cols Hm Hr Hrow Hcol)
      as [Hyes Hno]. cbv zeta in Hyes, Hno.
    set (c := event_cell event) in *. set (w := wrapped rows cols c) in *.
    destruct (click_takes_dec (self_maze self) w (self_start self) (self_end self) c)
      as [Hc|Hc].
    + destruct (Hyes Hc) as (maze' & E & Hshape & Hget & _). rewrite E. simpl.
      destruct (left_click_in_range (set_maze self maze') event rows cols
                  Hshape Hr Hrow Hcol) as [_ Hno'].
      cbv zeta in Hno'. fold c w in Hno'. rewrite Hno'; auto.
      intros [Ho _]. unfold open_cell in Ho. simpl in Ho. congruence.
    + rewrite (Hno Hc). simpl. now rewrite (Hno Hc).
Qed.

Lemma left_click_twice_witness :
  snd (left_click {| ev_x := 40; ev_y := 75 |}
         (snd (left_click {| ev_x := 40; ev_y := 75 |} init)))
  = snd (left_click {| ev_x := 40; ev_y := 75 |} init).
Proof.
  apply (left_click_twice init {| ev_x := 40; ev_y := 75 |} ROWS COLS).
  - solve_shape.
  - solve_shape.
Defined.

(** ** What the obstacle generator changes *)

(** Whatever the draws and however the loop ends, it keeps the shape of
    the grid, [rects], Start and End, and a cell either keeps its value or
    was eligible and now holds 1. *)
Lemma place_walls_keeps rows cols wall_count draws : forall self placed,
  shape rows cols (self_maze self) -> shape rows cols (self_rects self) ->
  Forall (inb rows cols) draws ->
  let self' := snd (place_walls draws wall_count placed self) in
  shape rows cols (self_maze self') /\
  self_rects self' = self_rects self /\
  self_start self' = self_start self /\ self_end self' = self_end self /\
  forall c, inb rows cols c ->
    get2 (self_maze self') c = get2 (self_maze self) c \/
    (eligibleb self c = true /\ get2 (self_maze self') c = Done 1).
Proof.
  induction draws as [|[r k] draws IH]; intros self placed Hm Hr Hd; cbv zeta.
  - simpl. destruct (placed <? wall_count); simpl; auto 10.
  - inversion Hd as [|? ? Hc Hd']; subst.
    destruct (placed <? wall_count) eqn:E.
    2:{ cbn [place_walls]. rewrite E. simpl. auto 10. }
    destruct (place_walls_step rows cols wall_count r k draws self placed
                Hm Hr Hc E) as (maze' & Hset & Hshape & Estep).
    rewrite Estep. destruct (eligibleb self (r, k)) eqn:He; [|now apply IH].
    destruct (set2_inb _ _ _ _ 1 Hm Hc) as (m & Hset' & _ & Hget & Hoth).
    rewrite Hset in Hset'. injection Hset' as <-.
    destruct (IH (set_maze self maze') (placed + 1)) as (H1 & H2 & H3 & H4 & H5);
      auto.
    split; auto. split; auto. split; auto. split; auto.
    intros c Hin. destruct (coord_eq_dec c (r, k)) as [->|Hne].
    + right. split; auto.
      destruct (H5 (r, k) Hin) as [Hsame|[_ Hone]]; auto.
      rewrite Hsame. exact Hget.
    + destruct (H5 c Hin) as [Hsame|[Helig Hone]].
      * left. rewrite Hsame. simpl. now apply Hoth.
      * right. split; auto. unfold eligibleb in *. simpl in Helig.
        rewrite Hoth in Helig; auto.
Qed.

Lemma eligibleb_blocked self c v :
  get2 (self_maze self) c = Done v -> v <> 0 -> eligibleb self c = false.
Proof.
  intros Hv Hne. unfold eligibleb. rewrite Hv.
  destruct (v =? 0) eqn:E; [lia|]. apply andb_false_r.
Qed.

Lemma eligibleb_marker self c :
  self_start self = Some c \/ self_end self = Some c -> eligibleb self c = false.
Proof.
  intros [H|H]; unfold eligibleb; rewrite H; simpl;
    rewrite (proj2 (coord_eqb_eq c c) eq_refl); simpl; auto.
  now rewrite andb_false_r.
Qed.

(** X3. [generate_random_walls] only adds walls, and never on Start or
    End: however the loop ends, a cell that was blocked keeps its value,
    the cells under Start and End keep theirs, and a cell that changed was
    open and now holds 1.  Start, End and the shape of the grid stay. *)
Theorem generate_random_walls_only_adds rows cols wall_count draws self :
  shape rows cols (self_maze self) -> shape rows cols (self_rects self) ->
  Forall (inb rows cols) draws ->
  let self' := snd (generate_random_walls wall_count draws self) in
  shape rows cols (self_maze self') /\
  self_start self' = self_start self /\ self_end self' = self_end self /\
  forall c, inb rows cols c ->
    (forall v, get2 (self_maze self) c = Done v -> v <> 0 ->
               get2 (self_maze self') c = Done v) /\
    (self_start self = Some c \/ self_end self = Some c ->
     get2 (self_maze self') c = get2 (self_maze self) c) /\
    (get2 (self_maze self') c <> get2 (self_maze self) c ->
     get2 (self_maze self) c = Done 0 /\ get2 (self_maze self') c = Done 1).
Proof.
  intros Hm Hr Hd. unfold generate_random_walls.
  destruct (place_walls_keeps rows cols wall_count draws self 0 Hm Hr Hd)
    as (H1 & _ & H3 & H4 & H5). cbv zeta.
  split; auto. split; auto. split; auto. intros c Hc.
  destruct (H5 c Hc) as [Hsame|[Helig Hone]].
  - split; [intros v Hv _; now rewrite Hsame|]. split; auto.
    intros Hne. contradiction.
  - split; [|split].
    + intros v Hv Hne. rewrite (eligibleb_blocked self c v Hv Hne) in Helig.
      discriminate.
    + intros Hmark. rewrite (eligibleb_marker self c Hmark) in Helig.
      discriminate.
    + intros _. split; auto. unfold eligibleb in Helig.
      destruct (get2 (self_maze self) c) as [v| |];
        try (rewrite andb_false_r in Helig; discriminate).
      apply andb_true_iff in Helig as [_ Hz]. apply Z.eqb_eq in Hz. now subst.
Qed.

(** A 3 x 3 state with Start in a corner, used as a concrete input. *)
Definition detour_app : App :=
  {| self_maze := detour_maze; self_rects := matrix 3 3 0;
     self_start := Some (0, 0); self_end := None |}.

Lemma generate_random_walls_only_adds_witness :
  let self' := snd (generate_random_walls 1 [(0, 1); (2, 2)] detour_app) in
  shape 3 3 (self_maze self') /\
  self_start self' = self_start detour_app /\
  self_end self' = self_end detour_app /\
  forall c, inb 3 3 c ->
    (forall v, get2 (self_maze detour_app) c = Done v -> v <> 0 ->
               get2 (self_maze self') c = Done v) /\
    (self_start detour_app = Some c \/ self_end detour_app = Some c ->
     get2 (self_maze self') c = get2 (self_maze detour_app) c) /\
    (get2 (self_maze self') c <> get2 (self_maze detour_app) c ->
     get2 (self_maze detour_app) c = Done 0 /\
     get2 (self_maze self') c = Done 1).
Proof.
  apply (generate_random_walls_only_adds 3 3 1 [(0, 1); (2, 2)] detour_app).
  - solve_shape.
  - solve_shape.
  - repeat (constructor; [solve_inb|]). constructor.
Defined.

(** ** When the obstacle generator returns *)

(** The distinct eligible cells among the draws. *)
Definition hits (self : App) (draws : list coord) : nat :=
  length (List.nodup coord_eq_dec (List.filter (eligibleb self) draws)).

Lemma nodup_cons_length (c : coord) (L L' : list coord) :
  (forall x, In x L' <-> In x L /\ x <> c) ->
  length (List.nodup coord_eq_dec (c :: L))
  = S (length (List.nodup coord_eq_dec L')).
Proof.
  intros H.
  change (S (length (List.nodup coord_eq_dec L')))
    with (length (c :: List.nodup coord_eq_dec L')).
  apply Permutation_length, Permutation.NoDup_Permutation.
  - apply List.NoDup_nodup.
  - constructor; [|apply List.NoDup_nodup].
    rewrite List.nodup_In, H. tauto.
  - intros x. rewrite List.nodup_In. simpl. rewrite List.nodup_In, H.
    destruct (coord_eq_dec c x); intuition congruence.
Qed.

Lemma place_walls_returns rows cols wall_count draws : forall self placed,
  shape rows cols (self_maze self) -> shape rows cols (self_rects self) ->
  Forall (inb rows cols) draws ->
  wall_count - placed <= Z.of_nat (hits self draws) ->
  fst (place_walls draws wall_count placed self) = Done tt.
Proof.
  induction draws as [|[r k] draws IH]; intros self placed Hm Hr Hd Hh.
  - unfold hits in Hh. simpl in *.
    assert ((placed <? wall_count) = false) as -> by lia. reflexivity.
  - inversion Hd as [|? ? Hc Hd']; subst.
    destruct (placed <? wall_count) eqn:E.
    2:{ cbn [place_walls]. now rewrite E. }
    destruct (place_walls_step rows cols wall_count r k draws self placed
                Hm Hr Hc E) as (maze' & Hset & Hshape & Estep).
    rewrite Estep. unfold hits in Hh. cbn [List.filter] in Hh.
    destruct (eligibleb self (r, k)) eqn:He; [|now apply IH].
    destruct (set2_inb _ _ _ _ 1 Hm Hc) as (m & Hset' & _ & Hget & Hoth).
    rewrite Hset in Hset'. injection Hset' as <-.
    apply IH; auto. unfold hits.
    rewrite (nodup_cons_length (r, k) _
               (List.filter (eligibleb (set_maze self maze')) draws)) in Hh;
      [lia|].
    intros x. rewrite !filter_In. split.
    + intros [Hin Hx]. destruct (coord_eq_dec x (r, k)) as [->|Hne].
      * unfold eligibleb in Hx. simpl in Hx. rewrite Hget in Hx.
        rewrite andb_false_r in Hx. discriminate.
      * split; auto. split; auto. unfold eligibleb in *. simpl in Hx.
        rewrite Hoth in Hx; auto.
        rewrite List.Forall_forall in Hd'. now apply Hd'.
    + intros [[Hin Hx] Hne]. split; auto. unfold eligibleb in *. simpl.
      rewrite Hoth; auto. rewrite List.Forall_forall in Hd'. now apply Hd'.
Qed.

(** X4. [generate_random_walls] returns as soon as the draws have given
    [wall_count] distinct eligible cells, and has then blocked exactly
    [wall_count] cells, all of them eligible ones. *)
Theorem generate_random_walls_returns rows cols wall_count draws self :
  shape rows cols (self_maze self) -> shape rows cols (self_rects self) ->
  Forall (inb rows cols) draws -> 0 <= wall_count ->
  wall_count <= Z.of_nat (hits self draws) ->
  fst (generate_random_walls wall_count draws self) = Done tt /\
  Z.of_nat (eligible_count rows cols self)
  = Z.of_nat (eligible_count rows cols
                (snd (generate_random_walls wall_count draws self)))
    + wall_count.
Proof.
  intros Hm Hr Hd H0 Hh. unfold generate_random_walls.
  assert (E : fst (place_walls draws wall_count 0 self) = Done tt).
  { apply (place_walls_returns rows cols); auto. lia. }
  split; auto.
  destruct (place_walls_done rows cols wall_count draws self 0 Hm Hr Hd H0 E)
    as (H1 & _). lia.
Qed.

Lemma generate_random_walls_returns_witness :
  let draws := [(0, 0); (0, 1); (1, 0); (2, 2)] in
  fst (generate_random_walls 2 draws detour_app) = Done tt /\
  Z.of_nat (eligible_count 3 3 detour_app)
  = Z.of_nat (eligible_count 3 3
                (snd (generate_random_walls 2 draws detour_app))) + 2.
Proof.
  apply (generate_random_walls_returns 3 3 2
           [(0, 0); (0, 1); (1, 0); (2, 2)] detour_app).
  - solve_shape.
  - solve_shape.
  - repeat (constructor; [solve_inb|]). constructor.
  - lia.
  - unfold hits.
    change (List.filter (eligibleb detour_app) [(0, 0); (0, 1); (1, 0); (2, 2)])
      with [(0, 1); (2, 2)].
    rewrite List.nodup_fixed_point; [simpl; lia|].
    repeat constructor; simpl; intuition congruence.
Defined.

(** ** Right clicks *)

Lemma right_click_first self event draws rows cols :
  self_start self = None -> shape rows cols (self_rects self) ->
  inb rows cols (event_cell event) ->
  right_click event draws self
  = place_walls draws default_wall_count 0
      (set_start self (Some (event_cell event))).
Proof.
  intros Hs Hr Hc. unfold right_click. destruct (event_cell event) as [row col].
  unfold bind at 1. unfold get_self at 1. rewrite Hs.
  unfold bind at 1. unfold put_self at 1. unfold bind at 1.
  now rewrite (itemconfig_rect_inb rows cols
                 (set_start self (Some (row, col))) (row, col) Hr Hc).
Qed.

Lemma right_click_second self event draws rows cols start :
  self_start self = Some start -> self_end self = None ->
  shape rows cols (self_rects self) -> inb rows cols (event_cell event) ->
  right_click event draws self
  = (Done tt, if coord_eqb (event_cell event) start then self
              else set_end self (Some (event_cell event))).
Proof.
  intros Hs He Hr Hc. unfold right_click. destruct (event_cell event) as [row col].
  unfold bind at 1. unfold get_self at 1. rewrite Hs, He.
  destruct (coord_eqb (row, col) start); [reflexivity|].
  unfold bind at 1. unfold put_self at 1.
  now rewrite (itemconfig_rect_inb rows cols
                 (set_end self (Some (row, col))) (row, col) Hr Hc).
Qed.

Lemma right_click_third self event draws start end_ :
  self_start self = Some start -> self_end self = Some end_ ->
  right_click event draws self = (Done tt, self).
Proof.
  intros Hs He. unfold right_click. destruct (event_cell event) as [row col].
  unfold bind, get_self. now rewrite Hs, He.
Qed.

(** X5. The first right click, when it returns, has set Start on the
    clicked cell, left End unset, left the clicked cell as it was, and has
    blocked exactly 56 cells that were open and not the clicked one. *)
Theorem first_right_click self event draws :
  shape ROWS COLS (self_maze self) -> shape ROWS COLS (self_rects self) ->
  self_start self = None -> self_end self = None ->
  inb ROWS COLS (event_cell event) -> Forall (inb ROWS COLS) draws ->
  fst (right_click event draws self) = Done tt ->
  let c := event_cell event in
  let self' := snd (right_click event draws self) in
  self_start self' = Some c /\ self_end self' = None /\
  shape ROWS COLS (self_maze self') /\
  get2 (self_maze self') c = get2 (self_maze self) c /\
  Z.of_nat (eligible_count ROWS COLS (set_start self (Some c)))
  = Z.of_nat (eligible_count ROWS COLS self') + 56.
Proof.
  intros Hm Hr Hs He Hc Hd. cbv zeta.
  rewrite (right_click_first self event draws ROWS COLS Hs Hr Hc).
  set (s1 := set_start self (Some (event_cell event))). intros Hdone.
  assert (Hm1 : shape ROWS COLS (self_maze s1)) by exact Hm.
  assert (Hr1 : shape ROWS COLS (self_rects s1)) by exact Hr.
  destruct (place_walls_keeps ROWS COLS default_wall_count draws s1 0 Hm1 Hr1 Hd)
    as (H1 & _ & H3 & H4 & H5).
  destruct (place_walls_done ROWS COLS default_wall_count draws s1 0 Hm1 Hr1 Hd)
    as (H6 & _); [unfold default_wall_count; lia|exact Hdone|].
  split; [exact H3|]. split; [now rewrite H4|]. split; [exact H1|]. split.
  - destruct (H5 _ Hc) as [Hsame|[Helig _]]; [exact Hsame|].
    rewrite (eligibleb_marker s1 (event_cell event)) in Helig;
      [discriminate|now left].
  - rewrite H6. unfold default_wall_count at 2. lia.
Qed.

Lemma first_right_click_witness :
  let event := {| ev_x := 40; ev_y := 75 |} in
  let c := event_cell event in
  let self' := snd (right_click event (all_cells ROWS COLS) init) in
  self_start self' = Some c /\ self_end self' = None /\
  shape ROWS COLS (self_maze self') /\
  get2 (self_maze self') c = get2 (self_maze init) c /\
  Z.of_nat (eligible_count ROWS COLS (set_start init (Some c)))
  = Z.of_nat (eligible_count ROWS COLS self') + 56.
Proof.
  apply (first_right_click init {| ev_x := 40; ev_y := 75 |}
           (all_cells ROWS COLS)).
  - solve_shape.
  - solve_shape.
  - reflexivity.
  - reflexivity.
  - change (inb ROWS COLS (2, 1)). solve_inb.
  - apply List.Forall_forall. intros c. apply all_cells_In.
  - vm_compute. reflexivity.
Defined.

Lemma dijkstra_start_out maze rows cols start end_ :
  shape rows cols maze -> out_of_range rows cols start ->
  dijkstra maze start end_ = Raised IndexError.
Proof.
  intros Hm Hout. unfold dijkstra, dijkstra_search.
  destruct maze as [|row0 rest]; [reflexivity|].
  rewrite (py_get_inb (row0 :: rest) 0 row0) by (auto; lia). cbn [rbind].
  destruct Hm as [Hrows Hall]. rewrite Hrows.
  assert (Hlen : len row0 = cols) by (now inversion Hall).
  rewrite Hlen.
  rewrite (set2_out rows cols (matrix rows cols Inf) start); auto.
  apply shape_matrix; unfold len in *; lia.
Qed.

(** X6. A first right click whose row or column is outside the index
    range raises [IndexError] after Start has been assigned: Start stays
    set to the off-grid coordinates, no wall is generated, and from then on
    [solve_maze] raises [IndexError] whatever End is set to. *)
Theorem right_click_off_grid self event draws rows cols :
  shape rows cols (self_maze self) -> shape rows cols (self_rects self) ->
  self_start self = None ->
  out_of_range rows cols (event_cell event) ->
  let c := event_cell event in
  right_click event draws self = (Raised IndexError, set_start self (Some c)) /\
  forall end_,
    solve_maze (set_end (set_start self (Some c)) (Some end_))
    = (Raised IndexError, set_end (set_start self (Some c)) (Some end_)).
Proof.
  intros Hm Hr Hs Hout. cbv zeta. split.
  - unfold right_click. destruct (event_cell event) as [row col].
    unfold bind at 1. unfold get_self at 1. rewrite Hs.
    unfold bind at 1. unfold put_self at 1. unfold bind at 1.
    unfold itemconfig_rect, bind, get_self, lift. cbn [set_start self_rects].
    now rewrite (get2_out rows cols _ _ Hr Hout).
  - intros end_. unfold solve_maze, bind, get_self, lift.
    cbn [set_end set_start self_start self_end self_maze].
    now rewrite (dijkstra_start_out _ rows cols _ end_ Hm Hout).
Qed.

Lemma right_click_off_grid_witness :
  let event := {| ev_x := 600; ev_y := 0 |} in
  let c := event_cell event in
  right_click event [] init = (Raised IndexError, set_start init (Some c)) /\
  forall end_,
    solve_maze (set_end (set_start init (Some c)) (Some end_))
    = (Raised IndexError, set_end (set_start init (Some c)) (Some end_)).
Proof.
  apply (right_click_off_grid init {| ev_x := 600; ev_y := 0 |} [] ROWS COLS).
  - solve_shape.
  - solve_shape.
  - reflexivity.
  - change (out_of_range 15 15 (0, 17)). unfold out_of_range. simpl. lia.
Defined.

(** ** The states the handlers reach *)

(** A well-formed application state: a 15 x 15 grid of 0s and 1s, the
    canvas ids untouched, Start and End on the grid, End only together
    with a Start it differs from. *)
Record good (self : App) : Prop := {
  g_maze : shape ROWS COLS (self_maze self);
  g_cells : forall c, inb ROWS COLS c ->
    get2 (self_maze self) c = Done 0 \/ get2 (self_maze self) c = Done 1;
  g_rects : self_rects self = rect_ids;
  g_start : forall c, self_start self = Some c -> inb ROWS COLS c;
  g_end : forall c, self_end self = Some c ->
    inb ROWS COLS c /\ exists s, self_start self = Some s /\ s <> c
}.

(** The states reached from [__init__] by clicks on the canvas that
    return, by [reset_maze] and by [solve_maze]. *)
Inductive reachable : App -> Prop :=
| reach_init : reachable init
| reach_left event self :
    reachable self -> on_canvas event ->
    reachable (snd (left_click event self))
| reach_right event draws self :
    reachable self -> on_canvas event -> Forall (inb ROWS COLS) draws ->
    fst (right_click event draws self) = Done tt ->
    reachable (snd (right_click event draws self))
| reach_reset self : reachable self -> reachable (snd (reset_maze self))
| reach_solve self : reachable self -> reachable (snd (solve_maze self)).

Lemma rect_ids_shape : shape ROWS COLS rect_ids.
Proof. solve_shape. Qed.

Lemma good_rects self : good self -> shape ROWS COLS (self_rects self).
Proof. intros H. rewrite (g_rects _ H). apply rect_ids_shape. Qed.

Lemma good_init : good init.
Proof.
  constructor; simpl; try discriminate; auto.
  - apply shape_matrix; unfold ROWS, COLS; lia.
  - intros c Hc. left. now apply get2_matrix.
Qed.

Lemma good_left_click event self :
  good self -> on_canvas event ->
  fst (left_click event self) = Done tt /\ good (snd (left_click event self)).
Proof.
  intros Hg Hc. apply on_canvas_cell in Hc. pose proof Hc as [Hrow Hcol].
  destruct (left_click_in_range self event ROWS COLS (g_maze _ Hg)
              (good_rects _ Hg)) as [Hyes Hno]; [lia|lia|].
  cbv zeta in Hyes, Hno. rewrite (wrapped_id ROWS COLS _ Hc) in Hyes, Hno.
  destruct (click_takes_dec (self_maze self) (event_cell event)
              (self_start self) (self_end self) (event_cell event)) as [Hd|Hd].
  - destruct (Hyes Hd) as (maze' & E & Hshape & Hget & Hoth). rewrite E.
    split; auto. destruct Hg as [Hm Hcells Hr Hs He].
    constructor; simpl; auto.
    intros c Hin. destruct (coord_eq_dec c (event_cell event)) as [->|Hne].
    + now right.
    + rewrite Hoth; auto.
  - rewrite (Hno Hd). auto.
Qed.

Lemma place_walls_raises_not rows cols wall_count draws : forall self placed,
  shape rows cols (self_maze self) -> shape rows cols (self_rects self) ->
  Forall (inb rows cols) draws ->
  forall e, fst (place_walls draws wall_count placed self) <> Raised e.
Proof.
  induction draws as [|[r k] draws IH]; intros self placed Hm Hr Hd e.
  - simpl. destruct (placed <? wall_count); discriminate.
  - inversion Hd as [|? ? Hc Hd']; subst.
    destruct (placed <? wall_count) eqn:E.
    2:{ cbn [place_walls]. rewrite E. discriminate. }
    destruct (place_walls_step rows cols wall_count r k draws self placed
                Hm Hr Hc E) as (maze' & Hset & Hshape & Estep).
    rewrite Estep. destruct (eligibleb self (r, k)); now apply IH.
Qed.

Lemma good_place_walls wall_count draws self placed :
  good self -> Forall (inb ROWS COLS) draws ->
  good (snd (place_walls draws wall_count placed self)).
Proof.
  intros Hg Hd. pose proof Hg as [Hm Hcells Hr Hs He].
  destruct (place_walls_keeps ROWS COLS wall_count draws self placed Hm
              (good_rects _ Hg) Hd) as (H1 & H2 & H3 & H4 & H5).
  constructor; auto.
  - intros c Hc. destruct (H5 c Hc) as [->|[_ ->]]; auto.
  - congruence.
  - now rewrite H3.
  - rewrite H3, H4. exact He.
Qed.

Lemma good_right_click event draws self :
  good self -> on_canvas event -> Forall (inb ROWS COLS) draws ->
  (fst (right_click event draws self) = Done tt \/
   fst (right_click event draws self) = Unfinished) /\
  good (snd (right_click event draws self)).
Proof.
  intros Hg Hc Hd. apply on_canvas_cell in Hc.
  pose proof Hg as [Hm Hcells Hr Hs He].
  destruct (self_start self) as [start|] eqn:Es.
  - destruct (self_end self) as [end_|] eqn:Ee.
    + rewrite (right_click_third self event draws start end_ Es Ee). auto.
    + rewrite (right_click_second self event draws ROWS COLS start Es Ee
                 (good_rects _ Hg) Hc).
      split; [now left|]. simpl.
      destruct (coord_eqb (event_cell event) start) eqn:E; auto.
      apply coord_eqb_neq in E. constructor; simpl; auto.
      * rewrite Es. exact Hs.
      * intros c [= <-]. split; auto. exists start. rewrite Es. auto.
  - rewrite (right_click_first self event draws ROWS COLS Es (good_rects _ Hg) Hc).
    assert (Hg1 : good (set_start self (Some (event_cell event)))).
    { constructor; simpl; auto.
      - intros c [= <-]. exact Hc.
      - intros c Hend. destruct (He c Hend) as [_ (s & [=] & _)]. }
    split; [|now apply good_place_walls].
    pose proof (place_walls_raises_not ROWS COLS default_wall_count draws
                  (set_start self (Some (event_cell event))) 0
                  (g_maze _ Hg1) (good_rects _ Hg1) Hd) as Hnr.
    destruct (fst (place_walls draws default_wall_count 0
                     (set_start self (Some (event_cell event)))))
      as [[]|e|]; auto. destruct (Hnr e eq_refl).
Qed.

Lemma reset_maze_init self :
  self_rects self = rect_ids -> reset_maze self = (Done tt, init).
Proof.
  intros H. unfold reset_maze, bind, get_self, put_self, init. now rewrite H.
Qed.

(** X7. Every state the handlers reach from the initial one is
    well-formed: the grid is 15 x 15 and holds 0s and 1s, Start and End
    are cells of the grid, End is set only together with a Start it
    differs from, and [reset_maze] brings the state back to the initial
    one. *)
Theorem reachable_good self :
  reachable self -> good self /\ reset_maze self = (Done tt, init).
Proof.
  intros H.
  assert (Hg : good self).
  { induction H as [|event self _ IH Hc|event draws self _ IH Hc Hd _
                    |self _ IH|self _ IH].
    - apply good_init.
    - now apply good_left_click.
    - now apply good_right_click.
    - rewrite (reset_maze_init self (g_rects _ IH)). apply good_init.
    - now rewrite solve_maze_state. }
  split; auto. apply reset_maze_init, Hg.
Qed.

Lemma reachable_good_witness :
  let self := snd (left_click {| ev_x := 40; ev_y := 75 |} init) in
  good self /\ reset_maze self = (Done tt, init).
Proof.
  apply (reachable_good (snd (left_click {| ev_x := 40; ev_y := 75 |} init))).
  apply reach_left; [apply reach_init|].
  unfold on_canvas, canvas_width, canvas_height, ROWS, COLS, CELL_SIZE.
  simpl. lia.
Defined.

Lemma Forall_removelast {A} (P : A -> Prop) (l : list A) :
  Forall P l -> Forall P (removelast l).
Proof.
  induction 1 as [|x l Hx Hl IH]; simpl; auto.
  destruct l; auto.
Qed.

Lemma colour_cells_inb rows cols cells : forall self,
  shape rows cols (self_rects self) -> Forall (inb rows cols) cells ->
  colour_cells cells self = (Done tt, self).
Proof.
  induction cells as [|c cells IH]; intros self Hr Hc; simpl; auto.
  inversion Hc; subst. unfold bind at 1.
  rewrite (itemconfig_rect_inb rows cols self c); auto.
Qed.

(** What [solve_maze] shows on a well-formed state. *)
Lemma solve_maze_shows self rows cols :
  shape rows cols (self_maze self) -> shape rows cols (self_rects self) ->
  (forall c, self_start self = Some c -> inb rows cols c) ->
  (forall c, self_end self = Some c -> inb rows cols c) ->
  match self_start self, self_end self with
  | Some s, Some e =>
      (exists p, solve_maze self = (Done (ShownPath p), self) /\
                 dijkstra (self_maze self) s e = Done (Some p) /\
                 passable (self_maze self) rows cols p s e /\
                 forall q, passable (self_maze self) rows cols q s e ->
                           (length p <= length q)%nat) \/
      (solve_maze self = (Done NoPath, self) /\
       forall p, ~ passable (self_maze self) rows cols p s e)
  | _, _ => solve_maze self = (Done MissingPoints, self)
  end.
Proof.
  intros Hm Hr Hs He. unfold solve_maze, bind, get_self, lift.
  destruct (self_start self) as [s|]; [|reflexivity].
  destruct (self_end self) as [e|]; [|reflexivity].
  destruct (dijkstra_passable (self_maze self) rows cols s e Hm
              (Hs s eq_refl) (He e eq_refl)) as [[E Hno]|(p & E & Hp & Hmin)];
    rewrite E.
  - right. auto.
  - left. exists p. destruct p as [|c p']; [destruct Hp as [[[=] _] _]|].
    pose proof Hp as (_ & _ & Hall). simpl in Hall.
    rewrite (colour_cells_inb rows cols (inner (c :: p')) self Hr).
    + auto.
    + unfold inner. simpl. apply Forall_removelast.
      eapply Forall_impl; [exact Hall|]. now intros x [Hx _].
Qed.

(** X8. On a well-formed state no handler raises: a left click on the
    canvas returns, a right click on the canvas returns or keeps drawing,
    [solve_maze] and [reset_maze] return; and each leaves a well-formed
    state. *)
Theorem handlers_never_raise self event draws :
  good self -> on_canvas event -> Forall (inb ROWS COLS) draws ->
  (fst (left_click event self) = Done tt /\
   good (snd (left_click event self))) /\
  ((fst (right_click event draws self) = Done tt \/
    fst (right_click event draws self) = Unfinished) /\
   good (snd (right_click event draws self))) /\
  (exists r, solve_maze self = (Done r, self)) /\
  reset_maze self = (Done tt, init).
Proof.
  intros Hg Hc Hd. split; [now apply good_left_click|].
  split; [now apply good_right_click|]. split.
  - pose proof (solve_maze_shows self ROWS COLS (g_maze _ Hg) (good_rects _ Hg)
                  (g_start _ Hg) (fun c H => proj1 (g_end _ Hg c H))) as H.
    destruct (self_start self); [|eauto]. destruct (self_end self); [|eauto].
    destruct H as [(path & E & _)|[E _]]; eauto.
  - apply reset_maze_init, Hg.
Qed.

Lemma handlers_never_raise_witness :
  let ev := {| ev_x := 40; ev_y := 75 |} in
  let draws := [(3, 4); (0, 0)] in
  (fst (left_click ev init) = Done tt /\ good (snd (left_click ev init))) /\
  ((fst (right_click ev draws init) = Done tt \/
    fst (right_click ev draws init) = Unfinished) /\
   good (snd (right_click ev draws init))) /\
  (exists r, solve_maze init = (Done r, init)) /\
  reset_maze init = (Done tt, init).
Proof.
  apply (handlers_never_raise init {| ev_x := 40; ev_y := 75 |} [(3, 4); (0, 0)]).
  - apply good_init.
  - unfold on_canvas, canvas_width, canvas_height, ROWS, COLS, CELL_SIZE.
    simpl. lia.
  - repeat (constructor; [solve_inb|]). constructor.
Defined.

(** X9. On a state with both markers on the grid, [solve_maze] does not
    raise and changes nothing; it shows a path that runs from Start to End
    through open cells and that no such path is shorter than, or reports
    that there is none exactly when none exists; with a marker missing it
    reports that. *)
Theorem solve_maze_result self rows cols :
  shape rows cols (self_maze self) -> shape rows cols (self_rects self) ->
  (forall c, self_start self = Some c -> inb rows cols c) ->
  (forall c, self_end self = Some c -> inb rows cols c) ->
  match self_start self, self_end self with
  | Some s, Some e =>
      (exists p, solve_maze self = (Done (ShownPath p), self) /\
                 passable (self_maze self) rows cols p s e /\
                 forall q, passable (self_maze self) rows cols q s e ->
                           (length p <= length q)%nat) \/
      (solve_maze self = (Done NoPath, self) /\
       forall p, ~ passable (self_maze self) rows cols p s e)
  | _, _ => solve_maze self = (Done MissingPoints, self)
  end.
Proof.
  intros Hm Hr Hs He.
  pose proof (solve_maze_shows self rows cols Hm Hr Hs He) as H.
  destruct (self_start self); auto. destruct (self_end self); auto.
  destruct H as [(path & E & _ & Hp & Hmin)|H]; [left; eauto|now right].
Qed.

Lemma solve_maze_result_witness :
  let self := {| self_maze := detour_maze; self_rects := matrix 3 3 0;
                 self_start := Some (0, 0); self_end := Some (2, 0) |} in
  (exists p, solve_maze self = (Done (ShownPath p), self) /\
             passable detour_maze 3 3 p (0, 0) (2, 0) /\
             forall q, passable detour_maze 3 3 q (0, 0) (2, 0) ->
                       (length p <= length q)%nat) \/
  (solve_maze self = (Done NoPath, self) /\
   forall p, ~ passable detour_maze 3 3 p (0, 0) (2, 0)).
Proof.
  apply (solve_maze_result
           {| self_maze := detour_maze; self_rects := matrix 3 3 0;
              self_start := Some (0, 0); self_end := Some (2, 0) |} 3 3).
  - solve_shape.
  - solve_shape.
  - intros c [= <-]. solve_inb.
  - intros c [= <-]. solve_inb.
Defined.

(** ** More on the paths [dijkstra] returns *)

Lemma chain_app (l1 : list coord) (c : coord) (l2 : list coord) :
  chain (l1 ++ c :: l2) <-> chain (l1 ++ [c]) /\ chain (c :: l2).
Proof.
  induction l1 as [|a l1 IH]; [simpl; tauto|].
  destruct l1 as [|b l1].
  - change (chain ([a] ++ c :: l2)) with (adjacent a c /\ chain (c :: l2)).
    change (chain ([a] ++ [c])) with (adjacent a c /\ True). tauto.
  - change (chain ((a :: b :: l1) ++ c :: l2))
      with (adjacent a b /\ chain ((b :: l1) ++ c :: l2)).
    change (chain ((a :: b :: l1) ++ [c]))
      with (adjacent a b /\ chain ((b :: l1) ++ [c])).
    rewrite IH. tauto.
Qed.

Lemma last_rev_head {A} (l : list A) : last (rev l) = head l.
Proof. destruct l as [|a l]; [reflexivity|]. simpl. apply last_snoc. Qed.

Lemma head_rev_last {A} (l : list A) : head (rev l) = last l.
Proof. rewrite <- (rev_involutive l) at 2. now rewrite last_rev_head. Qed.

Lemma chain_rev (p : list coord) : chain (rev p) <-> chain p.
Proof.
  induction p as [|a p IH]; [simpl; tauto|].
  destruct p as [|b p]; [simpl; tauto|].
  change (rev (a :: b :: p)) with (rev (b :: p) ++ [a]).
  rewrite (chain_snoc (rev (b :: p)) b a) by exact (last_rev_head (b :: p)).
  rewrite IH. change (chain (a :: b :: p)) with (adjacent a b /\ chain (b :: p)).
  split; intros [H1 H2]; split; auto using adjacent_sym.
Qed.

(** A walkable path read backwards is walkable. *)
Lemma walkable_rev maze rows cols p s e :
  walkable maze rows cols p s e -> walkable maze rows cols (rev p) e s.
Proof.
  intros ([Hh Hl] & Hch & Hall). split; [split|split].
  - now rewrite head_rev_last.
  - now rewrite last_rev_head.
  - now apply chain_rev.
  - now apply List.Forall_rev.
Qed.

Lemma passable_rev maze rows cols p s e :
  inb rows cols s -> open_cell maze s ->
  passable maze rows cols p s e -> passable maze rows cols (rev p) e s.
Proof.
  intros Hs Ho Hp. apply walkable_passable, walkable_rev.
  now apply passable_walkable.
Qed.

(** X10. Between two open cells the search is symmetric: [dijkstra] finds
    a path from [s] to [e] exactly when it finds one from [e] to [s], and
    the two have the same number of cells. *)
Theorem dijkstra_symmetric maze rows cols s e :
  shape rows cols maze -> inb rows cols s -> inb rows cols e ->
  open_cell maze s -> open_cell maze e ->
  match dijkstra maze s e, dijkstra maze e s with
  | Done (Some p), Done (Some q) => length p = length q
  | Done None, Done None => True
  | _, _ => False
  end.
Proof.
  intros Hm Hs He Hos Hoe.
  destruct (dijkstra_passable maze rows cols s e Hm Hs He)
    as [[E Hno]|(p & E & Hp & Hmin)];
    destruct (dijkstra_passable maze rows cols e s Hm He Hs)
      as [[E' Hno']|(q & E' & Hq & Hmin')]; rewrite E, E'; auto.
  - apply (Hno (rev q)). now apply passable_rev.
  - apply (Hno' (rev p)). now apply passable_rev.
  - pose proof (Hmin (rev q) (passable_rev _ _ _ _ _ _ He Hoe Hq)) as H1.
    pose proof (Hmin' (rev p) (passable_rev _ _ _ _ _ _ Hs Hos Hp)) as H2.
    rewrite length_rev in H1, H2. lia.
Qed.

Lemma dijkstra_symmetric_witness :
  match dijkstra detour_maze (0, 0) (2, 0), dijkstra detour_maze (2, 0) (0, 0) with
  | Done (Some p), Done (Some q) => length p = length q
  | Done None, Done None => True
  | _, _ => False
  end.
Proof.
  apply (dijkstra_symmetric detour_maze 3 3 (0, 0) (2, 0)).
  - solve_shape.
  - solve_inb.
  - solve_inb.
  - reflexivity.
  - reflexivity.
Defined.

(** Two grids of one shape, every path of the second being a path of the
    first: the first answers with a path whenever the second does, and
    with one that is no longer. *)
Lemma dijkstra_compare maze maze' rows cols s e :
  shape rows cols maze -> shape rows cols maze' ->
  inb rows cols s -> inb rows cols e ->
  (forall p, passable maze' rows cols p s e -> passable maze rows cols p s e) ->
  match dijkstra maze s e, dijkstra maze' s e with
  | Done (Some p), Done (Some p') => (length p <= length p')%nat
  | Done _, Done None => True
  | _, _ => False
  end.
Proof.
  intros Hm Hm' Hs He Hsub.
  destruct (dijkstra_passable maze rows cols s e Hm Hs He)
    as [[E Hno]|(p & E & Hp & Hmin)];
    destruct (dijkstra_passable maze' rows cols s e Hm' Hs He)
      as [[E' Hno']|(q & E' & Hq & Hmin')]; rewrite E, E'; auto.
  apply (Hno q). auto.
Qed.

Lemma passable_sub maze maze' rows cols p s e :
  (forall c, inb rows cols c -> open_cell maze' c -> open_cell maze c) ->
  passable maze' rows cols p s e -> passable maze rows cols p s e.
Proof.
  intros Hsub (Hj & Hch & Hall). split; [|split]; auto.
  eapply Forall_impl; [exact Hall|]. intros c [Hc Ho]. split; auto.
Qed.

(** X11. More walls never help: when every open cell of [maze'] is open in
    [maze], [dijkstra] finds a path in [maze] whenever it finds one in
    [maze'], and the one in [maze] is no longer. *)
Theorem dijkstra_more_walls maze maze' rows cols s e :
  shape rows cols maze -> shape rows cols maze' ->
  inb rows cols s -> inb rows cols e ->
  (forall c, inb rows cols c -> open_cell maze' c -> open_cell maze c) ->
  match dijkstra maze s e, dijkstra maze' s e with
  | Done (Some p), Done (Some p') => (length p <= length p')%nat
  | Done _, Done None => True
  | _, _ => False
  end.
Proof.
  intros Hm Hm' Hs He Hsub. apply (dijkstra_compare _ _ rows cols); auto.
  intros p. now apply passable_sub.
Qed.

Lemma dijkstra_more_walls_witness :
  match dijkstra (matrix 3 3 0) (0, 0) (2, 0), dijkstra detour_maze (0, 0) (2, 0) with
  | Done (Some p), Done (Some p') => (length p <= length p')%nat
  | Done _, Done None => True
  | _, _ => False
  end.
Proof.
  apply (dijkstra_more_walls (matrix 3 3 0) detour_maze 3 3 (0, 0) (2, 0)).
  - solve_shape.
  - solve_shape.
  - solve_inb.
  - solve_inb.
  - intros c Hc _. apply (all_open_cell (matrix 3 3 0) 3 3); auto.
    + solve_shape.
    + repeat constructor.
Defined.

Lemma last_app_cons {A} (l : list A) (c : A) (l' : list A) :
  last (l ++ c :: l') = last (c :: l').
Proof.
  rewrite last_app. destruct (last (c :: l')) eqn:E; auto.
  rewrite last_cons in E. destruct (last l'); discriminate.
Qed.

(** A path through a cell twice can be cut short. *)
Lemma passable_cut maze rows cols l1 c l2 l3 s e :
  passable maze rows cols (l1 ++ c :: l2 ++ c :: l3) s e ->
  passable maze rows cols (l1 ++ c :: l3) s e.
Proof.
  intros ([Hh Hl] & Hch & Hall). split; [split|split].
  - destruct l1; exact Hh.
  - rewrite last_app_cons in *.
    change (c :: l2 ++ c :: l3) with ((c :: l2) ++ c :: l3) in Hl.
    now rewrite last_app_cons in Hl.
  - apply chain_app in Hch as [H1 H2].
    change (c :: l2 ++ c :: l3) with ((c :: l2) ++ c :: l3) in H2.
    apply chain_app in H2 as [_ H2]. apply chain_app. auto.
  - destruct l1 as [|a l1]; simpl in *.
    + apply Forall_app in Hall as [_ Hall]. now inversion Hall.
    + apply Forall_app in Hall as [H1 Hall]. inversion Hall as [|? ? Hc Hall']; subst.
      apply Forall_app in Hall' as [_ Hall']. apply Forall_app. auto.
Qed.

Lemma passable_inb maze rows cols p s e :
  inb rows cols s -> passable maze rows cols p s e -> Forall (inb rows cols) p.
Proof.
  intros Hs ([Hh _] & _ & Hall). destruct p as [|a p]; [constructor|].
  injection Hh as ->. constructor; auto.
  eapply Forall_impl; [exact Hall|]. now intros c [Hc _].
Qed.

Lemma all_cells_length rows cols :
  0 <= rows -> 0 <= cols -> Z.of_nat (length (all_cells rows cols)) = rows * cols.
Proof.
  intros Hr Hc. unfold all_cells, zrange.
  rewrite length_prod, !length_map, !length_seq. lia.
Qed.

(** X12. The path [dijkstra] returns visits no cell twice, so it has at
    most [rows * cols] cells. *)
Theorem dijkstra_path_simple maze rows cols start end_ p :
  shape rows cols maze -> inb rows cols start -> inb rows cols end_ ->
  dijkstra maze start end_ = Done (Some p) ->
  List.NoDup p /\ Z.of_nat (length p) <= rows * cols.
Proof.
  intros Hm Hs He E.
  destruct (dijkstra_passable maze rows cols start end_ Hm Hs He)
    as [[E' _]|(p' & E' & Hp & Hmin)]; [congruence|].
  assert (p' = p) as -> by congruence.
  assert (Hnd : List.NoDup p).
  { destruct (ListDec.NoDup_dec coord_eq_dec p) as [H|H]; auto.
    apply ListDec.not_NoDup in H as (c & l1 & l2 & l3 & ->).
    - pose proof (Hmin _ (passable_cut _ _ _ _ _ _ _ _ _ Hp)) as Hle.
      rewrite !length_app in Hle. simpl in Hle.
      rewrite length_app in Hle. simpl in Hle. lia.
    - intros x y. destruct (coord_eq_dec x y); [now left|now right]. }
  split; auto.
  assert (Hle : (length p <= length (all_cells rows cols))%nat).
  { apply List.NoDup_incl_length; auto. intros c Hc. apply all_cells_In.
    pose proof (passable_inb _ _ _ _ _ _ Hs Hp) as Hall.
    rewrite List.Forall_forall in Hall. auto. }
  destruct Hs as [Hr Hc]. rewrite <- (all_cells_length rows cols); lia.
Qed.

Lemma dijkstra_path_simple_witness :
  List.NoDup detour_path /\ Z.of_nat (length detour_path) <= 3 * 3.
Proof.
  apply (dijkstra_path_simple detour_maze 3 3 (0, 0) (2, 0) detour_path).
  - solve_shape.
  - solve_inb.
  - solve_inb.
  - reflexivity.
Defined.

(** X13. The path [dijkstra] returns has at least as many cells as the
    Manhattan distance between its ends, plus one. *)
Theorem dijkstra_at_least_manhattan maze rows cols start end_ p :
  shape rows cols maze -> inb rows cols start -> inb rows cols end_ ->
  dijkstra maze start end_ = Done (Some p) ->
  manhattan start end_ + 1 <= Z.of_nat (length p).
Proof.
  intros Hm Hs He E.
  destruct (dijkstra_passable maze rows cols start end_ Hm Hs He)
    as [[E' _]|(p' & E' & Hp & _)]; [congruence|].
  assert (p' = p) as -> by congruence.
  apply (trail_manhattan maze rows cols). now apply passable_trail.
Qed.

Lemma dijkstra_at_least_manhattan_witness :
  manhattan (0, 0) (2, 0) + 1 <= Z.of_nat (length detour_path).
Proof.
  apply (dijkstra_at_least_manhattan detour_maze 3 3 (0, 0) (2, 0) detour_path).
  - solve_shape.
  - solve_inb.
  - solve_inb.
  - reflexivity.
Defined.

(** ** What clicks never undo *)

Lemma left_click_effect event self :
  good self -> on_canvas event ->
  let self' := snd (left_click event self) in
  self_start self' = self_start self /\ self_end self' = self_end self /\
  forall c, inb ROWS COLS c ->
    get2 (self_maze self') c = get2 (self_maze self) c \/
    get2 (self_maze self') c = Done 1.
Proof.
  intros Hg Hc. cbv zeta. apply on_canvas_cell in Hc.
  pose proof Hc as [Hrow Hcol].
  destruct (left_click_in_range self event ROWS COLS (g_maze _ Hg)
              (good_rects _ Hg)) as [Hyes Hno]; [lia|lia|].
  cbv zeta in Hyes, Hno. rewrite (wrapped_id ROWS COLS _ Hc) in Hyes, Hno.
  destruct (click_takes_dec (self_maze self) (event_cell event)
              (self_start self) (self_end self) (event_cell event)) as [Hd|Hd].
  - destruct (Hyes Hd) as (maze' & E & Hshape & Hget & Hoth). rewrite E.
    simpl. split; auto. split; auto.
    intros c Hin. destruct (coord_eq_dec c (event_cell event)) as [->|Hne].
    + now right.
    + left. now apply Hoth.
  - rewrite (Hno Hd). auto.
Qed.

Lemma right_click_effect event draws self :
  good self -> on_canvas event -> Forall (inb ROWS COLS) draws ->
  let self' := snd (right_click event draws self) in
  (forall s, self_start self = Some s -> self_start self' = Some s) /\
  (forall e, self_end self = Some e -> self_end self' = Some e) /\
  forall c, inb ROWS COLS c ->
    get2 (self_maze self') c = get2 (self_maze self) c \/
    get2 (self_maze self') c = Done 1.
Proof.
  intros Hg Hc Hd. cbv zeta. apply on_canvas_cell in Hc.
  destruct (self_start self) as [start|] eqn:Es.
  - destruct (self_end self) as [end_|] eqn:Ee.
    + rewrite (right_click_third self event draws start end_ Es Ee). simpl.
      rewrite Es, Ee. auto.
    + rewrite (right_click_second self event draws ROWS COLS start Es Ee
                 (good_rects _ Hg) Hc). simpl.
      destruct (coord_eqb (event_cell event) start); simpl; rewrite ?Es, ?Ee;
        split; auto; split; auto; discriminate.
  - rewrite (right_click_first self event draws ROWS COLS Es (good_rects _ Hg) Hc).
    destruct (place_walls_keeps ROWS COLS default_wall_count draws
                (set_start self (Some (event_cell event))) 0)
      as (_ & _ & _ & H4 & H5); auto.
    + exact (g_maze _ Hg).
    + exact (good_rects _ Hg).
    + cbv zeta in H4, H5. split; [discriminate|]. split.
      * intros e He. rewrite H4. exact He.
      * intros c Hin. destruct (H5 c Hin) as [H|[_ H]]; auto.
Qed.

(** States reached by left and right clicks on the canvas alone. *)
Inductive clicked (self : App) : App -> Prop :=
| clicked_none : clicked self self
| clicked_left event self' :
    clicked self self' -> on_canvas event ->
    clicked self (snd (left_click event self'))
| clicked_right event draws self' :
    clicked self self' -> on_canvas event -> Forall (inb ROWS COLS) draws ->
    clicked self (snd (right_click event draws self')).

Lemma clicked_inv self self' :
  good self -> clicked self self' ->
  good self' /\
  (forall c, inb ROWS COLS c -> get2 (self_maze self) c = Done 1 ->
             get2 (self_maze self') c = Done 1) /\
  (forall s, self_start self = Some s -> self_start self' = Some s) /\
  (forall e, self_end self = Some e -> self_end self' = Some e).
Proof.
  intros Hg H.
  induction H as [|event self' _ IH Hc|event draws self' _ IH Hc Hd]; auto.
  - destruct IH as (Hg' & Hw & Hs & He).
    destruct (left_click_effect event self' Hg' Hc) as (Es & Ee & Hcells).
    cbv zeta in Es, Ee, Hcells.
    split; [now apply good_left_click|]. split; [|split].
    + intros c Hin H1. destruct (Hcells c Hin) as [E|E]; auto.
      rewrite E. auto.
    + intros s H1. rewrite Es. auto.
    + intros e H1. rewrite Ee. auto.
  - destruct IH as (Hg' & Hw & Hs & He).
    destruct (right_click_effect event draws self' Hg' Hc Hd) as (Es & Ee & Hcells).
    cbv zeta in Es, Ee, Hcells.
    split; [now apply good_right_click|]. split; [|split]; auto.
    intros c Hin H1. destruct (Hcells c Hin) as [E|E]; auto.
    rewrite E. auto.
Qed.

(** X14. Clicks never undo: over any sequence of left and right clicks on
    the canvas, from a well-formed state, a blocked cell stays blocked, a
    Start that is set stays where it is, and so does an End. *)
Theorem clicks_only_add self self' :
  good self -> clicked self self' ->
  (forall c, inb ROWS COLS c -> get2 (self_maze self) c = Done 1 ->
             get2 (self_maze self') c = Done 1) /\
  (forall s, self_start self = Some s -> self_start self' = Some s) /\
  (forall e, self_end self = Some e -> self_end self' = Some e).
Proof. intros Hg H. now destruct (clicked_inv self self' Hg H) as [_ ?]. Qed.

Lemma clicks_only_add_witness :
  let self := snd (left_click {| ev_x := 40; ev_y := 75 |} init) in
  let self' := snd (right_click {| ev_x := 0; ev_y := 0 |} [(3, 4)] self) in
  (forall c, inb ROWS COLS c -> get2 (self_maze self) c = Done 1 ->
             get2 (self_maze self') c = Done 1) /\
  (forall s, self_start self = Some s -> self_start self' = Some s) /\
  (forall e, self_end self = Some e -> self_end self' = Some e).
Proof.
  assert (Hc : forall x y, 0 <= x < 525 -> 0 <= y < 525 ->
                 on_canvas {| ev_x := x; ev_y := y |}).
  { intros x y Hx Hy. unfold on_canvas, canvas_width, canvas_height,
      ROWS, COLS, CELL_SIZE. simpl. lia. }
  apply (clicks_only_add
           (snd (left_click {| ev_x := 40; ev_y := 75 |} init))
           (snd (right_click {| ev_x := 0; ev_y := 0 |} [(3, 4)]
                   (snd (left_click {| ev_x := 40; ev_y := 75 |} init))))).
  - apply good_left_click; [apply good_init|]. apply Hc; lia.
  - apply clicked_right; [apply clicked_none| |].
    + apply Hc; lia.
    + repeat (constructor; [solve_inb|]). constructor.
Defined.

(** X15. Clicks never shorten the route: after any sequence of left and
    right clicks on the canvas, [dijkstra] between two cells finds a path
    only if it found one before, and the earlier one is no longer. *)
Theorem clicks_never_shorten self self' s e :
  good self -> clicked self self' ->
  inb ROWS COLS s -> inb ROWS COLS e ->
  match dijkstra (self_maze self) s e, dijkstra (self_maze self') s e with
  | Done (Some p), Done (Some p') => (length p <= length p')%nat
  | Done _, Done None => True
  | _, _ => False
  end.
Proof.
  intros Hg H Hs He.
  destruct (clicked_inv self self' Hg H) as (Hg' & Hw & _).
  apply (dijkstra_compare _ _ ROWS COLS); auto using g_maze.
  intros p. apply passable_sub. intros c Hin Ho. unfold open_cell in *.
  destruct (g_cells _ Hg c Hin) as [E|E]; auto.
  rewrite (Hw c Hin E) in Ho. discriminate.
Qed.

Lemma clicks_never_shorten_witness :
  let self' := snd (left_click {| ev_x := 40; ev_y := 75 |} init) in
  match dijkstra (self_maze init) (0, 0) (5, 5),
        dijkstra (self_maze self') (0, 0) (5, 5) with
  | Done (Some p), Done (Some p') => (length p <= length p')%nat
  | Done _, Done None => True
  | _, _ => False
  end.
Proof.
  apply (clicks_never_shorten init
           (snd (left_click {| ev_x := 40; ev_y := 75 |} init)) (0, 0) (5, 5)).
  - apply good_init.
  - apply clicked_left; [apply clicked_none|].
    unfold on_canvas, canvas_width, canvas_height, ROWS, COLS, CELL_SIZE.
    simpl. lia.
  - solve_inb.
  - solve_inb.
Defined.

(** * Coordinates off the grid *)

Lemma itemconfig_rect_out rows cols self c :
  shape rows cols (self_rects self) -> out_of_range rows cols c ->
  itemconfig_rect c self = (Raised IndexError, self).
Proof.
  intros Hr Hout. unfold itemconfig_rect, bind, get_self, lift.
  now rewrite (get2_out rows cols _ _ Hr Hout).
Qed.

Lemma itemconfig_rect_in_range rows cols self c :
  shape rows cols (self_rects self) ->
  - rows <= fst c < rows -> - cols <= snd c < cols ->
  itemconfig_rect c self = (Done tt, self).
Proof.
  intros Hr Hrow Hcol. unfold itemconfig_rect, bind, get_self, lift.
  rewrite (get2_wrapped rows cols _ c Hr Hrow Hcol).
  destruct (get2_inb _ _ _ _ Hr (wrapped_inb rows cols c Hrow Hcol)) as [v ->].
  reflexivity.
Qed.

(** [right_click] with Start unset: Start is assigned, then the canvas
    lookup raises or the obstacle generator runs. *)
Lemma right_click_start self event draws rows cols :
  shape rows cols (self_rects self) -> self_start self = None ->
  let c := event_cell event in
  (out_of_range rows cols c ->
   right_click event draws self
   = (Raised IndexError, set_start self (Some c))) /\
  (- rows <= fst c < rows /\ - cols <= snd c < cols ->
   right_click event draws self
   = place_walls draws default_wall_count 0 (set_start self (Some c))).
Proof.
  intros Hr Hs. cbv zeta. unfold right_click.
  destruct (event_cell event) as [row col].
  split; intros Hc; unfold bind at 1; unfold get_self at 1; rewrite Hs;
    unfold bind at 1; unfold put_self at 1; unfold bind at 1;
    revert Hc.
  - intros Hout.
    now rewrite (itemconfig_rect_out rows cols
                   (set_start self (Some (row, col))) (row, col) Hr Hout).
  - intros [Hrow Hcol].
    now rewrite (itemconfig_rect_in_range rows cols
                   (set_start self (Some (row, col))) (row, col) Hr Hrow Hcol).
Qed.

(** [right_click] with Start set and End unset, on other coordinates than
    Start's: End is assigned, then the canvas lookup raises or returns. *)
Lemma right_click_end self event draws rows cols start :
  shape rows cols (self_rects self) ->
  self_start self = Some start -> self_end self = None ->
  event_cell event <> start ->
  let c := event_cell event in
  (out_of_range rows cols c ->
   right_click event draws self = (Raised IndexError, set_end self (Some c))) /\
  (- rows <= fst c < rows /\ - cols <= snd c < cols ->
   right_click event draws self = (Done tt, set_end self (Some c))).
Proof.
  intros Hr Hs He Hne. cbv zeta. unfold right_click.
  destruct (event_cell event) as [row col].
  apply coord_eqb_neq in Hne.
  split; intros Hc; unfold bind at 1; unfold get_self at 1; rewrite Hs, He;
    rewrite Hne; unfold bind at 1; unfold put_self at 1; revert Hc.
  - intros Hout.
    now rewrite (itemconfig_rect_out rows cols
                   (set_end self (Some (row, col))) (row, col) Hr Hout).
  - intros [Hrow Hcol].
    now rewrite (itemconfig_rect_in_range rows cols
                   (set_end self (Some (row, col))) (row, col) Hr Hrow Hcol).
Qed.

(** C8, amended. No operation validates the coordinates it is given; the
    states are those the handlers leave, field by field.

    A row or column outside Python's index range [[-size, size)]:
    [left_click] raises [IndexError] and leaves the state as it was;
    [right_click] raises [IndexError] after it has stored the coordinates,
    as Start when Start is unset, as End when Start is set, End is unset
    and the coordinates are not Start's, the grid and the other marker
    staying as they were; [dijkstra] raises [IndexError] when the row or
    column is the start's, or the end's with an in-bounds start.

    A negative row or column inside the index range is not rejected: it
    stands for the cell [size + index].  [left_click] returns, having
    blocked that cell when it was open and the clicked coordinates are
    neither Start nor End, and having changed nothing otherwise;
    [right_click] stores the negative coordinates as Start, the obstacle
    generator then running without raising, or as End, and returns. *)
Theorem out_of_bounds_not_validated self event draws rows cols :
  shape rows cols (self_maze self) -> shape rows cols (self_rects self) ->
  Forall (inb rows cols) draws ->
  let c := event_cell event in
  let w := wrapped rows cols c in
  let toggled := left_click event self in
  let marked := right_click event draws self in
  (out_of_range rows cols c ->
   toggled = (Raised IndexError, self)) /\
  (wraps rows cols c ->
   fst toggled = Done tt /\
   self_rects (snd toggled) = self_rects self /\
   self_start (snd toggled) = self_start self /\
   self_end (snd toggled) = self_end self /\
   shape rows cols (self_maze (snd toggled)) /\
   (forall c', inb rows cols c' -> c' <> w ->
      get2 (self_maze (snd toggled)) c' = get2 (self_maze self) c') /\
   (open_cell (self_maze self) w /\
    self_start self <> Some c /\ self_end self <> Some c ->
    get2 (self_maze (snd toggled)) w = Done 1) /\
   (~ (open_cell (self_maze self) w /\
       self_start self <> Some c /\ self_end self <> Some c) ->
    snd toggled = self)) /\
  (self_start self = None ->
   (out_of_range rows cols c ->
    fst marked = Raised IndexError /\
    self_start (snd marked) = Some c /\
    self_end (snd marked) = self_end self /\
    self_maze (snd marked) = self_maze self) /\
   (wraps rows cols c ->
    (fst marked = Done tt \/ fst marked = Unfinished) /\
    self_start (snd marked) = Some c /\
    self_end (snd marked) = self_end self)) /\
  (forall start,
   self_start self = Some start -> self_end self = None -> c <> start ->
   (out_of_range rows cols c ->
    fst marked = Raised IndexError /\
    self_end (snd marked) = Some c /\
    self_start (snd marked) = Some start /\
    self_maze (snd marked) = self_maze self) /\
   (wraps rows cols c ->
    fst marked = Done tt /\
    self_end (snd marked) = Some c /\
    self_start (snd marked) = Some start /\
    self_maze (snd marked) = self_maze self)) /\
  (forall start end_, out_of_range rows cols start ->
   dijkstra (self_maze self) start end_ = Raised IndexError) /\
  (forall start end_, inb rows cols start -> out_of_range rows cols end_ ->
   dijkstra (self_maze self) start end_ = Raised IndexError).
Proof.
  intros Hm Hrects Hd. cbv zeta.
  split; [|split; [|split; [|split; [|split]]]].
  - intros Hout. now apply (left_click_out self event rows cols).
  - intros [[Hrow Hcol] _].
    exact (left_click_fields self event rows cols Hm Hrects Hrow Hcol).
  - intros Hs.
    destruct (right_click_start self event draws rows cols Hrects Hs)
      as [Hout Hin]. cbv zeta in Hout, Hin. split.
    + intros Ho. rewrite (Hout Ho). auto.
    + intros [Hrange _]. rewrite (Hin Hrange).
      set (s1 := set_start self (Some (event_cell event))).
      destruct (place_walls_keeps rows cols default_wall_count draws s1 0
                  Hm Hrects Hd) as (_ & _ & H3 & H4 & _).
      cbv zeta in H3, H4. split; [|split; [exact H3|exact H4]].
      pose proof (place_walls_raises_not rows cols default_wall_count draws
                    s1 0 Hm Hrects Hd) as Hnr.
      destruct (fst (place_walls draws default_wall_count 0 s1))
        as [[]|e|]; auto. destruct (Hnr e eq_refl).
  - intros start Hs He Hne.
    destruct (right_click_end self event draws rows cols start Hrects Hs He Hne)
      as [Hout Hin]. cbv zeta in Hout, Hin. split.
    + intros Ho. rewrite (Hout Ho). simpl. auto.
    + intros [Hrange _]. rewrite (Hin Hrange). simpl. auto.
  - intros start end_ Hout. now apply (dijkstra_start_out _ rows cols).
  - intros start end_ Hs Hout.
    destruct (dijkstra_search_spec _ rows cols start Hm Hs end_)
      as (s & Es & HC & _).
    unfold dijkstra. rewrite Es. cbn [rbind].
    now rewrite (get2_out rows cols _ _ (c_dist_shape _ _ _ _ _ HC) Hout).
Qed.

Lemma out_of_bounds_not_validated_witness :
  let above := {| ev_x := 0; ev_y := -1 |} in
  let beside := {| ev_x := 600; ev_y := 0 |} in
  (fst (left_click above init) = Done tt /\
   get2 (self_maze (snd (left_click above init))) (14, 0) = Done 1 /\
   self_start (snd (right_click above [(3, 4)] init)) = Some (-1, 0)) /\
  (left_click beside init = (Raised IndexError, init) /\
   fst (right_click beside [(3, 4)] init) = Raised IndexError /\
   self_start (snd (right_click beside [(3, 4)] init)) = Some (0, 17)) /\
  dijkstra (self_maze init) (0, 17) (0, 0) = Raised IndexError.
Proof.
  cbv zeta.
  assert (Hm : shape ROWS COLS (self_maze init)) by solve_shape.
  assert (Hr : shape ROWS COLS (self_rects init)) by solve_shape.
  assert (Hd : Forall (inb ROWS COLS) [(3, 4)]).
  { repeat (constructor; [solve_inb|]). constructor. }
  assert (Hw : wraps ROWS COLS (-1, 0)).
  { unfold wraps, inb, ROWS, COLS. simpl. lia. }
  assert (Ho : out_of_range ROWS COLS (0, 17)).
  { unfold out_of_range, ROWS, COLS. simpl. lia. }
  pose proof (out_of_bounds_not_validated init {| ev_x := 0; ev_y := -1 |}
                [(3, 4)] ROWS COLS Hm Hr Hd) as Ha.
  pose proof (out_of_bounds_not_validated init {| ev_x := 600; ev_y := 0 |}
                [(3, 4)] ROWS COLS Hm Hr Hd) as Hb.
  cbv zeta in Ha, Hb.
  change (event_cell {| ev_x := 0; ev_y := -1 |}) with (-1, 0) in Ha.
  change (event_cell {| ev_x := 600; ev_y := 0 |}) with (0, 17) in Hb.
  change (wrapped ROWS COLS (-1, 0)) with (14, 0) in Ha.
  destruct Ha as (_ & Ha2 & Ha3 & _).
  destruct (Ha2 Hw) as (A1 & _ & _ & _ & _ & _ & A7 & _).
  destruct (Ha3 eq_refl) as [_ Ha3w].
  destruct (Ha3w Hw) as (_ & A9 & _).
  destruct Hb as (Hb1 & _ & Hb3 & _ & Hb5 & _).
  destruct (Hb3 eq_refl) as [Hb3o _].
  destruct (Hb3o Ho) as (B1 & B2 & _).
  assert (Hfree : open_cell (self_maze init) (14, 0) /\
                  self_start init <> Some (-1, 0) /\
                  self_end init <> Some (-1, 0)).
  { split; [reflexivity|]. split; discriminate. }
  exact (conj (conj A1 (conj (A7 Hfree) A9))
           (conj (conj (Hb1 Ho) (conj B1 B2)) (Hb5 (0, 17) (0, 0) Ho))).
Defined.
